(** * rtsp-simple-proxy: the fan-out, the supervisor, the upstream UDP
      listener and the bootstrap, embedded from main.go and stream-udpl.go.

    Go values are modelled as follows.
    - [int] and [time.Duration] are 64-bit signed integers: [Z] with the
      wrap-around of the one addition the code performs written out.
    - [[]byte] is a slice into a backing array of a store of arrays; the
      store is explicit because buffers travel through channels by reference.
    - [map[K]V] is a [gmap]; the order in which [range] yields the keys is
      unspecified in Go, so every loop over a map takes that order as an
      argument and the theorems hold for each order.
    - a channel is a bounded FIFO; a send on a channel with no room parks
      the sender, which the embedding reports as the [Blocked] outcome.
    - a run-time panic (index out of range, close of a closed channel) is
      the [Panicked] outcome. *)

From Stdlib Require Import ZArith Zquot Lia Ascii DecimalString.
From stdpp Require Import gmap strings list fin_maps.

Local Open Scope Z_scope.

(** ** Basic Go types *)

Definition ptr := nat.

#[global] Instance byte_eq_dec : EqDecision Byte.byte := Byte.byte_eq_dec.

Definition bytes := list Byte.byte.

(** 64-bit two's complement wrap-around of Go's [int]. *)
Definition wrap_int (z : Z) : Z := (z + 2 ^ 63) mod 2 ^ 64 - 2 ^ 63.

Definition in_int (z : Z) : Prop := - 2 ^ 63 <= z < 2 ^ 63.

(** Go's [%] truncates towards zero, like [Z.rem]. *)
Definition go_rem (a b : Z) : Z := Z.rem a b.

(** [time.Second], in nanoseconds. *)
Definition time_Second : Z := 1000000000.

(** Indexing a Go slice: out of range (or negative) is a run-time panic,
    rendered as [None]. *)
Definition index {A : Type} (l : list A) (i : Z) : option A :=
  if decide (0 <= i) then l !! Z.to_nat i else None.

(** A byte slice: [len_] bytes starting at the head of backing array
    [array]. *)
Record slice := mkSlice { array : ptr; len_ : nat }.
Arguments mkSlice _%_nat _%_nat.

#[global] Instance slice_eq_dec : EqDecision slice.
Proof. solve_decision. Defined.

(** [net.IP] is a byte slice holding 4 or 16 bytes. *)
Definition IP := list Byte.byte.

Definition v4InV6Prefix : list Byte.byte :=
  [Byte.x00; Byte.x00; Byte.x00; Byte.x00; Byte.x00; Byte.x00;
   Byte.x00; Byte.x00; Byte.x00; Byte.x00; Byte.xff; Byte.xff].

(** [net.IP.Equal]: an IPv4 address and its IPv4-in-IPv6 form are equal. *)
Definition IP_Equal (ip x : IP) : bool :=
  if decide (length ip = length x) then bool_decide (ip = x)
  else if decide (length ip = 4%nat /\ length x = 16%nat)
       then bool_decide (take 12 x = v4InV6Prefix) && bool_decide (ip = drop 12 x)
  else if decide (length ip = 16%nat /\ length x = 4%nat)
       then bool_decide (take 12 ip = v4InV6Prefix) && bool_decide (drop 12 ip = x)
  else false.

Record UDPAddr := mkUDPAddr { addr_IP : IP; addr_Port : Z }.

#[global] Instance UDPAddr_eq_dec : EqDecision UDPAddr.
Proof. solve_decision. Defined.

(** ** Channels *)

(** A channel of capacity [cap] holding [queue], oldest element first. *)
Record chan (A : Type) := mkChan { cap : nat; queue : list A }.
Arguments mkChan {A} _%_nat _.
Arguments cap {A} _.
Arguments queue {A} _.

Definition chan_full {A : Type} (ch : chan A) : Prop :=
  (cap ch <= length (queue ch))%nat.

#[global] Instance chan_full_dec {A : Type} (ch : chan A) : Decision (chan_full ch).
Proof. unfold chan_full. apply _. Defined.

(** [ch <- x]: [None] when the send cannot proceed and the sender parks. *)
Definition chan_send {A : Type} (ch : chan A) (x : A) : option (chan A) :=
  if decide (chan_full ch) then None
  else Some (mkChan (cap ch) (queue ch ++ [x])).

(** Where a parked task waits. *)
Inductive waitpoint :=
| WaitRtpl
| WaitRtcpl
| WaitClient (c : ptr)
| WaitRLock
| WaitLock
| WaitMutex
| WaitChanDone.

Arguments WaitClient _%_nat.

#[global] Instance waitpoint_eq_dec : EqDecision waitpoint.
Proof. solve_decision. Defined.

(** How a call ends: it returns, it parks for good at a wait point, or it
    panics; each with the state it leaves. *)
Inductive outcome (S : Type) :=
| Returned (s : S)
| Blocked (s : S) (w : waitpoint)
| Panicked (s : S).
Arguments Returned {S} _.
Arguments Blocked {S} _ _.
Arguments Panicked {S} _.

Definition bind_outcome {S : Type} (o : outcome S) (k : S -> outcome S) : outcome S :=
  match o with
  | Returned s => k s
  | Blocked s w => Blocked s w
  | Panicked s => Panicked s
  end.

(** ** main.go: enumerations and records *)

Inductive trackFlow := _TRACK_FLOW_RTP | _TRACK_FLOW_RTCP.

#[global] Instance trackFlow_eq_dec : EqDecision trackFlow.
Proof. solve_decision. Defined.

Record track := mkTrack { rtpPort : Z; rtcpPort : Z }.

Inductive streamProtocol := _STREAM_PROTOCOL_UDP | _STREAM_PROTOCOL_TCP.

#[global] Instance streamProtocol_eq_dec : EqDecision streamProtocol.
Proof. solve_decision. Defined.

(** The constants are [iota] values: UDP is 0 and TCP is 1. *)
Definition streamProtocol_iota (s : streamProtocol) : nat :=
  match s with _STREAM_PROTOCOL_UDP => 0 | _STREAM_PROTOCOL_TCP => 1 end.

#[global] Instance streamProtocol_countable : Countable streamProtocol.
Proof.
  refine (inj_countable' streamProtocol_iota
            (fun n => match n with
                      | O => _STREAM_PROTOCOL_UDP
                      | S _ => _STREAM_PROTOCOL_TCP
                      end) _).
  intros s. destruct s; reflexivity.
Defined.

Definition streamProtocol_String (s : streamProtocol) : string :=
  if decide (s = _STREAM_PROTOCOL_UDP) then "udp" else "tcp".

Record streamConf := mkStreamConf { Url : string; UseTcp : bool }.

#[global] Instance streamConf_eq_dec : EqDecision streamConf.
Proof. solve_decision. Defined.

Record conf := mkConf {
  Protocols : list string;
  RtspPort : Z;
  RtpPort : Z;
  RtcpPort : Z;
  StreamReadyTimeout : Z;
  StreamTTL : Z
}.

#[global] Instance conf_eq_dec : EqDecision conf.
Proof. solve_decision. Defined.

Record udpWrite := mkUdpWrite { addr : UDPAddr; buf : slice }.

#[global] Instance udpWrite_eq_dec : EqDecision udpWrite.
Proof. solve_decision. Defined.

(** [gortsplib.InterleavedFrame]. *)
Record InterleavedFrame := mkInterleavedFrame { Channel : Z; Content : slice }.

#[global] Instance InterleavedFrame_eq_dec : EqDecision InterleavedFrame.
Proof. solve_decision. Defined.

(** Modelled from the spec: the client states, declared with [serverClient]
    outside the two source files; main.go names only [_CLIENT_STATE_PLAY]. *)
Inductive clientState :=
| _CLIENT_STATE_INIT
| _CLIENT_STATE_DESCRIBED
| _CLIENT_STATE_SETUP_PARTIAL
| _CLIENT_STATE_READY
| _CLIENT_STATE_PLAY
| _CLIENT_STATE_TEARDOWN.

#[global] Instance clientState_eq_dec : EqDecision clientState.
Proof. solve_decision. Defined.

(** Modelled from the spec: [serverClient] is declared outside the two source
    files; these are the fields [forwardTrack] and the supervisor read.
    [streamTracks] is the per-track binding, indexed by track id. *)
Module serverClient.
Record t := mk {
  path : string;
  state : clientState;
  ip : IP;
  streamProtocol : streamProtocol;
  streamTracks : list track;
  chanWrite : chan InterleavedFrame
}.
End serverClient.
Abbreviation serverClient := serverClient.t.

(** Modelled from the spec: [serverUdpListener] is declared outside the two
    source files; [forwardTrack] uses its writer queue only. *)
Module serverUdpListener.
Record t := mk {
  port : Z;
  flow : trackFlow;
  chanWrite : chan udpWrite
}.
End serverUdpListener.
Abbreviation serverUdpListener := serverUdpListener.t.

(** Modelled from the spec: [serverTcpListener] is declared outside the two
    source files; it accepts the clients on the RTSP port. *)
Record serverTcpListener := mkServerTcpListener { tcp_port : Z }.

(** Modelled from the spec: [stream] is declared outside the two source
    files. [stop] is the stop channel, [true] once closed; [created] is the
    creation time the spec speaks of. *)
Module stream.
Record t := mk {
  stop : bool;
  created : Z
}.
End stream.
Abbreviation stream := stream.t.

(** [sync.RWMutex]. *)
Record RWMutex := mkRWMutex { readers : nat; writer : bool }.

Module program.
Record t := mk {
  conf : conf;
  protocols : gset streamProtocol;
  mutex : RWMutex;
  rtspl : serverTcpListener;
  rtpl : serverUdpListener;
  rtcpl : serverUdpListener;
  clients : gmap ptr serverClient;
  streams : gmap string stream
}.
End program.
Abbreviation program := program.t.

(** Modelled from the spec: [trackToInterleavedChannel] is defined outside the
    two source files; for track [i], the RTP channel is [2i] and the RTCP
    channel is [2i+1]. *)
Definition trackToInterleavedChannel (id : Z) (flow : trackFlow) : Z :=
  match flow with
  | _TRACK_FLOW_RTP => 2 * id
  | _TRACK_FLOW_RTCP => 2 * id + 1
  end.

(** ** main.go: forwardTrack *)

Definition set_rtpl_chanWrite (p : program) (ch : chan udpWrite) : program :=
  program.mk (program.conf p) (program.protocols p) (program.mutex p)
    (program.rtspl p)
    (serverUdpListener.mk (serverUdpListener.port (program.rtpl p))
       (serverUdpListener.flow (program.rtpl p)) ch)
    (program.rtcpl p) (program.clients p) (program.streams p).

Definition set_rtcpl_chanWrite (p : program) (ch : chan udpWrite) : program :=
  program.mk (program.conf p) (program.protocols p) (program.mutex p)
    (program.rtspl p)
    (program.rtpl p)
    (serverUdpListener.mk (serverUdpListener.port (program.rtcpl p))
       (serverUdpListener.flow (program.rtcpl p)) ch)
    (program.clients p) (program.streams p).

Definition with_chanWrite (c : serverClient) (ch : chan InterleavedFrame) : serverClient :=
  serverClient.mk (serverClient.path c) (serverClient.state c) (serverClient.ip c)
    (serverClient.streamProtocol c) (serverClient.streamTracks c) ch.

Definition set_client_chanWrite (p : program) (cp : ptr) (c : serverClient)
    (ch : chan InterleavedFrame) : program :=
  program.mk (program.conf p) (program.protocols p) (program.mutex p)
    (program.rtspl p)
    (program.rtpl p) (program.rtcpl p)
    (<[cp := with_chanWrite c ch]> (program.clients p)) (program.streams p).

(** The body of the loop of [forwardTrack] for the client at [cp]. The
    operand of a send is evaluated before the send, so an index out of range
    panics before anything is enqueued. *)
Definition forwardTrack_body (path : string) (id : Z) (flow : trackFlow)
    (frame : slice) (p : program) (cp : ptr) : outcome program :=
  match program.clients p !! cp with
  | None => Returned p
  | Some c =>
    if decide (serverClient.path c = path /\
               serverClient.state c = _CLIENT_STATE_PLAY) then
      if decide (serverClient.streamProtocol c = _STREAM_PROTOCOL_UDP) then
        if decide (flow = _TRACK_FLOW_RTP) then
          match index (serverClient.streamTracks c) id with
          | None => Panicked p
          | Some t =>
            match chan_send (serverUdpListener.chanWrite (program.rtpl p))
                    (mkUdpWrite (mkUDPAddr (serverClient.ip c) (rtpPort t)) frame) with
            | None => Blocked p WaitRtpl
            | Some ch => Returned (set_rtpl_chanWrite p ch)
            end
          end
        else
          match index (serverClient.streamTracks c) id with
          | None => Panicked p
          | Some t =>
            match chan_send (serverUdpListener.chanWrite (program.rtcpl p))
                    (mkUdpWrite (mkUDPAddr (serverClient.ip c) (rtcpPort t)) frame) with
            | None => Blocked p WaitRtcpl
            | Some ch => Returned (set_rtcpl_chanWrite p ch)
            end
          end
      else
        match chan_send (serverClient.chanWrite c)
                (mkInterleavedFrame (trackToInterleavedChannel id flow) frame) with
        | None => Blocked p (WaitClient cp)
        | Some ch => Returned (set_client_chanWrite p cp c ch)
        end
    else Returned p
  end.

(** [for c := range p.clients], the keys yielded in the order [order]. *)
Fixpoint forwardTrack_range (order : list ptr) (path : string) (id : Z)
    (flow : trackFlow) (frame : slice) (p : program) : outcome program :=
  match order with
  | [] => Returned p
  | cp :: rest =>
    bind_outcome (forwardTrack_body path id flow frame p cp)
      (forwardTrack_range rest path id flow frame)
  end.

(** [order] is an order in which [range] may yield the keys of [m]: each key
    once. *)
Definition range_order {K : Type} `{Countable K} {V : Type}
    (m : gmap K V) (order : list K) : Prop :=
  NoDup order /\ list_to_set order = dom m.

Definition forwardTrack (p : program) (order : list ptr) (path : string)
    (id : Z) (flow : trackFlow) (frame : slice) : outcome program :=
  forwardTrack_range order path id flow frame p.

(** *** The fan-out in the words of the spec *)

(** A subscriber of [path]: a client on that path, in the playing state. *)
Definition subscriber (path : string) (c : serverClient) : Prop :=
  serverClient.path c = path /\ serverClient.state c = _CLIENT_STATE_PLAY.

#[global] Instance subscriber_dec path c : Decision (subscriber path c).
Proof. unfold subscriber. apply _. Defined.

(** The UDP endpoint of a flow. *)
Definition endpoint (p : program) (flow : trackFlow) : serverUdpListener :=
  match flow with
  | _TRACK_FLOW_RTP => program.rtpl p
  | _TRACK_FLOW_RTCP => program.rtcpl p
  end.

(** The port of a binding for a flow. *)
Definition flow_port (t : track) (flow : trackFlow) : Z :=
  match flow with
  | _TRACK_FLOW_RTP => rtpPort t
  | _TRACK_FLOW_RTCP => rtcpPort t
  end.

(** The datagram owed to client [c], when [c] is a UDP subscriber of [path]
    with a binding for track [id]. *)
Definition datagram_for (path : string) (id : Z) (flow : trackFlow)
    (frame : slice) (c : serverClient) : option udpWrite :=
  if decide (subscriber path c /\
             serverClient.streamProtocol c = _STREAM_PROTOCOL_UDP) then
    match index (serverClient.streamTracks c) id with
    | Some t => Some (mkUdpWrite (mkUDPAddr (serverClient.ip c) (flow_port t flow)) frame)
    | None => None
    end
  else None.

(** The datagrams owed to the clients met in [order]. *)
Definition datagrams (p : program) (order : list ptr) (path : string)
    (id : Z) (flow : trackFlow) (frame : slice) : list udpWrite :=
  omap (fun cp => c ← program.clients p !! cp; datagram_for path id flow frame c)
       order.

(** The interleaved frames added to the writer queue of client [c]: one, on
    channel [2 id] for RTP and [2 id + 1] for RTCP, when [c] is a TCP
    subscriber of [path]. *)
Definition frames_for (path : string) (id : Z) (flow : trackFlow)
    (frame : slice) (c : serverClient) : list InterleavedFrame :=
  if decide (subscriber path c /\
             serverClient.streamProtocol c = _STREAM_PROTOCOL_TCP) then
    [mkInterleavedFrame (match flow with
                         | _TRACK_FLOW_RTP => 2 * id
                         | _TRACK_FLOW_RTCP => 2 * id + 1
                         end) frame]
  else [].

(** [ds] appended to the writer queue of a UDP endpoint. *)
Definition push (l : serverUdpListener) (ds : list udpWrite) : serverUdpListener :=
  serverUdpListener.mk (serverUdpListener.port l) (serverUdpListener.flow l)
    (mkChan (cap (serverUdpListener.chanWrite l))
            (queue (serverUdpListener.chanWrite l) ++ ds)).

(** Client [c] with the frames owed to it appended to its writer queue. *)
Definition deliver (path : string) (id : Z) (flow : trackFlow) (frame : slice)
    (c : serverClient) : serverClient :=
  with_chanWrite c
    (mkChan (cap (serverClient.chanWrite c))
            (queue (serverClient.chanWrite c) ++ frames_for path id flow frame c)).

(** The state the spec's forward step leaves: one datagram per UDP subscriber
    on the endpoint of the flow, one interleaved frame on the writer queue of
    each TCP subscriber met in [order], nothing else touched. *)
Definition fan_out (p : program) (order : list ptr) (path : string) (id : Z)
    (flow : trackFlow) (frame : slice) : program :=
  let ds := datagrams p order path id flow frame in
  program.mk (program.conf p) (program.protocols p) (program.mutex p)
    (program.rtspl p)
    (push (program.rtpl p) (if decide (flow = _TRACK_FLOW_RTP) then ds else []))
    (push (program.rtcpl p) (if decide (flow = _TRACK_FLOW_RTP) then [] else ds))
    (map_imap (fun cp c => Some (if decide (cp ∈ order)
                                 then deliver path id flow frame c else c))
              (program.clients p))
    (program.streams p).

(** Every UDP subscriber of [path] has a binding for track [id]. *)
Definition bound (p : program) (path : string) (id : Z) : Prop :=
  forall cp c, program.clients p !! cp = Some c ->
    subscriber path c ->
    serverClient.streamProtocol c = _STREAM_PROTOCOL_UDP ->
    is_Some (index (serverClient.streamTracks c) id).

(** The writer queues have room for what the forward step sends. *)
Definition room (p : program) (order : list ptr) (path : string) (id : Z)
    (flow : trackFlow) (frame : slice) : Prop :=
  (length (queue (serverUdpListener.chanWrite (endpoint p flow)))
   + length (datagrams p order path id flow frame)
   <= cap (serverUdpListener.chanWrite (endpoint p flow)))%nat /\
  forall cp c, program.clients p !! cp = Some c -> cp ∈ order ->
    subscriber path c ->
    serverClient.streamProtocol c = _STREAM_PROTOCOL_TCP ->
    ~ chan_full (serverClient.chanWrite c).


(** ** stream-udpl.go *)

Inductive streamUdpListenerState := _UDPL_STATE_STARTING | _UDPL_STATE_RUNNING.

#[global] Instance streamUdpListenerState_eq_dec : EqDecision streamUdpListenerState.
Proof. solve_decision. Defined.

(** [net.UDPConn]: the local port and whether [Close] was called. *)
Record UDPConn := mkUDPConn { conn_port : Z; conn_closed : bool }.

(** [sync.Mutex]: [true] while locked. *)
Definition Mutex := bool.

(** The field [p] points to the one shared [program], which the state of the
    run loop holds next to the listener. *)
Module streamUdpListener.
Record t := mk {
  nconn : UDPConn;
  state : streamUdpListenerState;
  chanDone : chan unit;
  publisherIp : IP;
  publisherPort : Z;
  trackId : Z;
  flow : trackFlow;
  path : string;
  mutex : Mutex;
  lastFrameTime : Z
}.
End streamUdpListener.
Abbreviation streamUdpListener := streamUdpListener.t.

(** [newStreamUdpListener]: [listen] tells whether [net.ListenUDP] succeeds.
    The remaining fields get their zero values; [make(chan struct{})] is
    unbuffered. *)
Definition newStreamUdpListener (listen : Z -> bool) (port : Z)
    : option streamUdpListener :=
  if listen port then
    Some (streamUdpListener.mk (mkUDPConn port false) _UDPL_STATE_STARTING
            (mkChan 0 []) [] 0 0 _TRACK_FLOW_RTP "" false 0)
  else None.

Definition close_nconn (l : streamUdpListener) : streamUdpListener :=
  streamUdpListener.mk
    (mkUDPConn (conn_port (streamUdpListener.nconn l)) true)
    (streamUdpListener.state l) (streamUdpListener.chanDone l)
    (streamUdpListener.publisherIp l) (streamUdpListener.publisherPort l)
    (streamUdpListener.trackId l) (streamUdpListener.flow l)
    (streamUdpListener.path l) (streamUdpListener.mutex l)
    (streamUdpListener.lastFrameTime l).

Definition set_state (l : streamUdpListener) (s : streamUdpListenerState)
    : streamUdpListener :=
  streamUdpListener.mk (streamUdpListener.nconn l) s
    (streamUdpListener.chanDone l)
    (streamUdpListener.publisherIp l) (streamUdpListener.publisherPort l)
    (streamUdpListener.trackId l) (streamUdpListener.flow l)
    (streamUdpListener.path l) (streamUdpListener.mutex l)
    (streamUdpListener.lastFrameTime l).

Definition set_lastFrameTime (l : streamUdpListener) (now : Z) : streamUdpListener :=
  streamUdpListener.mk (streamUdpListener.nconn l) (streamUdpListener.state l)
    (streamUdpListener.chanDone l)
    (streamUdpListener.publisherIp l) (streamUdpListener.publisherPort l)
    (streamUdpListener.trackId l) (streamUdpListener.flow l)
    (streamUdpListener.path l) (streamUdpListener.mutex l) now.

(** [close], taken alone: the receive on the unbuffered [chanDone] completes
    only in a rendezvous with the deferred send of [run], which is another
    task; alone, the receive parks. *)
Definition close (l : streamUdpListener) : outcome streamUdpListener :=
  let l1 := close_nconn l in
  if decide (streamUdpListener.state l1 = _UDPL_STATE_RUNNING)
  then Blocked l1 WaitChanDone
  else Returned l1.

(** What one call of [ReadFromUDP] yields: a datagram and its source
    address, or an error. *)
Inductive readResult :=
| ReadOk (payload : bytes) (src : UDPAddr)
| ReadErr.

(** One call of [forwardTrack], as the listener made it. *)
Record forwardCall := mkForwardCall {
  call_path : string;
  call_id : Z;
  call_flow : trackFlow;
  call_frame : slice
}.

(** The state the run loop works on: the listener, the shared program, the
    store of byte arrays, and the history of the calls of [forwardTrack] made
    by this listener (a history variable, oldest call first). *)
Record world := mkWorld {
  listener : streamUdpListener;
  prog : program;
  arrays : gmap ptr bytes;
  forwarded : list forwardCall
}.

(** The bytes a slice denotes in a store. *)
Definition slice_bytes (st : gmap ptr bytes) (s : slice) : option bytes :=
  take (len_ s) <$> st !! array s.

(** The size of the buffer of a read: [make([]byte, 2048)]. *)
Definition udp_buffer_size : nat := 2048.

(** [make([]byte, n)]: a new zeroed array at an address that is not in use. *)
Definition make_bytes (st : gmap ptr bytes) (n : nat) : ptr * gmap ptr bytes :=
  let a := fresh (dom st) in (a, <[a := replicate n Byte.x00]> st).

(** [ReadFromUDP] copies the datagram into the buffer, cut to the length of
    the buffer, and returns the number of bytes copied. *)
Definition read_into (b : bytes) (payload : bytes) : nat * bytes :=
  let n := Nat.min (length payload) (length b) in
  (n, take n payload ++ drop n b).

Definition RLock (m : RWMutex) : option RWMutex :=
  if writer m then None else Some (mkRWMutex (S (readers m)) false).

Definition RUnlock (m : RWMutex) : RWMutex :=
  mkRWMutex (Nat.pred (readers m)) (writer m).

Definition set_mutex (p : program) (m : RWMutex) : program :=
  program.mk (program.conf p) (program.protocols p) m (program.rtspl p)
    (program.rtpl p) (program.rtcpl p) (program.clients p) (program.streams p).

(** How one pass through the body of [for { ... }] ends: the loop goes on,
    or the task stops there. *)
Inductive loop_result :=
| Next (w : world)
| Stop (o : outcome world).

(** One pass through the loop of [run]. [rd] is what [ReadFromUDP] yields,
    [order] the order in which [forwardTrack] ranges over the clients and
    [now] the reading of [time.Now()].

    On a read error [run] returns and its deferred send on the unbuffered
    [chanDone] parks until [close] receives. The read lock is released by a
    deferred call, hence also when [forwardTrack] panics; it stays held while
    [forwardTrack] is parked on a send. *)
Definition run_iteration (w : world) (rd : readResult) (order : list ptr)
    (now : Z) : loop_result :=
  let l := listener w in
  let '(a, st1) := make_bytes (arrays w) udp_buffer_size in
  match rd with
  | ReadErr => Stop (Blocked (mkWorld l (prog w) st1 (forwarded w)) WaitChanDone)
  | ReadOk payload src =>
    let '(n, b) := read_into (replicate udp_buffer_size Byte.x00) payload in
    let st2 := <[a := b]> st1 in
    if negb (IP_Equal (streamUdpListener.publisherIp l) (addr_IP src))
       || bool_decide (addr_Port src <> streamUdpListener.publisherPort l)
    then Next (mkWorld l (prog w) st2 (forwarded w))
    else
      match RLock (program.mutex (prog w)) with
      | None => Stop (Blocked (mkWorld l (prog w) st2 (forwarded w)) WaitRLock)
      | Some m =>
        let frame := mkSlice a n in
        let hist := forwarded w
                    ++ [mkForwardCall (streamUdpListener.path l)
                          (streamUdpListener.trackId l)
                          (streamUdpListener.flow l) frame] in
        match forwardTrack (set_mutex (prog w) m) order
                (streamUdpListener.path l) (streamUdpListener.trackId l)
                (streamUdpListener.flow l) frame with
        | Returned p1 =>
          let p2 := set_mutex p1 (RUnlock (program.mutex p1)) in
          if streamUdpListener.mutex l
          then Stop (Blocked (mkWorld l p2 st2 hist) WaitMutex)
          else Next (mkWorld (set_lastFrameTime l now) p2 st2 hist)
        | Blocked p1 wp => Stop (Blocked (mkWorld l p1 st2 hist) wp)
        | Panicked p1 =>
          Stop (Panicked (mkWorld l (set_mutex p1 (RUnlock (program.mutex p1)))
                            st2 hist))
        end
      end
  end.

(** What the environment supplies to one pass of the loop. *)
Record loop_input := mkLoopInput {
  in_read : readResult;
  in_order : list ptr;
  in_now : Z
}.

(** The loop of [run] over the passes the environment drives. *)
Fixpoint run_loop (inputs : list loop_input) (w : world) : loop_result :=
  match inputs with
  | [] => Next w
  | i :: rest =>
    match run_iteration w (in_read i) (in_order i) (in_now i) with
    | Next w' => run_loop rest w'
    | Stop o => Stop o
    end
  end.

(** The state in which a pass or a run of passes leaves the world. *)
Definition outcome_state {S : Type} (o : outcome S) : S :=
  match o with
  | Returned s => s
  | Blocked s _ => s
  | Panicked s => s
  end.

Definition result_world (r : loop_result) : world :=
  match r with
  | Next w => w
  | Stop o => outcome_state o
  end.

(** The datagram is from the publisher of the listener. *)
Definition from_publisher (l : streamUdpListener) (src : UDPAddr) : bool :=
  IP_Equal (streamUdpListener.publisherIp l) (addr_IP src)
  && bool_decide (addr_Port src = streamUdpListener.publisherPort l).

(** ** main.go: the supervisor task started by newProgram *)

(** What a tick does to the world outside the two maps, in order. *)
Inductive sup_event :=
| EvLog (path : string)
| EvStop (path : string)
| EvDeleteStream (path : string)
| EvDeleteLastTime (path : string).

#[global] Instance sup_event_eq_dec : EqDecision sup_event.
Proof. solve_decision. Defined.

(** The variables of the supervisor task between two ticks: the shared
    program, the local map [streamsClientLastTime] and what was done so far. *)
Record supervisor := mkSupervisor {
  sup_prog : program;
  streamsClientLastTime : gmap string Z;
  sup_events : list sup_event
}.

(** [for c := range p.clients { streamsClientLastTime[c.path] = time.Now() }]:
    the keys come in [order] and the pass for the k-th key (from [k]) reads
    the time [now k]. *)
Fixpoint stamp_range (clients : gmap ptr serverClient) (order : list ptr)
    (now : nat -> Z) (k : nat) (last : gmap string Z) : gmap string Z :=
  match order with
  | [] => last
  | cp :: rest =>
    match clients !! cp with
    | None => stamp_range clients rest now (S k) last
    | Some c =>
      stamp_range clients rest now (S k) (<[serverClient.path c := now k]> last)
    end
  end.

Definition set_streams (p : program) (s : gmap string stream) : program :=
  program.mk (program.conf p) (program.protocols p) (program.mutex p)
    (program.rtspl p)
    (program.rtpl p) (program.rtcpl p) (program.clients p) s.

(** The body of the second loop for the key [path], with the time [now] read
    by [time.Now()]. Times and durations are in nanoseconds; [Sub] is the
    difference, its saturation at the ends of the 64-bit range left out.
    [close] of a closed channel panics. *)
Definition sweep_body (ttl : Z) (now : Z) (s : supervisor) (path : string)
    : outcome supervisor :=
  match streamsClientLastTime s !! path with
  | None => Returned s
  | Some lastTime =>
    if decide (now - lastTime >= ttl) then
      match program.streams (sup_prog s) !! path with
      | None => Returned s
      | Some st =>
        if stream.stop st then Panicked s
        else Returned
               (mkSupervisor
                  (set_streams (sup_prog s) (delete path (program.streams (sup_prog s))))
                  (delete path (streamsClientLastTime s))
                  (sup_events s ++ [EvLog path; EvStop path;
                                    EvDeleteStream path; EvDeleteLastTime path]))
      end
    else Returned s
  end.

(** [for path, lastTime := range streamsClientLastTime { ... }]: only the
    entry at hand is deleted during the range, so each key of the map as it
    was when the loop began is visited once. *)
Fixpoint sweep_range (ttl : Z) (order : list string) (now : nat -> Z) (k : nat)
    (s : supervisor) : outcome supervisor :=
  match order with
  | [] => Returned s
  | path :: rest =>
    bind_outcome (sweep_body ttl (now k) s path) (sweep_range ttl rest now (S k))
  end.

(** [p.mutex.Lock()] parks while the lock is held by a reader or a writer. *)
Definition Lock (m : RWMutex) : option RWMutex :=
  if writer m then None
  else if decide (readers m = 0%nat) then Some (mkRWMutex 0 true) else None.

Definition Unlock (m : RWMutex) : RWMutex := mkRWMutex (readers m) false.

Definition stamped (s : supervisor) (order1 : list ptr) (now : nat -> Z)
    : gmap string Z :=
  stamp_range (program.clients (sup_prog s)) order1 now 0 (streamsClientLastTime s).

(** One tick: the case [<-t.C] of the select. [order1] and [order2] are the
    orders of the two ranges; the k-th call of [time.Now()] of the tick
    yields [now k]. A panic leaves the lock held. *)
Definition tick (s : supervisor) (order1 : list ptr) (order2 : list string)
    (now : nat -> Z) : outcome supervisor :=
  match Lock (program.mutex (sup_prog s)) with
  | None => Blocked s WaitLock
  | Some m =>
    let s1 := mkSupervisor (set_mutex (sup_prog s) m)
                (stamped s order1 now) (sup_events s) in
    match sweep_range (StreamTTL (program.conf (sup_prog s))) order2 now
            (length order1) s1 with
    | Returned s2 =>
      Returned (mkSupervisor
                  (set_mutex (sup_prog s2) (Unlock (program.mutex (sup_prog s2))))
                  (streamsClientLastTime s2) (sup_events s2))
    | o => o
    end
  end.

(** *** The supervisor among the other tasks *)

(** The supervisor task and the clock. *)
Record sys := mkSys { sys_sup : supervisor; sys_clock : Z }.

Definition set_clients (p : program) (cs : gmap ptr serverClient) : program :=
  program.mk (program.conf p) (program.protocols p) (program.mutex p)
    (program.rtspl p)
    (program.rtpl p) (program.rtcpl p) cs (program.streams p).

Definition sys_with_prog (s : sys) (p : program) : sys :=
  mkSys (mkSupervisor p (streamsClientLastTime (sys_sup s)) (sup_events (sys_sup s)))
        (sys_clock s).

Definition sys_clients (s : sys) : gmap ptr serverClient :=
  program.clients (sup_prog (sys_sup s)).

Definition sys_streams (s : sys) : gmap string stream :=
  program.streams (sup_prog (sys_sup s)).

Definition sys_ttl (s : sys) : Z :=
  StreamTTL (program.conf (sup_prog (sys_sup s))).

(** The state [newProgram] leaves when it starts the supervisor: no client,
    no stream, an empty [streamsClientLastTime], the lock free. *)
Definition sys_initial (s : sys) : Prop :=
  sys_clients s = ∅ /\ sys_streams s = ∅ /\
  streamsClientLastTime (sys_sup s) = ∅ /\
  program.mutex (sup_prog (sys_sup s)) = mkRWMutex 0 false.

(** Successive readings of the clock do not decrease. *)
Definition monotone (now : nat -> Z) : Prop :=
  forall i j, (i <= j)%nat -> now i <= now j.

(** Modelled from the spec: the steps of the other tasks, whose code is
    outside the two source files. A client session is added, changed or
    removed under the write lock; a stream is created lazily, with its stop
    channel open, and may be removed; time passes. The last rule is a tick
    of the supervisor of main.go. *)
Inductive sys_step : sys -> sys -> Prop :=
| step_client (s : sys) (cp : ptr) (c : serverClient) :
    sys_step s (sys_with_prog s
                  (set_clients (sup_prog (sys_sup s)) (<[cp := c]> (sys_clients s))))
| step_disconnect (s : sys) (cp : ptr) :
    sys_step s (sys_with_prog s
                  (set_clients (sup_prog (sys_sup s)) (delete cp (sys_clients s))))
| step_new_stream (s : sys) (path : string) :
    sys_streams s !! path = None ->
    sys_step s (sys_with_prog s
                  (set_streams (sup_prog (sys_sup s))
                     (<[path := stream.mk false (sys_clock s)]> (sys_streams s))))
| step_remove_stream (s : sys) (path : string) :
    sys_step s (sys_with_prog s
                  (set_streams (sup_prog (sys_sup s)) (delete path (sys_streams s))))
| step_time (s : sys) (d : Z) :
    0 <= d ->
    sys_step s (mkSys (sys_sup s) (sys_clock s + d))
| step_tick (s : sys) (order1 : list ptr) (order2 : list string)
    (now : nat -> Z) (s' : supervisor) :
    range_order (sys_clients s) order1 ->
    range_order (stamped (sys_sup s) order1 now) order2 ->
    monotone now ->
    sys_clock s <= now 0%nat ->
    tick (sys_sup s) order1 order2 now = Returned s' ->
    sys_step s (mkSys s' (now (length order1 + length order2)%nat)).

Definition reachable (s : sys) : Prop :=
  exists s0, sys_initial s0 /\ rtc sys_step s0 s.

(** The later of the last time a client was seen on [path] and the creation
    of the stream. *)
Definition last_active (s : sys) (path : string) (st : stream) : Z :=
  match streamsClientLastTime (sys_sup s) !! path with
  | Some t => Z.max t (stream.created st)
  | None => stream.created st
  end.

(** The invariant the spec states for the streams map. *)
Definition ttl_invariant (s : sys) : Prop :=
  forall path st, sys_streams s !! path = Some st ->
    sys_clock s - last_active s path st < sys_ttl s \/ stream.stop st = true.

(** ** main.go: bootstrap *)

(** A fallible result: the value, or the error. *)
Inductive result (A : Type) :=
| Ok (a : A)
| Err (msg : string).
Arguments Ok {A} _.
Arguments Err {A} _.

(** A kingpin flag: its name, its default and the environment variable
    named by [Envar]. *)
Record flag := mkFlag {
  flag_name : string;
  flag_default : string;
  flag_envar : option string
}.

(** [os.Getenv]: the empty string when the variable is not set. *)
Definition os_Getenv (env : gmap string string) (k : string) : string :=
  default "" (env !! k).

(** The text kingpin gives to the parser of a flag: the value on the command
    line if the flag is given, else the value of the environment variable if
    it is not empty, else the default. *)
Definition flag_value (args env : gmap string string) (f : flag) : string :=
  match args !! flag_name f with
  | Some v => v
  | None =>
    match flag_envar f with
    | Some e =>
      if decide (os_Getenv env e = "") then flag_default f else os_Getenv env e
    | None => flag_default f
    end
  end.

(** The six flags, as [newProgram] declares them. *)
Definition flag_protocols : flag := mkFlag "protocols" "tcp,udp" (Some "PROTOCOLS").
Definition flag_rtsp_port : flag := mkFlag "rtsp-port" "8554" (Some "RTSP_PORT").
Definition flag_rtp_port : flag := mkFlag "rtp-port" "8050" (Some "RTP_PORT").
Definition flag_rtcp_port : flag := mkFlag "rtcp-port" "8051" (Some "RTP_PORT").
Definition flag_stream_ready_timeout : flag :=
  mkFlag "stream-ready-timeout" "10s" None.
Definition flag_stream_ttl : flag := mkFlag "stream-ttl" "10s" None.

(** [strings.Split(s, ",")]: the empty string splits into one empty token. *)
Fixpoint strings_Split (s : string) : list string :=
  match s with
  | EmptyString => [EmptyString]
  | String ch rest =>
    let r := strings_Split rest in
    if Ascii.eqb ch ","%char then EmptyString :: r
    else match r with
         | [] => [String ch EmptyString]
         | h :: t => String ch h :: t
         end
  end.

(** The for loop over [conf.Protocols]. *)
Fixpoint protocols_of (tokens : list string) (acc : gset streamProtocol)
    : result (gset streamProtocol) :=
  match tokens with
  | [] => Ok acc
  | proto :: rest =>
    if decide (proto = "udp") then protocols_of rest ({[_STREAM_PROTOCOL_UDP]} ∪ acc)
    else if decide (proto = "tcp") then protocols_of rest ({[_STREAM_PROTOCOL_TCP]} ∪ acc)
    else Err ("unsupported protocol: " +:+ proto)
  end.

(** The checks of [newProgram], in the order of the code. *)
Definition validate (c : conf) : result (gset streamProtocol) :=
  if decide (RtspPort c = 0) then Err "rtsp port not provided"
  else if decide (RtpPort c = 0) then Err "rtp port not provided"
  else if decide (RtcpPort c = 0) then Err "rtcp port not provided"
  else if decide (go_rem (RtpPort c) 2 <> 0) then Err "rtp port must be even"
  else if decide (RtcpPort c <> wrap_int (RtpPort c + 1))
       then Err "rtcp port must be rtp port plus 1"
  else if decide (StreamReadyTimeout c < time_Second)
       then Err "too small stream ready timeout"
  else if decide (StreamTTL c < time_Second) then Err "too small stream TTL"
  else match protocols_of (Protocols c) ∅ with
       | Err m => Err m
       | Ok protocols =>
         if decide (size protocols = 0%nat) then Err "no protocols provided"
         else Ok protocols
       end.

(** What the bootstrap does to the world outside the program value. *)
Inductive boot_effect :=
| EffLog (msg : string)
| EffListenUDP (port : Z) (flow : trackFlow)
| EffListenTCP (port : Z)
| EffGoSupervisor.

Section bootstrap.

(** The parsers kingpin applies to the text of an [Int] and of a [Duration]
    flag. *)
Variable parseInt : string -> option Z.
Variable parseDuration : string -> option Z.

(** Modelled from the spec: [newServerUdpListener] and [newServerTcpListener]
    are defined outside the two source files. They bind a socket, which
    succeeds or fails with the port; the writer queue of a UDP endpoint is
    created empty, with depth [depth]. *)
Variable bind_udp : Z -> bool.
Variable bind_tcp : Z -> bool.
Variable depth : nat.

(** [kingpin.Parse()] and the record built from the flags; [None] when a
    value does not parse, where kingpin reports the error and exits. *)
Definition parse_flags (args env : gmap string string) : option conf :=
  rtsp ← parseInt (flag_value args env flag_rtsp_port);
  rtp ← parseInt (flag_value args env flag_rtp_port);
  rtcp ← parseInt (flag_value args env flag_rtcp_port);
  ready ← parseDuration (flag_value args env flag_stream_ready_timeout);
  ttl ← parseDuration (flag_value args env flag_stream_ttl);
  Some (mkConf (strings_Split (flag_value args env flag_protocols))
               rtsp rtp rtcp ready ttl).

Definition newServerUdpListener (port : Z) (flow : trackFlow)
    : result serverUdpListener :=
  if bind_udp port then Ok (serverUdpListener.mk port flow (mkChan depth []))
  else Err "listen udp".

Definition newServerTcpListener (c : conf) : result serverTcpListener :=
  if bind_tcp (RtspPort c) then Ok (mkServerTcpListener (RtspPort c))
  else Err "listen tcp".

(** [newProgram] from the record on: the checks, the three listeners, the
    supervisor task. The effects are listed in the order they happen. *)
Definition newProgram_conf (c : conf) : result program * list boot_effect :=
  match validate c with
  | Err m => (Err m, [])
  | Ok protocols =>
    let e0 := [EffLog "rtsp-simple-proxy"] in
    match newServerUdpListener (RtpPort c) _TRACK_FLOW_RTP with
    | Err m => (Err m, e0)
    | Ok rtpl =>
      let e1 := e0 ++ [EffListenUDP (RtpPort c) _TRACK_FLOW_RTP] in
      match newServerUdpListener (RtcpPort c) _TRACK_FLOW_RTCP with
      | Err m => (Err m, e1)
      | Ok rtcpl =>
        let e2 := e1 ++ [EffListenUDP (RtcpPort c) _TRACK_FLOW_RTCP] in
        match newServerTcpListener c with
        | Err m => (Err m, e2)
        | Ok rtspl =>
          (Ok (program.mk c protocols (mkRWMutex 0 false) rtspl rtpl rtcpl ∅ ∅),
           e2 ++ [EffListenTCP (RtspPort c); EffGoSupervisor])
        end
      end
    end
  end.

(** How the process [main] ends up. *)
Inductive process :=
| Exited (code : Z) (effects : list boot_effect)
| Running (p : program) (effects : list boot_effect).

(** [main]: a value that does not parse makes kingpin exit with status 1; an
    error of [newProgram] goes to [log.Fatal], which exits with status 1;
    otherwise [p.run()] starts the listeners and waits for ever. *)
Definition main (args env : gmap string string) : process :=
  match parse_flags args env with
  | None => Exited 1 []
  | Some c =>
    match newProgram_conf c with
    | (Err _, effects) => Exited 1 effects
    | (Ok p, effects) => Running p effects
    end
  end.

End bootstrap.

(** The constraints of the spec on a configuration. *)
Definition violates (c : conf) : Prop :=
  RtspPort c = 0 \/ RtpPort c = 0 \/ RtcpPort c = 0 \/
  Z.odd (RtpPort c) = true \/
  RtcpPort c <> RtpPort c + 1 \/
  StreamReadyTimeout c < time_Second \/
  StreamTTL c < time_Second \/
  (exists token, token ∈ Protocols c /\ token <> "udp" /\ token <> "tcp") \/
  Protocols c = [].

(** Decimal numerals, for the examples. *)
Definition parse_decimal (s : string) : option Z :=
  Z.of_int <$> NilEmpty.int_of_string s.

(** Whole seconds written [Ns], for the examples. *)
Definition parse_seconds (s : string) : option Z :=
  match String.rev s with
  | String "s"%char r => (fun n => n * time_Second) <$> parse_decimal (String.rev r)
  | _ => None
  end.

(** ** main.go: loadConf *)

Section loadConf.

(** An open file, the standard input, [os.Open] and the decoding of what a
    file holds into a [conf] by [yaml.NewDecoder(f).Decode]. *)
Variable File : Type.
Variable os_Stdin : File.
Variable os_Open : string -> result File.
Variable yaml_Decode : File -> result conf.

Definition loadConf (confPath : string) : result conf :=
  if decide (confPath = "stdin") then
    match yaml_Decode os_Stdin with
    | Err e => Err e
    | Ok ret => Ok ret
    end
  else
    match os_Open confPath with
    | Err e => Err e
    | Ok f =>
      match yaml_Decode f with
      | Err e => Err e
      | Ok ret => Ok ret
      end
    end.

End loadConf.

(** *** A model of the decoder *)

(** A YAML document, parsed. *)
#[warnings="-register-all"]
Inductive yaml :=
| YNull
| YBool (b : bool)
| YInt (z : Z)
| YStr (s : string)
| YSeq (items : list yaml)
| YMap (entries : list (string * yaml)).

(** The value of the first entry with key [k]. *)
Fixpoint yaml_get (k : string) (entries : list (string * yaml)) : option yaml :=
  match entries with
  | [] => None
  | (k', v) :: rest => if decide (k' = k) then Some v else yaml_get k rest
  end.

(** Decoding into a field: an absent key leaves the zero value, a value of
    another kind is an error. *)
Definition field_int (k : string) (entries : list (string * yaml)) : option Z :=
  match yaml_get k entries with
  | None => Some 0
  | Some (YInt z) => Some z
  | Some _ => None
  end.

Definition field_duration (parseDuration : string -> option Z) (k : string)
    (entries : list (string * yaml)) : option Z :=
  match yaml_get k entries with
  | None => Some 0
  | Some (YInt z) => Some z
  | Some (YStr s) => parseDuration s
  | Some _ => None
  end.

Definition scalar_string (y : yaml) : option string :=
  match y with
  | YStr s => Some s
  | _ => None
  end.

Definition field_strings (k : string) (entries : list (string * yaml))
    : option (list string) :=
  match yaml_get k entries with
  | None => Some []
  | Some (YSeq items) => mapM scalar_string items
  | Some _ => None
  end.

(** Decoding a document into [conf] as yaml.v2 does for a struct without
    field tags: the key of a field is its name in lower case, and a key of
    the document that names no field is ignored. *)
Definition decode_conf (parseDuration : string -> option Z) (doc : yaml)
    : result conf :=
  match doc with
  | YMap entries =>
    match field_strings "protocols" entries, field_int "rtspport" entries,
          field_int "rtpport" entries, field_int "rtcpport" entries,
          field_duration parseDuration "streamreadytimeout" entries,
          field_duration parseDuration "streamttl" entries with
    | Some ps, Some rtsp, Some rtp, Some rtcp, Some ready, Some ttl =>
      Ok (mkConf ps rtsp rtp rtcp ready ttl)
    | _, _, _, _, _, _ => Err "yaml: cannot unmarshal"
    end
  | _ => Err "yaml: cannot unmarshal"
  end.

(** A file of the model: its text parsed as YAML, or [None] when the text is
    not YAML. *)
Definition model_Decode (parseDuration : string -> option Z)
    (f : option yaml) : result conf :=
  match f with
  | None => Err "yaml: syntax error"
  | Some doc => decode_conf parseDuration doc
  end.

Definition model_Open (fs : gmap string (option yaml)) (confPath : string)
    : result (option yaml) :=
  match fs !! confPath with
  | None => Err "open: no such file or directory"
  | Some f => Ok f
  end.

(** One entry of the [streams] section: [path: {url: ..., useTcp: ...}],
    decoded with the tags of [streamConf]. *)
Definition stream_entry (e : string * yaml) : option (string * streamConf) :=
  match e.2 with
  | YMap fields =>
    match yaml_get "url" fields, yaml_get "useTcp" fields with
    | Some (YStr u), Some (YBool b) => Some (e.1, mkStreamConf u b)
    | _, _ => None
    end
  | _ => None
  end.

(** The entries of the [streams] section of a document. *)
Definition doc_streams (doc : yaml) : list (string * streamConf) :=
  match doc with
  | YMap entries =>
    match yaml_get "streams" entries with
    | Some (YMap ss) => omap stream_entry ss
    | _ => []
    end
  | _ => []
  end.

(** The document with its [streams] section replaced by [v]. *)
Definition with_streams (v : yaml) (doc : yaml) : yaml :=
  match doc with
  | YMap entries =>
    YMap (("streams", v) :: filter (fun e => e.1 <> "streams") entries)
  | _ => doc
  end.

(** ** stream-udpl.go: start, run and close as concurrent tasks *)

(** Where [start] is: not called, between [l.state = _UDPL_STATE_RUNNING]
    and [go l.run()], or returned. *)
Inductive start_pc := StartNotCalled | StartSpawning | StartReturned.

(** Where the task of [run] is: not spawned; at [ReadFromUDP]; holding a
    datagram of the publisher, before the call of [forwardTrack]; before the
    update of [lastFrameTime]; out of the loop, at the deferred send on
    [chanDone]; terminated. *)
Inductive run_pc :=
| RunNotSpawned
| RunReading
| RunForwarding
| RunStamping
| RunDeferred
| RunDone.

(** Where [close] is: not called; after [l.nconn.Close()], before the test
    of [l.state]; at the receive [<-l.chanDone]; returned. *)
Inductive close_pc := CloseNotCalled | CloseTesting | CloseReceiving | CloseReturned.

#[global] Instance start_pc_eq_dec : EqDecision start_pc.
Proof. solve_decision. Defined.
#[global] Instance run_pc_eq_dec : EqDecision run_pc.
Proof. solve_decision. Defined.
#[global] Instance close_pc_eq_dec : EqDecision close_pc.
Proof. solve_decision. Defined.

Inductive udpl_event := EvForwarded | EvCloseReturned.

#[global] Instance udpl_event_eq_dec : EqDecision udpl_event.
Proof. solve_decision. Defined.

(** One listener shared by the three tasks. [start_at_close] remembers where
    [start] was when [close] was called, and [history] what happened, oldest
    first; both are history variables. *)
Record udpl := mkUdpl {
  l_state : streamUdpListenerState;
  l_closed : bool;
  pc_start : start_pc;
  pc_run : run_pc;
  pc_close : close_pc;
  start_at_close : start_pc;
  history : list udpl_event
}.

(** The listener as [newStreamUdpListener] returns it. *)
Definition udpl_init : udpl :=
  mkUdpl _UDPL_STATE_STARTING false StartNotCalled RunNotSpawned CloseNotCalled
         StartNotCalled [].

(** The steps of the three tasks, interleaved. A read succeeds only on a
    socket that is not closed and may fail at any time; the send and the
    receive on the unbuffered [chanDone] happen together. *)
Inductive udpl_step : udpl -> udpl -> Prop :=
| start_set_state s :
    pc_start s = StartNotCalled ->
    udpl_step s (mkUdpl _UDPL_STATE_RUNNING (l_closed s) StartSpawning (pc_run s)
                   (pc_close s) (start_at_close s) (history s))
| start_go s :
    pc_start s = StartSpawning ->
    udpl_step s (mkUdpl (l_state s) (l_closed s) StartReturned RunReading
                   (pc_close s) (start_at_close s) (history s))
| run_read_publisher s :
    pc_run s = RunReading -> l_closed s = false ->
    udpl_step s (mkUdpl (l_state s) (l_closed s) (pc_start s) RunForwarding
                   (pc_close s) (start_at_close s) (history s))
| run_read_other s :
    pc_run s = RunReading -> l_closed s = false ->
    udpl_step s (mkUdpl (l_state s) (l_closed s) (pc_start s) RunReading
                   (pc_close s) (start_at_close s) (history s))
| run_read_error s :
    pc_run s = RunReading ->
    udpl_step s (mkUdpl (l_state s) (l_closed s) (pc_start s) RunDeferred
                   (pc_close s) (start_at_close s) (history s))
| run_forward s :
    pc_run s = RunForwarding ->
    udpl_step s (mkUdpl (l_state s) (l_closed s) (pc_start s) RunStamping
                   (pc_close s) (start_at_close s) (history s ++ [EvForwarded]))
| run_stamp s :
    pc_run s = RunStamping ->
    udpl_step s (mkUdpl (l_state s) (l_closed s) (pc_start s) RunReading
                   (pc_close s) (start_at_close s) (history s))
| close_nconn_Close s :
    pc_close s = CloseNotCalled ->
    udpl_step s (mkUdpl (l_state s) true (pc_start s) (pc_run s)
                   CloseTesting (pc_start s) (history s))
| close_test_running s :
    pc_close s = CloseTesting -> l_state s = _UDPL_STATE_RUNNING ->
    udpl_step s (mkUdpl (l_state s) (l_closed s) (pc_start s) (pc_run s)
                   CloseReceiving (start_at_close s) (history s))
| close_test_starting s :
    pc_close s = CloseTesting -> l_state s = _UDPL_STATE_STARTING ->
    udpl_step s (mkUdpl (l_state s) (l_closed s) (pc_start s) (pc_run s)
                   CloseReturned (start_at_close s)
                   (history s ++ [EvCloseReturned]))
| chanDone_rendezvous s :
    pc_run s = RunDeferred -> pc_close s = CloseReceiving ->
    udpl_step s (mkUdpl (l_state s) (l_closed s) (pc_start s) RunDone
                   CloseReturned (start_at_close s)
                   (history s ++ [EvCloseReturned])).

(** No frame is forwarded after [close] returned. *)
Definition quiet_after_close (h : list udpl_event) : Prop :=
  forall h1 h2, h = h1 ++ EvCloseReturned :: h2 -> EvForwarded ∉ h2.

(** ** Concrete states, for the examples *)

Definition ip_10_0_0 (last : Byte.byte) : IP := [Byte.x0a; Byte.x00; Byte.x00; last].

Definition example_frame : slice := mkSlice 7 2.

Definition client_udp : serverClient :=
  serverClient.mk "cam1" _CLIENT_STATE_PLAY (ip_10_0_0 Byte.x01)
    _STREAM_PROTOCOL_UDP [mkTrack 41000 41001] (mkChan 64 []).

Definition client_tcp : serverClient :=
  serverClient.mk "cam1" _CLIENT_STATE_PLAY (ip_10_0_0 Byte.x02)
    _STREAM_PROTOCOL_TCP [] (mkChan 64 []).

Definition client_elsewhere : serverClient :=
  serverClient.mk "cam2" _CLIENT_STATE_PLAY (ip_10_0_0 Byte.x03)
    _STREAM_PROTOCOL_TCP [] (mkChan 64 []).

Definition client_ready : serverClient :=
  serverClient.mk "cam1" _CLIENT_STATE_READY (ip_10_0_0 Byte.x04)
    _STREAM_PROTOCOL_UDP [mkTrack 42000 42001] (mkChan 64 []).

(** A TCP subscriber whose writer queue, of depth 1, is full. *)
Definition client_slow : serverClient :=
  serverClient.mk "cam1" _CLIENT_STATE_PLAY (ip_10_0_0 Byte.x05)
    _STREAM_PROTOCOL_TCP [] (mkChan 1 [mkInterleavedFrame 0 (mkSlice 3 2)]).

Definition example_conf : conf :=
  mkConf ["tcp"; "udp"] 8554 8050 8051 (10 * time_Second) (10 * time_Second).

Definition example_program_with (cs : gmap ptr serverClient)
    (ss : gmap string stream) : program :=
  program.mk example_conf {[_STREAM_PROTOCOL_UDP; _STREAM_PROTOCOL_TCP]}
    (mkRWMutex 0 false) (mkServerTcpListener 8554)
    (serverUdpListener.mk 8050 _TRACK_FLOW_RTP (mkChan 64 []))
    (serverUdpListener.mk 8051 _TRACK_FLOW_RTCP (mkChan 64 []))
    cs ss.

(** A UDP subscriber, a TCP subscriber, a client of another path and a
    client that is not playing. *)
Definition example_program : program :=
  example_program_with
    (<[1%nat := client_udp]> (<[2%nat := client_tcp]>
       (<[3%nat := client_elsewhere]> (<[4%nat := client_ready]> ∅)))) ∅.

Definition slow_program : program :=
  example_program_with (<[1%nat := client_slow]> ∅) ∅.

(** The upstream listener of track 0 of [cam1], whose publisher is
    10.0.0.9:5000. *)
Definition example_listener : streamUdpListener :=
  streamUdpListener.mk (mkUDPConn 9000 false) _UDPL_STATE_RUNNING (mkChan 0 [])
    (ip_10_0_0 Byte.x09) 5000 0 _TRACK_FLOW_RTP "cam1" false 0.

Definition publisher_addr : UDPAddr := mkUDPAddr (ip_10_0_0 Byte.x09) 5000.

Definition example_world (p : program) : world :=
  mkWorld example_listener p ∅ [].

(** The writer queue that [forwardTrack] sends to for client [c] is full. *)
Definition target_full (p : program) (flow : trackFlow) (c : serverClient) : Prop :=
  if decide (serverClient.streamProtocol c = _STREAM_PROTOCOL_UDP)
  then chan_full (serverUdpListener.chanWrite (endpoint p flow))
  else chan_full (serverClient.chanWrite c).


(** The wait points of [forwardTrack]: the sends on the writer queues. *)
Definition send_point (w : waitpoint) : Prop :=
  match w with
  | WaitRtpl | WaitRtcpl | WaitClient _ => True
  | _ => False
  end.

(** The buffers of the calls made so far are in the store, and no two calls
    share a buffer. *)
Definition buffers_ok (w : world) : Prop :=
  (forall call, call ∈ forwarded w -> array (call_frame call) ∈ dom (arrays w)) /\
  NoDup (map (fun call => array (call_frame call)) (forwarded w)).

(** The entry of [path] is due at time [now]: it is at least [ttl] old and a
    stream exists at [path]. *)
Definition due (ttl now : Z) (last : gmap string Z)
    (streams : gmap string stream) (path : string) : Prop :=
  exists t st, last !! path = Some t /\ now - t >= ttl /\ streams !! path = Some st.

(** What the sweep does for a due entry, in order. *)
Definition sweep_events (path : string) : list sup_event :=
  [EvLog path; EvStop path; EvDeleteStream path; EvDeleteLastTime path].

(** The stop channel of every stream in the map is open. *)
Definition streams_open (streams : gmap string stream) : Prop :=
  forall path st, streams !! path = Some st -> stream.stop st = false.

Definition sup_streams (s : supervisor) : gmap string stream :=
  program.streams (sup_prog s).

(** Two streams, a client on [cam1], and a last time of [cam2] at 0. *)
Definition example_streams : gmap string stream :=
  <["cam1" := stream.mk false 0]> (<["cam2" := stream.mk false 0]> ∅).

Definition example_supervisor : supervisor :=
  mkSupervisor
    (example_program_with (<[1%nat := client_udp]> ∅) example_streams)
    (<["cam2" := 0]> ∅) [].

(** Every reading of the clock of the tick gives 20 s. *)
Definition at_20s : nat -> Z := fun _ => 20 * time_Second.

(** The state in which the supervisor starts, at time 0. *)
Definition sys_start : sys :=
  mkSys (mkSupervisor (example_program_with ∅ ∅) ∅ []) 0.

(** Twenty seconds later: the stream [cam1], created at 0, whose only
    client came and went between two ticks, is still in the map, after a
    tick. *)
Definition sys_stale : sys :=
  mkSys (mkSupervisor
           (example_program_with ∅ (<["cam1" := stream.mk false 0]> ∅)) ∅ [])
        (20 * time_Second).

(** The environment of the failing input: only [RTCP_PORT] is set. *)
Definition env_rtcp_only : gmap string string := <["RTCP_PORT" := "9001"]> ∅.

(** An environment that sets the two ports to a valid pair. *)
Definition env_both_ports : gmap string string :=
  <["RTP_PORT" := "9000"]> (<["RTCP_PORT" := "9001"]> ∅).

(** The file [loadConf] decodes: the standard input when the path is the
    literal [stdin], else the file that [os.Open] returns. *)
Definition conf_source {File : Type} (os_Stdin : File)
    (os_Open : string -> result File) (confPath : string) (f : File) : Prop :=
  if decide (confPath = "stdin") then f = os_Stdin else os_Open confPath = Ok f.

(** A document with the six settings and no [streams] section. *)
Definition doc_settings : yaml :=
  YMap [("protocols", YSeq [YStr "udp"; YStr "tcp"]);
        ("rtspport", YInt 8554); ("rtpport", YInt 8050); ("rtcpport", YInt 8051);
        ("streamreadytimeout", YStr "10s"); ("streamttl", YStr "10s")].

Definition section_cam1 (url : string) (useTcp : bool) : yaml :=
  YMap [("cam1", YMap [("url", YStr url); ("useTcp", YBool useTcp)])].

(** The same settings with [cam1] mapped to one origin, and to another. *)
Definition doc_cam1 : yaml :=
  with_streams (section_cam1 "rtsp://origin/cam1" false) doc_settings.

Definition doc_cam1_moved : yaml :=
  with_streams (section_cam1 "rtsp://elsewhere/cam1" true) doc_settings.

(** A document that decodes and that the bootstrap would reject on every
    count: odd RTP port, RTCP port not the next one, no protocol, timeouts
    below one second. *)
Definition doc_invalid : yaml :=
  YMap [("protocols", YSeq []);
        ("rtspport", YInt 8554); ("rtpport", YInt 8051); ("rtcpport", YInt 9000);
        ("streamreadytimeout", YInt 1); ("streamttl", YInt 1)].

(** [loadConf] on the model: the standard input holds [stdin], the files are
    those of [fs]. *)
Definition model_loadConf (parseDuration : string -> option Z)
    (stdin : option yaml) (fs : gmap string (option yaml)) (confPath : string)
    : result conf :=
  loadConf (option yaml) stdin (model_Open fs) (model_Decode parseDuration) confPath.

(** The loaded record holds the stream mapping of the document: [streams_of]
    reads it back from the record. *)
Definition conf_keeps_streams (streams_of : conf -> string -> option streamConf)
    : Prop :=
  forall doc c,
    model_loadConf parse_seconds (Some doc) ∅ "stdin" = Ok c ->
    forall path sc, (path, sc) ∈ doc_streams doc -> streams_of c path = Some sc.

(** What holds of the three tasks in every state they reach. *)
Definition udpl_invariant (s : udpl) : Prop :=
  (l_state s = _UDPL_STATE_RUNNING <-> pc_start s <> StartNotCalled) /\
  (pc_run s = RunNotSpawned <-> pc_start s <> StartReturned) /\
  (l_closed s = true <-> pc_close s <> CloseNotCalled) /\
  (start_at_close s <> StartNotCalled -> pc_start s <> StartNotCalled) /\
  (pc_close s = CloseReturned ->
     pc_run s <> RunForwarding /\ pc_run s <> RunStamping /\
     (start_at_close s <> StartNotCalled -> pc_run s = RunDone)) /\
  (EvCloseReturned ∈ history s -> pc_close s = CloseReturned) /\
  quiet_after_close (history s).

(** A listener started, one datagram forwarded, then closed: [run] has
    terminated and [close] has returned. *)
Definition udpl_closed : udpl :=
  mkUdpl _UDPL_STATE_RUNNING true StartReturned RunDone CloseReturned
         StartReturned [EvForwarded; EvCloseReturned].

(** ** Predicates and examples for the further properties *)
(** ** Further definitions, for the properties beyond the claims *)

(** Channel [ch'] is [ch] with elements appended, each satisfying
    [carries]. *)
Definition extends {A : Type} (carries : A -> Prop) (ch ch' : chan A) : Prop :=
  cap ch' = cap ch /\
  exists new, queue ch' = queue ch ++ new /\ Forall carries new.

(** State [p'] is [p] after sends of the payload [frame] of a packet of
    [path] and [flow] only: the writer queue of the UDP endpoint of the flow
    and the writer queues of subscribers of [path] are extended by elements
    that carry [frame]; nothing else differs. *)
Definition forwards_only (path : string) (flow : trackFlow) (frame : slice)
    (p p' : program) : Prop :=
  program.conf p' = program.conf p /\
  program.protocols p' = program.protocols p /\
  program.mutex p' = program.mutex p /\
  program.rtspl p' = program.rtspl p /\
  program.streams p' = program.streams p /\
  (forall flow', flow' <> flow -> endpoint p' flow' = endpoint p flow') /\
  serverUdpListener.port (endpoint p' flow) = serverUdpListener.port (endpoint p flow) /\
  serverUdpListener.flow (endpoint p' flow) = serverUdpListener.flow (endpoint p flow) /\
  extends (fun d => buf d = frame)
    (serverUdpListener.chanWrite (endpoint p flow))
    (serverUdpListener.chanWrite (endpoint p' flow)) /\
  (forall cp, program.clients p !! cp = None -> program.clients p' !! cp = None) /\
  (forall cp c, program.clients p !! cp = Some c ->
     exists c',
       program.clients p' !! cp = Some c' /\
       c' = with_chanWrite c (serverClient.chanWrite c') /\
       extends (fun f => Content f = frame)
         (serverClient.chanWrite c) (serverClient.chanWrite c') /\
       (~ subscriber path c -> c' = c)).

(** A second payload, for the examples. *)
Definition example_frame2 : slice := mkSlice 8 5.


(** [start], the part that runs in the caller: the state is set to running
    before the task of [run] is spawned. *)
Definition start (l : streamUdpListener) : streamUdpListener :=
  set_state l _UDPL_STATE_RUNNING.

(** An environment that sets only [RTP_PORT]. *)
Definition env_rtp_only : gmap string string := <["RTP_PORT" := "9000"]> ∅.

(** The state in which the task started by [newProgram] begins:
    [streamsClientLastTime := map[string]time.Time{}]. *)
Definition supervisor_start (p : program) : supervisor := mkSupervisor p ∅ [].

(** A supervisor whose stream [cam2] has its stop channel closed already,
    the last client of [cam2] seen at 0. *)
Definition supervisor_closed_stop : supervisor :=
  mkSupervisor (example_program_with ∅ (<["cam2" := stream.mk true 0]> ∅))
    (<["cam2" := 0]> ∅) [].
(** ** Properties of forwardTrack *)

Section forwardTrack_facts.
Variables (path : string) (id : Z) (flow : trackFlow) (frame : slice).

Lemma push_nil l : push l [] = l.
Proof. destruct l as [? ? [? ?]]. unfold push. simpl. by rewrite app_nil_r. Qed.

Lemma push_push l ds1 ds2 : push (push l ds1) ds2 = push l (ds1 ++ ds2).
Proof. unfold push. simpl. by rewrite app_assoc. Qed.

Lemma frames_for_other c :
  ~ (subscriber path c /\ serverClient.streamProtocol c = _STREAM_PROTOCOL_TCP) ->
  frames_for path id flow frame c = [].
Proof. intros H. unfold frames_for. by rewrite decide_False. Qed.

Lemma deliver_other c :
  ~ (subscriber path c /\ serverClient.streamProtocol c = _STREAM_PROTOCOL_TCP) ->
  deliver path id flow frame c = c.
Proof.
  intros H. unfold deliver. rewrite frames_for_other by done.
  destruct c as [? ? ? ? ? [? ?]]. unfold with_chanWrite. simpl.
  by rewrite app_nil_r.
Qed.

Lemma datagram_for_with_chanWrite c ch :
  datagram_for path id flow frame (with_chanWrite c ch)
  = datagram_for path id flow frame c.
Proof. reflexivity. Qed.

Lemma datagrams_cons p cp order :
  datagrams p (cp :: order) path id flow frame
  = match program.clients p !! cp ≫= datagram_for path id flow frame with
    | Some d => d :: datagrams p order path id flow frame
    | None => datagrams p order path id flow frame
    end.
Proof. reflexivity. Qed.

Lemma datagrams_set_rtpl p ch order :
  datagrams (set_rtpl_chanWrite p ch) order path id flow frame
  = datagrams p order path id flow frame.
Proof. reflexivity. Qed.

Lemma datagrams_set_rtcpl p ch order :
  datagrams (set_rtcpl_chanWrite p ch) order path id flow frame
  = datagrams p order path id flow frame.
Proof. reflexivity. Qed.

Lemma datagrams_set_client p cp c ch order :
  program.clients p !! cp = Some c ->
  datagrams (set_client_chanWrite p cp c ch) order path id flow frame
  = datagrams p order path id flow frame.
Proof.
  intros Hc. induction order as [|k order IH]; [done|].
  rewrite !datagrams_cons, IH.
  replace (program.clients (set_client_chanWrite p cp c ch) !! k
             ≫= datagram_for path id flow frame)
    with (program.clients p !! k ≫= datagram_for path id flow frame); [done|].
  unfold set_client_chanWrite. simpl.
  destruct (decide (k = cp)) as [->|Hne].
  - by rewrite lookup_insert_eq, Hc.
  - by rewrite lookup_insert_ne.
Qed.

Lemma fan_out_nil p : fan_out p [] path id flow frame = p.
Proof.
  unfold fan_out. simpl. destruct (decide (flow = _TRACK_FLOW_RTP));
    rewrite !push_nil; destruct p as [c pr m l0 l1 l2 cl st]; simpl; f_equal;
    apply map_eq; intros k; rewrite map_lookup_imap;
    destruct (cl !! k); simpl; try done;
    rewrite decide_False; try done; apply not_elem_of_nil.
Qed.

Lemma fan_out_skip p cp rest :
  program.clients p !! cp ≫= datagram_for path id flow frame = None ->
  (forall c, program.clients p !! cp = Some c -> deliver path id flow frame c = c) ->
  fan_out p (cp :: rest) path id flow frame = fan_out p rest path id flow frame.
Proof.
  intros Hd Hc. unfold fan_out. rewrite datagrams_cons, Hd. f_equal.
  apply map_eq. intros k. rewrite !map_lookup_imap.
  destruct (program.clients p !! k) as [c|] eqn:Hk; [simpl|done].
  destruct (decide (k = cp)) as [->|Hne].
  - rewrite decide_True by apply list_elem_of_here. rewrite (Hc c Hk).
    by destruct (decide (cp ∈ rest)).
  - destruct (decide (k ∈ rest)) as [Hin|Hin].
    + rewrite decide_True; [done|]. by apply list_elem_of_further.
    + rewrite decide_False; [done|]. rewrite elem_of_cons. tauto.
Qed.

Lemma fan_out_udp p cp c d rest :
  program.clients p !! cp = Some c ->
  datagram_for path id flow frame c = Some d ->
  fan_out (if decide (flow = _TRACK_FLOW_RTP)
           then set_rtpl_chanWrite p
                  (mkChan (cap (serverUdpListener.chanWrite (program.rtpl p)))
                     (queue (serverUdpListener.chanWrite (program.rtpl p)) ++ [d]))
           else set_rtcpl_chanWrite p
                  (mkChan (cap (serverUdpListener.chanWrite (program.rtcpl p)))
                     (queue (serverUdpListener.chanWrite (program.rtcpl p)) ++ [d])))
    rest path id flow frame
  = fan_out p (cp :: rest) path id flow frame.
Proof.
  intros Hc Hd.
  assert (Hdel : deliver path id flow frame c = c).
  { apply deliver_other. intros [_ Ht]. unfold datagram_for in Hd.
    case_decide as Hu; [|done]. destruct Hu as [_ Hu]. congruence. }
  unfold fan_out. rewrite datagrams_cons, Hc. simpl. rewrite Hd.
  destruct (decide (flow = _TRACK_FLOW_RTP)) as [Hf|Hf]; simpl;
    unfold push; simpl; rewrite <- ?app_assoc; simpl; f_equal;
    apply map_eq; intros k; rewrite !map_lookup_imap;
    (destruct (program.clients p !! k) as [c'|] eqn:Hk; [simpl|done]);
    (destruct (decide (k = cp)) as [->|Hne];
     [ assert (c' = c) as -> by congruence;
       rewrite (decide_True (P := cp ∈ cp :: rest)) by apply list_elem_of_here;
       rewrite Hdel; by destruct (decide (cp ∈ rest))
     | destruct (decide (k ∈ rest)) as [Hin|Hin];
       [ rewrite decide_True; [done|]; by apply list_elem_of_further
       | rewrite decide_False; [done|]; rewrite elem_of_cons; tauto ] ]).
Qed.

Lemma fan_out_tcp p cp c rest :
  program.clients p !! cp = Some c ->
  subscriber path c ->
  serverClient.streamProtocol c = _STREAM_PROTOCOL_TCP ->
  cp ∉ rest ->
  fan_out (set_client_chanWrite p cp c
             (mkChan (cap (serverClient.chanWrite c))
                (queue (serverClient.chanWrite c)
                 ++ [mkInterleavedFrame (trackToInterleavedChannel id flow) frame])))
    rest path id flow frame
  = fan_out p (cp :: rest) path id flow frame.
Proof.
  intros Hc Hs Ht Hnotin.
  assert (Hd : datagram_for path id flow frame c = None).
  { unfold datagram_for. rewrite decide_False; [done|]. intros [_ Hu]. congruence. }
  assert (Hdel : deliver path id flow frame c
                 = with_chanWrite c
                     (mkChan (cap (serverClient.chanWrite c))
                        (queue (serverClient.chanWrite c)
                         ++ [mkInterleavedFrame (trackToInterleavedChannel id flow) frame]))).
  { unfold deliver, frames_for. by rewrite decide_True by done. }
  unfold fan_out. rewrite datagrams_set_client by done.
  rewrite datagrams_cons, Hc. simpl. rewrite Hd. f_equal.
  apply map_eq. intros k. rewrite !map_lookup_imap.
  destruct (decide (k = cp)) as [->|Hne].
  - rewrite lookup_insert_eq, Hc. simpl.
    rewrite decide_False by done.
    rewrite decide_True by apply list_elem_of_here. by rewrite Hdel.
  - rewrite lookup_insert_ne by done.
    destruct (program.clients p !! k) as [c'|] eqn:Hk; [simpl|done].
    destruct (decide (k ∈ rest)) as [Hin|Hin].
    + rewrite decide_True; [done|]. by apply list_elem_of_further.
    + rewrite decide_False; [done|]. rewrite elem_of_cons. tauto.
Qed.

Lemma bound_set_client p cp c ch :
  program.clients p !! cp = Some c ->
  bound p path id -> bound (set_client_chanWrite p cp c ch) path id.
Proof.
  intros Hc Hb k c' Hk Hs Hu. unfold set_client_chanWrite in Hk. simpl in Hk.
  destruct (decide (k = cp)) as [->|Hne].
  - rewrite lookup_insert_eq in Hk. injection Hk as <-. by apply (Hb cp c).
  - rewrite lookup_insert_ne in Hk by done. by apply (Hb k c').
Qed.

Lemma forwardTrack_range_fan_out order :
  forall p, NoDup order -> bound p path id -> room p order path id flow frame ->
    forwardTrack_range order path id flow frame p
    = Returned (fan_out p order path id flow frame).
Proof.
  induction order as [|cp rest IH]; intros p Hnd Hb [Hr1 Hr2].
  - simpl. by rewrite fan_out_nil.
  - apply NoDup_cons in Hnd as [Hnotin Hnd].
    assert (Hrest : forall k c', program.clients p !! k = Some c' -> k ∈ rest ->
              subscriber path c' ->
              serverClient.streamProtocol c' = _STREAM_PROTOCOL_TCP ->
              ~ chan_full (serverClient.chanWrite c')).
    { intros k c' Hk Hk'. apply (Hr2 k c' Hk). by apply list_elem_of_further. }
    rewrite datagrams_cons in Hr1. simpl. unfold forwardTrack_body.
    destruct (program.clients p !! cp) as [c|] eqn:Hc.
    2:{ simpl in *. rewrite IH; [|done|done|by split].
        f_equal. symmetry. apply fan_out_skip; [by rewrite Hc|]. intros c. by rewrite Hc. }
    simpl in Hr1.
    destruct (decide (serverClient.path c = path /\
                      serverClient.state c = _CLIENT_STATE_PLAY)) as [Hs|Hs].
    2:{ assert (Hd : datagram_for path id flow frame c = None).
        { unfold datagram_for. rewrite decide_False; [done|]. intros [? _]. done. }
        rewrite Hd in Hr1. simpl. rewrite IH; [|done|done|by split].
        f_equal. symmetry. apply fan_out_skip; [by rewrite Hc|].
        intros c' Hc'. assert (c' = c) as -> by congruence.
        apply deliver_other. intros [? _]. done. }
    destruct (decide (serverClient.streamProtocol c = _STREAM_PROTOCOL_UDP)) as [Hu|Hu].
    + destruct (Hb cp c Hc Hs Hu) as [t Ht].
      assert (Hd : datagram_for path id flow frame c
                   = Some (mkUdpWrite (mkUDPAddr (serverClient.ip c) (flow_port t flow)) frame)).
      { unfold datagram_for. rewrite decide_True by done. by rewrite Ht. }
      rewrite Hd in Hr1. simpl in Hr1. rewrite Ht.
      rewrite <- (fan_out_udp p cp c _ rest Hc Hd).
      destruct (decide (flow = _TRACK_FLOW_RTP)) as [Hf|Hf].
      * rewrite Hf in *. simpl in *. unfold chan_send.
        rewrite decide_False by (unfold chan_full; lia). simpl.
        apply IH; [done|done|]. split; [|done].
        match goal with
        | |- context [datagrams ?q rest path id ?f frame] =>
            change (datagrams q rest path id f frame)
              with (datagrams p rest path id f frame)
        end.
        unfold endpoint, set_rtpl_chanWrite, set_rtcpl_chanWrite. simpl.
        rewrite length_app. simpl. lia.
      * assert (flow = _TRACK_FLOW_RTCP) as Hf' by (by destruct flow).
        rewrite Hf' in *. simpl in *. unfold chan_send.
        rewrite decide_False by (unfold chan_full; lia). simpl.
        apply IH; [done|done|]. split; [|done].
        match goal with
        | |- context [datagrams ?q rest path id ?f frame] =>
            change (datagrams q rest path id f frame)
              with (datagrams p rest path id f frame)
        end.
        unfold endpoint, set_rtpl_chanWrite, set_rtcpl_chanWrite. simpl.
        rewrite length_app. simpl. lia.
    + assert (Ht : serverClient.streamProtocol c = _STREAM_PROTOCOL_TCP).
      { by destruct (serverClient.streamProtocol c). }
      assert (Hd : datagram_for path id flow frame c = None).
      { unfold datagram_for. rewrite decide_False; [done|]. intros [_ ?]. done. }
      rewrite Hd in Hr1.
      unfold chan_send. rewrite decide_False.
      2:{ apply (Hr2 cp c); [done|apply list_elem_of_here|done..]. }
      simpl. rewrite <- (fan_out_tcp p cp c rest Hc Hs Ht Hnotin).
      apply IH; [done|by apply bound_set_client|]. split.
      * rewrite datagrams_set_client by done. by destruct flow.
      * intros k c' Hk Hk'. unfold set_client_chanWrite in Hk. simpl in Hk.
        rewrite lookup_insert_ne in Hk by (intros ->; done). by apply (Hrest k c').
Qed.

End forwardTrack_facts.

Lemma range_order_elem {K : Type} `{Countable K} {V : Type}
    (m : gmap K V) (order : list K) (k : K) (v : V) :
  range_order m order -> m !! k = Some v -> k ∈ order.
Proof.
  intros [_ Hdom] Hk.
  assert (Hin : k ∈ (list_to_set order : gset K)).
  { rewrite Hdom. apply elem_of_dom. by exists v. }
  by apply elem_of_list_to_set in Hin.
Qed.

Lemma range_order_lookup {K : Type} `{Countable K} {V : Type}
    (m : gmap K V) (order : list K) (k : K) :
  range_order m order -> k ∈ order -> is_Some (m !! k).
Proof.
  intros [_ Hdom] Hk. apply elem_of_dom. rewrite <- Hdom.
  by apply elem_of_list_to_set.
Qed.

Lemma elem_of_datagrams p order path id flow frame d :
  d ∈ datagrams p order path id flow frame <->
  exists cp c, cp ∈ order /\ program.clients p !! cp = Some c /\
               datagram_for path id flow frame c = Some d.
Proof.
  unfold datagrams. rewrite list_elem_of_omap. split.
  - intros (cp & Hin & Hd). destruct (program.clients p !! cp) as [c|] eqn:Hc; [|done].
    simpl in Hd. by exists cp, c.
  - intros (cp & c & Hin & Hc & Hd). exists cp. split; [done|]. by rewrite Hc.
Qed.

(** [bound] and [room] can be decided on a concrete state. *)
Lemma bound_map_Forall p path id :
  map_Forall (fun (_ : ptr) c =>
                subscriber path c ->
                serverClient.streamProtocol c = _STREAM_PROTOCOL_UDP ->
                is_Some (index (serverClient.streamTracks c) id))
             (program.clients p) ->
  bound p path id.
Proof. intros H cp c Hc. exact (map_Forall_lookup_1 _ _ _ _ H Hc). Qed.

Lemma room_map_Forall p order path id flow frame :
  (length (queue (serverUdpListener.chanWrite (endpoint p flow)))
   + length (datagrams p order path id flow frame)
   <= cap (serverUdpListener.chanWrite (endpoint p flow)))%nat ->
  map_Forall (fun (cp : ptr) c =>
                cp ∈ order -> subscriber path c ->
                serverClient.streamProtocol c = _STREAM_PROTOCOL_TCP ->
                ~ chan_full (serverClient.chanWrite c))
             (program.clients p) ->
  room p order path id flow frame.
Proof.
  intros H1 H2. split; [done|]. intros cp c Hc.
  exact (map_Forall_lookup_1 _ _ _ _ H2 Hc).
Qed.

(** C1: for every packet handed to [forwardTrack], when the bindings exist
    and the writer queues have room, the call returns and exactly the
    subscribers of the path (clients on that path in the playing state) are
    sent the packet, each on its own transport. The writer queue of the UDP
    endpoint of the flow grows by one datagram per UDP subscriber, addressed
    to the client's ip and to the RTP or RTCP port of its binding for the
    track; the writer queue of each TCP subscriber grows by one interleaved
    frame with the same bytes on channel [2 id] (RTP) or [2 id + 1] (RTCP);
    no other queue and no other client changes. *)
Theorem forwardTrack_fans_out (p : program) (order : list ptr) (path : string)
    (id : Z) (flow : trackFlow) (frame : slice) :
  range_order (program.clients p) order ->
  bound p path id ->
  room p order path id flow frame ->
  exists p',
    forwardTrack p order path id flow frame = Returned p' /\
    queue (serverUdpListener.chanWrite (endpoint p' flow))
    = queue (serverUdpListener.chanWrite (endpoint p flow))
      ++ datagrams p order path id flow frame /\
    (forall d, d ∈ datagrams p order path id flow frame <->
       exists cp c t,
         program.clients p !! cp = Some c /\
         subscriber path c /\
         serverClient.streamProtocol c = _STREAM_PROTOCOL_UDP /\
         index (serverClient.streamTracks c) id = Some t /\
         d = mkUdpWrite
               (mkUDPAddr (serverClient.ip c)
                  (match flow with
                   | _TRACK_FLOW_RTP => rtpPort t
                   | _TRACK_FLOW_RTCP => rtcpPort t
                   end))
               frame) /\
    (forall flow', flow' <> flow -> endpoint p' flow' = endpoint p flow') /\
    (forall cp c, program.clients p !! cp = Some c ->
       exists c',
         program.clients p' !! cp = Some c' /\
         c' = with_chanWrite c (serverClient.chanWrite c') /\
         cap (serverClient.chanWrite c') = cap (serverClient.chanWrite c) /\
         queue (serverClient.chanWrite c')
         = queue (serverClient.chanWrite c)
           ++ (if decide (subscriber path c /\
                          serverClient.streamProtocol c = _STREAM_PROTOCOL_TCP)
               then [mkInterleavedFrame
                       (match flow with
                        | _TRACK_FLOW_RTP => 2 * id
                        | _TRACK_FLOW_RTCP => 2 * id + 1
                        end) frame]
               else [])) /\
    (forall cp, program.clients p !! cp = None -> program.clients p' !! cp = None) /\
    program.mutex p' = program.mutex p /\
    program.streams p' = program.streams p.
Proof.
  intros Hord Hb Hr. exists (fan_out p order path id flow frame).
  split; [unfold forwardTrack; apply forwardTrack_range_fan_out; [apply Hord|done..]|].
  split; [by unfold fan_out, endpoint; destruct flow|].
  split.
  { intros d. rewrite elem_of_datagrams. split.
    - intros (cp & c & Hin & Hc & Hd). unfold datagram_for in Hd.
      case_decide as Hsu; [|done]. destruct Hsu as [Hs Hu].
      destruct (index (serverClient.streamTracks c) id) as [t|] eqn:Ht; [|done].
      exists cp, c, t. repeat split; try done; try apply Hs.
      injection Hd as <-. by destruct flow.
    - intros (cp & c & t & Hc & Hs & Hu & Ht & ->). exists cp, c.
      split; [by eapply range_order_elem|]. split; [done|].
      unfold datagram_for. rewrite decide_True by done. rewrite Ht. by destruct flow. }
  split.
  { intros flow' Hne. unfold fan_out, endpoint.
    destruct flow, flow'; try done; simpl; apply push_nil. }
  split.
  { intros cp c Hc. exists (deliver path id flow frame c). split.
    - unfold fan_out. simpl. rewrite map_lookup_imap, Hc. simpl.
      rewrite decide_True; [done|]. by eapply range_order_elem.
    - done. }
  split.
  { intros cp Hc. unfold fan_out. simpl. by rewrite map_lookup_imap, Hc. }
  done.
Qed.

Lemma forwardTrack_fans_out_witness :
  range_order (program.clients example_program) [1; 2; 3; 4]%nat /\
  bound example_program "cam1" 0 /\
  room example_program [1; 2; 3; 4]%nat "cam1" 0 _TRACK_FLOW_RTP example_frame /\
  exists p',
    forwardTrack example_program [1; 2; 3; 4]%nat "cam1" 0 _TRACK_FLOW_RTP
      example_frame = Returned p' /\
    queue (serverUdpListener.chanWrite (program.rtpl p'))
    = [mkUdpWrite (mkUDPAddr (ip_10_0_0 Byte.x01) 41000) example_frame].
Proof.
  assert (H1 : range_order (program.clients example_program) [1; 2; 3; 4]%nat).
  { split; [compute_done|by vm_compute]. }
  assert (H2 : bound example_program "cam1" 0).
  { apply bound_map_Forall. compute_done. }
  assert (H3 : room example_program [1; 2; 3; 4]%nat "cam1" 0 _TRACK_FLOW_RTP
                 example_frame).
  { apply room_map_Forall; [vm_compute; lia|compute_done]. }
  split; [done|]. split; [done|]. split; [done|].
  destruct (forwardTrack_fans_out example_program [1; 2; 3; 4]%nat "cam1" 0
              _TRACK_FLOW_RTP example_frame H1 H2 H3)
    as (p' & Hret & Hq & _).
  exists p'. split; [done|]. exact Hq.
Defined.

(** ** Backpressure *)

Section backpressure.
Variables (path : string) (id : Z) (flow : trackFlow) (frame : slice).

(** What one pass of the loop of [forwardTrack] can change. *)
Lemma forwardTrack_body_mutex p cp o :
  forwardTrack_body path id flow frame p cp = o ->
  program.mutex (outcome_state o) = program.mutex p.
Proof.
  intros <-. unfold forwardTrack_body.
  repeat (case_match; simpl; try done).
Qed.

(** A pass for a subscriber whose target queue is full parks. *)
Lemma forwardTrack_body_full p cp c :
  bound p path id ->
  program.clients p !! cp = Some c ->
  subscriber path c ->
  target_full p flow c ->
  exists wp, forwardTrack_body path id flow frame p cp = Blocked p wp /\
             send_point wp.
Proof.
  intros Hb Hc Hs Hfull. unfold forwardTrack_body. rewrite Hc.
  rewrite decide_True by done. unfold target_full in Hfull.
  destruct (decide (serverClient.streamProtocol c = _STREAM_PROTOCOL_UDP)) as [Hu|Hu].
  - destruct (Hb cp c Hc Hs Hu) as [t ->].
    destruct (decide (flow = _TRACK_FLOW_RTP)) as [Hf|Hf].
    + rewrite Hf in Hfull. simpl in Hfull. unfold chan_send.
      rewrite decide_True by done. by exists WaitRtpl.
    + assert (flow = _TRACK_FLOW_RTCP) as Hf' by (by destruct flow).
      rewrite Hf' in Hfull. simpl in Hfull. unfold chan_send.
      rewrite decide_True by done. by exists WaitRtcpl.
  - unfold chan_send. rewrite decide_True by done. by exists (WaitClient cp).
Qed.

(** A pass that returns leaves full what was full, for the other clients. *)
Lemma forwardTrack_body_returned p cp p1 k c :
  forwardTrack_body path id flow frame p cp = Returned p1 ->
  bound p path id ->
  k <> cp ->
  program.clients p !! k = Some c ->
  target_full p flow c ->
  bound p1 path id /\ program.clients p1 !! k = Some c /\ target_full p1 flow c.
Proof.
  intros Hret Hb Hne Hk Hfull. unfold forwardTrack_body in Hret.
  destruct (program.clients p !! cp) as [c0|] eqn:Hc0; [|by simplify_eq].
  case_decide as Hs; [|by simplify_eq].
  case_decide as Hu.
  - destruct (Hb cp c0 Hc0 Hs Hu) as [t Ht]. rewrite Ht in Hret.
    case_decide as Hf.
    + unfold chan_send in Hret. case_decide as Hfl; [done|]. simplify_eq.
      split; [done|]. split; [done|].
      unfold target_full in *. case_decide; [|done].
      simpl in *. done.
    + assert (flow = _TRACK_FLOW_RTCP) as Hf' by (by destruct flow).
      unfold chan_send in Hret. case_decide as Hfl; [done|]. simplify_eq.
      split; [done|]. split; [done|].
      unfold target_full in *. case_decide; [|done].
      simpl in *. done.
  - unfold chan_send in Hret. case_decide as Hfl; [done|]. simplify_eq.
    split; [by apply bound_set_client|]. split.
    + unfold set_client_chanWrite. simpl. by rewrite lookup_insert_ne.
    + unfold target_full in *. by destruct flow.
Qed.

Lemma forwardTrack_range_full order :
  forall p cp c,
    bound p path id ->
    cp ∈ order ->
    program.clients p !! cp = Some c ->
    subscriber path c ->
    target_full p flow c ->
    exists p' wp, forwardTrack_range order path id flow frame p = Blocked p' wp /\
                  send_point wp /\
                  program.mutex p' = program.mutex p.
Proof.
  induction order as [|k rest IH]; intros p cp c Hb Hin Hc Hs Hfull.
  - by apply elem_of_nil in Hin.
  - simpl. destruct (decide (cp = k)) as [->|Hne].
    + destruct (forwardTrack_body_full p k c Hb Hc Hs Hfull) as (wp & -> & Hwp).
      simpl. by exists p, wp.
    + apply elem_of_cons in Hin as [?|Hin]; [done|].
      destruct (forwardTrack_body path id flow frame p k) as [p1|p1 wp|p1] eqn:Hbody.
      * simpl.
        destruct (forwardTrack_body_returned p k p1 cp c Hbody Hb Hne Hc Hfull)
          as (Hb1 & Hc1 & Hfull1).
        destruct (IH p1 cp c Hb1 Hin Hc1 Hs Hfull1) as (p' & wp & Hr & Hwp & Hm).
        exists p', wp. split; [done|]. split; [done|].
        rewrite Hm. by apply (forwardTrack_body_mutex p k (Returned p1)).
      * simpl. exists p1, wp. split; [done|].
        split; [|by apply (forwardTrack_body_mutex p k (Blocked p1 wp))].
        unfold forwardTrack_body in Hbody.
        repeat (case_match; simplify_eq; try done).
      * exfalso. unfold forwardTrack_body in Hbody.
        destruct (program.clients p !! k) as [c0|] eqn:Hc0; [|done].
        case_decide as Hs0; [|done]. case_decide as Hu0.
        -- destruct (Hb k c0 Hc0 Hs0 Hu0) as [t Ht]. rewrite Ht in Hbody.
           repeat (case_match; simplify_eq; try done).
        -- repeat (case_match; simplify_eq; try done).
Qed.

End backpressure.




(** ** The run loop of the upstream UDP listener *)

#[local] Opaque udp_buffer_size.

Lemma fresh_array_not_in (st : gmap ptr bytes) : fresh (dom st) ∉ dom st.
Proof. apply is_fresh. Qed.

Lemma from_publisher_filter l src :
  negb (IP_Equal (streamUdpListener.publisherIp l) (addr_IP src))
  || bool_decide (addr_Port src <> streamUdpListener.publisherPort l)
  = negb (from_publisher l src).
Proof.
  unfold from_publisher.
  destruct (IP_Equal _ _); simpl; [|done].
  apply bool_decide_not.
Qed.

Lemma read_into_bytes (b payload : bytes) :
  let n := Nat.min (length payload) (length b) in
  take n (take n payload ++ drop n b) = take (length b) payload /\
  length (take n payload ++ drop n b) = length b.
Proof.
  intros n. split.
  - rewrite take_app_le by (rewrite length_take; lia).
    rewrite take_take. rewrite Nat.min_id.
    unfold n. destruct (decide (length payload <= length b)%nat).
    + rewrite Nat.min_l by done. rewrite !take_ge; [done|lia|lia].
    + by rewrite Nat.min_r by lia.
  - rewrite length_app, length_take, length_drop. lia.
Qed.

Lemma RUnlock_RLock m m' :
  RLock m = Some m' -> RUnlock m' = m /\ readers m' = S (readers m).
Proof.
  unfold RLock, RUnlock. destruct m as [r [|]]; simpl; [done|].
  intros [= <-]. done.
Qed.

(** What one pass of the loop does with a datagram. *)
Lemma run_forwards_publisher_datagram_spec (w : world) (payload : bytes)
    (src : UDPAddr) (order : list ptr) (now : Z) :
  buffers_ok w ->
  let l := listener w in
  let a := fresh (dom (arrays w)) in
  let n := Nat.min (length payload) udp_buffer_size in
  let r := run_iteration w (ReadOk payload src) order now in
  let w' := result_world r in
  arrays w !! a = None /\
  (forall call, call ∈ forwarded w -> array (call_frame call) <> a) /\
  (exists b, arrays w' !! a = Some b /\ length b = udp_buffer_size /\
             take n b = take n payload) /\
  (forall a', a' <> a -> arrays w' !! a' = arrays w !! a') /\
  buffers_ok w' /\
  (from_publisher l src = false ->
     r = Next w' /\ prog w' = prog w /\ forwarded w' = forwarded w /\
     listener w' = l) /\
  (from_publisher l src = true ->
   writer (program.mutex (prog w)) = false ->
     forwarded w'
     = forwarded w
       ++ [mkForwardCall (streamUdpListener.path l) (streamUdpListener.trackId l)
             (streamUdpListener.flow l) (mkSlice a n)] /\
     slice_bytes (arrays w') (mkSlice a n) = Some (take n payload) /\
     (range_order (program.clients (prog w)) order ->
      bound (prog w) (streamUdpListener.path l) (streamUdpListener.trackId l) ->
      room (prog w) order (streamUdpListener.path l) (streamUdpListener.trackId l)
           (streamUdpListener.flow l) (mkSlice a n) ->
      streamUdpListener.mutex l = false ->
        r = Next w' /\
        prog w' = fan_out (prog w) order (streamUdpListener.path l)
                    (streamUdpListener.trackId l) (streamUdpListener.flow l)
                    (mkSlice a n))).
Proof.
  intros [Hin Hnd] l a n r w'.
  assert (Ha : arrays w !! a = None).
  { apply not_elem_of_dom. apply fresh_array_not_in. }
  assert (Hold : forall call, call ∈ forwarded w -> array (call_frame call) <> a).
  { intros call Hc Heq. apply Hin in Hc. rewrite Heq in Hc.
    by apply fresh_array_not_in in Hc. }
  destruct (read_into_bytes (replicate udp_buffer_size Byte.x00) payload)
    as [Htake Hlen].
  rewrite length_replicate in Htake, Hlen. fold n in Htake, Hlen.
  set (b := take n payload ++ drop n (replicate udp_buffer_size Byte.x00))
    in Htake, Hlen.
  set (st2 := <[a := b]> (<[a := replicate udp_buffer_size Byte.x00]> (arrays w))).
  assert (Hst : arrays w' = st2).
  { unfold w', r, run_iteration. simpl. unfold read_into.
    rewrite length_replicate. fold n. fold a. fold b. fold st2.
    rewrite from_publisher_filter.
    destruct (from_publisher (listener w) src); simpl; [|done].
    destruct (RLock _); [|done].
    destruct (forwardTrack _ _ _ _ _ _); simpl; [|done..].
    by destruct (streamUdpListener.mutex (listener w)). }
  assert (Hfw : forwarded w' = forwarded w \/
                forwarded w' = forwarded w
                  ++ [mkForwardCall (streamUdpListener.path l)
                        (streamUdpListener.trackId l)
                        (streamUdpListener.flow l) (mkSlice a n)]).
  { unfold w', r, run_iteration. simpl. unfold read_into.
    rewrite length_replicate. fold n. fold a.
    rewrite from_publisher_filter.
    destruct (from_publisher (listener w) src); simpl; [|by left].
    destruct (RLock _); [|by left].
    destruct (forwardTrack _ _ _ _ _ _); simpl; [|by right..].
    destruct (streamUdpListener.mutex (listener w)); by right. }
  assert (Htn : take n b = take n payload).
  { rewrite Htake. unfold n. destruct (decide (length payload <= udp_buffer_size)%nat).
    - rewrite Nat.min_l by done. rewrite !take_ge; [done|lia|lia].
    - by rewrite Nat.min_r by lia. }
  split; [done|]. split; [done|]. split.
  { exists b. rewrite Hst. unfold st2. by rewrite lookup_insert_eq. }
  split.
  { intros a' Hne. rewrite Hst. unfold st2. by rewrite !lookup_insert_ne. }
  split.
  { split.
    - intros call Hc. rewrite Hst. unfold st2. rewrite !dom_insert_L.
      destruct Hfw as [Hfw|Hfw]; rewrite Hfw in Hc.
      + apply Hin in Hc. set_solver.
      + apply elem_of_app in Hc as [Hc|Hc]; [apply Hin in Hc; set_solver|].
        apply list_elem_of_singleton in Hc. subst call. simpl. set_solver.
    - destruct Hfw as [Hfw|Hfw]; rewrite Hfw; [done|].
      rewrite map_app. simpl. apply NoDup_app. split; [done|]. split.
      + intros x Hx Hx'. apply list_elem_of_singleton in Hx'. subst x.
        apply list_elem_of_fmap in Hx as (call & Heq & Hc).
        by apply (Hold call Hc).
      + apply NoDup_singleton. }
  split.
  { intros Hpub. unfold w', r, run_iteration. simpl. unfold read_into.
    rewrite from_publisher_filter. fold l. rewrite Hpub. simpl. done. }
  intros Hpub Hw.
  assert (Hcall : forwarded w'
                  = forwarded w
                    ++ [mkForwardCall (streamUdpListener.path l)
                          (streamUdpListener.trackId l)
                          (streamUdpListener.flow l) (mkSlice a n)]).
  { unfold w', r, run_iteration. simpl. unfold read_into.
    rewrite length_replicate. fold n. fold a.
    rewrite from_publisher_filter. fold l. rewrite Hpub. simpl.
    unfold RLock. rewrite Hw.
    destruct (forwardTrack _ _ _ _ _ _); simpl; [|done..].
    by destruct (streamUdpListener.mutex l). }
  split; [done|]. split.
  { rewrite Hst. unfold slice_bytes, st2. simpl. rewrite lookup_insert_eq. simpl.
    by rewrite Htn. }
  intros Hord Hb Hroom Hmx.
  assert (Hr : r = Next (mkWorld (set_lastFrameTime l now)
                           (fan_out (prog w) order (streamUdpListener.path l)
                              (streamUdpListener.trackId l)
                              (streamUdpListener.flow l) (mkSlice a n))
                           st2
                           (forwarded w
                            ++ [mkForwardCall (streamUdpListener.path l)
                                  (streamUdpListener.trackId l)
                                  (streamUdpListener.flow l) (mkSlice a n)]))).
  { unfold r, run_iteration. simpl. unfold read_into.
    rewrite length_replicate. fold n. fold a. fold b. fold st2.
    rewrite from_publisher_filter. fold l. rewrite Hpub. simpl.
    unfold RLock. rewrite Hw.
    unfold forwardTrack.
    rewrite (forwardTrack_range_fan_out (streamUdpListener.path l)
               (streamUdpListener.trackId l) (streamUdpListener.flow l)
               (mkSlice a n) order); [|apply Hord|exact Hb|exact Hroom].
    rewrite Hmx. do 2 f_equal.
    unfold fan_out, set_mutex, RUnlock. simpl. f_equal.
    destruct (program.mutex (prog w)) as [rd wr]. simpl in *. by subst wr. }
  unfold w'. rewrite Hr. done.
Qed.

(** C5: for every datagram received by the read loop of the upstream UDP
    listener, the datagram is read into a new array of 2048 bytes, distinct
    from the buffer of every call of [forwardTrack] made before. When the
    source IP or the source port differs from the publisher's, nothing is
    forwarded and the program is left as it was. Otherwise [forwardTrack] is
    called once, with the path, the track id and the flow of the listener and
    with a slice holding exactly the [n] bytes received; when the bindings
    exist and the queues have room, the fan-out of that slice is what the
    pass leaves. Arrays allocated before are not written. *)
Theorem run_forwards_publisher_datagram (w : world) (payload : bytes)
    (src : UDPAddr) (order : list ptr) (now : Z) :
  buffers_ok w ->
  let l := listener w in
  let a := fresh (dom (arrays w)) in
  let n := Nat.min (length payload) udp_buffer_size in
  let r := run_iteration w (ReadOk payload src) order now in
  let w' := result_world r in
  arrays w !! a = None /\
  (forall call, call ∈ forwarded w -> array (call_frame call) <> a) /\
  (exists b, arrays w' !! a = Some b /\ length b = udp_buffer_size /\
             take n b = take n payload) /\
  (forall a', a' <> a -> arrays w' !! a' = arrays w !! a') /\
  buffers_ok w' /\
  (from_publisher l src = false ->
     r = Next w' /\ prog w' = prog w /\ forwarded w' = forwarded w /\
     listener w' = l) /\
  (from_publisher l src = true ->
   writer (program.mutex (prog w)) = false ->
     forwarded w'
     = forwarded w
       ++ [mkForwardCall (streamUdpListener.path l) (streamUdpListener.trackId l)
             (streamUdpListener.flow l) (mkSlice a n)] /\
     slice_bytes (arrays w') (mkSlice a n) = Some (take n payload) /\
     (range_order (program.clients (prog w)) order ->
      bound (prog w) (streamUdpListener.path l) (streamUdpListener.trackId l) ->
      room (prog w) order (streamUdpListener.path l) (streamUdpListener.trackId l)
           (streamUdpListener.flow l) (mkSlice a n) ->
      streamUdpListener.mutex l = false ->
        r = Next w' /\
        prog w' = fan_out (prog w) order (streamUdpListener.path l)
                    (streamUdpListener.trackId l) (streamUdpListener.flow l)
                    (mkSlice a n))).
Proof. exact (run_forwards_publisher_datagram_spec w payload src order now). Qed.

Lemma run_forwards_publisher_datagram_witness :
  buffers_ok (example_world example_program) /\
  slice_bytes
    (arrays (result_world
               (run_iteration (example_world example_program)
                  (ReadOk [Byte.xaa; Byte.xbb] publisher_addr)
                  [1; 2; 3; 4]%nat 0)))
    (mkSlice (fresh (dom (arrays (example_world example_program)))) 2)
  = Some [Byte.xaa; Byte.xbb].
Proof.
  assert (Hok : buffers_ok (example_world example_program)).
  { split; [intros call Hc; by apply elem_of_nil in Hc|apply NoDup_nil_2]. }
  split; [done|].
  destruct (run_forwards_publisher_datagram (example_world example_program)
              [Byte.xaa; Byte.xbb] publisher_addr [1; 2; 3; 4]%nat 0 Hok)
    as (_ & _ & _ & _ & _ & _ & Hpub).
  destruct Hpub as (_ & Hbytes & _); [by vm_compute|done|].
  exact Hbytes.
Defined.

(** A pass that ends on a read error allocates its buffer and forwards
    nothing. *)
Lemma run_iteration_ReadErr w order now :
  run_iteration w ReadErr order now
  = Stop (Blocked (mkWorld (listener w) (prog w)
                     (<[fresh (dom (arrays w)) := replicate udp_buffer_size Byte.x00]>
                        (arrays w))
                     (forwarded w))
            WaitChanDone).
Proof. reflexivity. Qed.

Lemma run_iteration_buffers_ok w rd order now :
  buffers_ok w -> buffers_ok (result_world (run_iteration w rd order now)).
Proof.
  intros Hok. destruct rd as [payload src|].
  - by destruct (run_forwards_publisher_datagram_spec w payload src order now Hok)
      as (_ & _ & _ & _ & ? & _).
  - rewrite run_iteration_ReadErr. simpl. destruct Hok as [Hin Hnd].
    split; [|done]. simpl. intros call Hc. rewrite dom_insert_L.
    apply Hin in Hc. set_solver.
Qed.

(** Along the whole loop no two calls of [forwardTrack] share a buffer. *)
Lemma run_loop_buffers_ok inputs :
  forall w, buffers_ok w -> buffers_ok (result_world (run_loop inputs w)).
Proof.
  induction inputs as [|i rest IH]; intros w Hok; [done|]. simpl.
  pose proof (run_iteration_buffers_ok w (in_read i) (in_order i) (in_now i) Hok)
    as Hstep.
  destruct (run_iteration w (in_read i) (in_order i) (in_now i)) as [w'|o];
    [by apply IH|done].
Qed.

(** ** The supervisor *)

Section supervisor_facts.
Variables (ttl : Z) (now : nat -> Z).

Lemma stamp_range_other clients order k last path :
  (forall cp c, cp ∈ order -> clients !! cp = Some c -> serverClient.path c <> path) ->
  stamp_range clients order now k last !! path = last !! path.
Proof.
  revert k last. induction order as [|cp rest IH]; intros k last Hno; [done|].
  simpl. destruct (clients !! cp) as [c|] eqn:Hc.
  - rewrite IH.
    + rewrite lookup_insert_ne; [done|]. apply (Hno cp c); [apply list_elem_of_here|done].
    + intros cp' c' Hin. apply Hno. by apply list_elem_of_further.
  - apply IH. intros cp' c' Hin. apply Hno. by apply list_elem_of_further.
Qed.

Lemma stamp_range_lookup clients order k last path :
  (exists i, (k <= i < k + length order)%nat /\
             stamp_range clients order now k last !! path = Some (now i)) \/
  (stamp_range clients order now k last !! path = last !! path /\
   forall cp c, cp ∈ order -> clients !! cp = Some c -> serverClient.path c <> path).
Proof.
  revert k last. induction order as [|cp0 rest IH]; intros k last.
  - right. split; [done|]. intros cp c Hin. by apply elem_of_nil in Hin.
  - simpl. destruct (clients !! cp0) as [c0|] eqn:Hc0.
    + destruct (IH (S k) (<[serverClient.path c0 := now k]> last))
        as [(i & Hi & Hs)|[Hs Hno]].
      * left. exists i. split; [lia|done].
      * destruct (decide (serverClient.path c0 = path)) as [Hp|Hp].
        -- left. exists k. split; [lia|]. rewrite Hs, Hp. by rewrite lookup_insert_eq.
        -- right. split; [by rewrite Hs, lookup_insert_ne|].
           intros cp c Hin Hc. apply elem_of_cons in Hin as [->|Hin].
           ++ by assert (c = c0) as -> by congruence.
           ++ by apply (Hno cp c).
    + destruct (IH (S k) last) as [(i & Hi & Hs)|[Hs Hno]].
      * left. exists i. split; [lia|done].
      * right. split; [done|].
        intros cp c Hin Hc. apply elem_of_cons in Hin as [->|Hin]; [congruence|].
        by apply (Hno cp c).
Qed.

Lemma stamp_range_client clients order k last cp c :
  cp ∈ order -> clients !! cp = Some c ->
  exists i, (k <= i < k + length order)%nat /\
            stamp_range clients order now k last !! serverClient.path c
            = Some (now i).
Proof.
  intros Hin Hc.
  destruct (stamp_range_lookup clients order k last (serverClient.path c))
    as [H|[_ Hno]]; [done|].
  by destruct (Hno cp c Hin Hc).
Qed.

Lemma sweep_body_due t s path :
  streams_open (sup_streams s) ->
  due ttl t (streamsClientLastTime s) (sup_streams s) path ->
  sweep_body ttl t s path
  = Returned (mkSupervisor
                (set_streams (sup_prog s) (delete path (sup_streams s)))
                (delete path (streamsClientLastTime s))
                (sup_events s ++ sweep_events path)).
Proof.
  intros Hopen (lt & st & Hl & Hexp & Hst). unfold sweep_body.
  rewrite Hl. rewrite decide_True by done.
  unfold sup_streams in Hst. rewrite Hst.
  by rewrite (Hopen path st Hst).
Qed.

Lemma sweep_body_not_due t s path :
  streams_open (sup_streams s) ->
  ~ due ttl t (streamsClientLastTime s) (sup_streams s) path ->
  sweep_body ttl t s path = Returned s.
Proof.
  intros Hopen Hnd. unfold sweep_body.
  destruct (streamsClientLastTime s !! path) as [lt|] eqn:Hl; [|done].
  case_decide as Hexp; [|done].
  destruct (program.streams (sup_prog s) !! path) as [st|] eqn:Hst; [|done].
  exfalso. apply Hnd. by exists lt, st.
Qed.

Lemma streams_open_delete streams path :
  streams_open streams -> streams_open (delete path streams).
Proof.
  intros Hopen q st Hq. apply lookup_delete_Some in Hq as [_ Hq]. by apply (Hopen q).
Qed.

Lemma due_ext t last1 streams1 last2 streams2 path :
  last1 !! path = last2 !! path ->
  streams1 !! path = streams2 !! path ->
  due ttl t last1 streams1 path <-> due ttl t last2 streams2 path.
Proof. intros Hl Hs. unfold due. rewrite Hl, Hs. done. Qed.

(** One pass of the sweep: it returns, and touches the entry at hand only. *)
Lemma sweep_body_spec t s path :
  streams_open (sup_streams s) ->
  exists s1,
    sweep_body ttl t s path = Returned s1 /\
    sup_prog s1 = set_streams (sup_prog s) (sup_streams s1) /\
    streams_open (sup_streams s1) /\
    (forall q, q <> path ->
       sup_streams s1 !! q = sup_streams s !! q /\
       streamsClientLastTime s1 !! q = streamsClientLastTime s !! q) /\
    (due ttl t (streamsClientLastTime s) (sup_streams s) path ->
       sup_streams s1 !! path = None /\
       streamsClientLastTime s1 !! path = None /\
       sup_events s1 = sup_events s ++ sweep_events path) /\
    (~ due ttl t (streamsClientLastTime s) (sup_streams s) path -> s1 = s).
Proof.
  intros Hopen.
  assert (Hid : sup_prog s = set_streams (sup_prog s) (sup_streams s)).
  { unfold set_streams, sup_streams. by destruct (sup_prog s). }
  assert (Hsame : ~ due ttl t (streamsClientLastTime s) (sup_streams s) path ->
                  exists s1, sweep_body ttl t s path = Returned s1 /\
                    sup_prog s1 = set_streams (sup_prog s) (sup_streams s1) /\
                    streams_open (sup_streams s1) /\
                    (forall q, q <> path ->
                       sup_streams s1 !! q = sup_streams s !! q /\
                       streamsClientLastTime s1 !! q = streamsClientLastTime s !! q) /\
                    (due ttl t (streamsClientLastTime s) (sup_streams s) path ->
                       sup_streams s1 !! path = None /\
                       streamsClientLastTime s1 !! path = None /\
                       sup_events s1 = sup_events s ++ sweep_events path) /\
                    (~ due ttl t (streamsClientLastTime s) (sup_streams s) path ->
                       s1 = s)).
  { intros Hnd. exists s. split; [by apply sweep_body_not_due|].
    split; [done|]. split; [done|]. split; [done|]. split; [done|]. done. }
  destruct (streamsClientLastTime s !! path) as [lt|] eqn:Hl.
  2:{ apply Hsame. intros (? & ? & ? & _). congruence. }
  destruct (decide (t - lt >= ttl)) as [Hexp|Hexp].
  2:{ apply Hsame. intros (lt' & ? & ? & ? & _).
      assert (lt' = lt) as -> by congruence. done. }
  destruct (sup_streams s !! path) as [st|] eqn:Hst.
  2:{ apply Hsame. intros (? & ? & _ & _ & ?). congruence. }
  assert (Hdue : due ttl t (streamsClientLastTime s) (sup_streams s) path)
    by (by exists lt, st).
  eexists. split; [by apply sweep_body_due|].
  unfold sup_streams. simpl.
  split; [done|]. split; [by apply streams_open_delete|]. split.
  { intros q Hne. by rewrite !lookup_delete_ne. }
  split.
  { intros _. by rewrite !lookup_delete_eq. }
  intros Hnd. by destruct Hnd.
Qed.

(** The sweep: it returns; an entry that is due when its turn comes loses
    its stream and itself, the stop signalled before the deletion; every
    other entry and every stream without an entry stays. *)
Lemma sweep_range_spec order :
  forall k s,
    NoDup order ->
    streams_open (sup_streams s) ->
    exists s' evs,
      sweep_range ttl order now k s = Returned s' /\
      sup_prog s' = set_streams (sup_prog s) (sup_streams s') /\
      streams_open (sup_streams s') /\
      sup_events s' = sup_events s ++ evs /\
      (forall path, path ∉ order ->
         sup_streams s' !! path = sup_streams s !! path /\
         streamsClientLastTime s' !! path = streamsClientLastTime s !! path) /\
      (forall j path, order !! j = Some path ->
         (due ttl (now (k + j)%nat) (streamsClientLastTime s) (sup_streams s) path ->
            sup_streams s' !! path = None /\
            streamsClientLastTime s' !! path = None /\
            exists pre post, evs = pre ++ sweep_events path ++ post) /\
         (~ due ttl (now (k + j)%nat) (streamsClientLastTime s) (sup_streams s) path ->
            sup_streams s' !! path = sup_streams s !! path /\
            streamsClientLastTime s' !! path = streamsClientLastTime s !! path)).
Proof.
  induction order as [|p0 rest IH]; intros k s Hnd Hopen.
  - exists s, []. simpl. split; [done|]. split.
    { unfold set_streams, sup_streams. by destruct (sup_prog s). }
    split; [done|]. split; [by rewrite app_nil_r|]. split; [done|].
    intros j path Hj. done.
  - apply NoDup_cons in Hnd as [Hnotin Hnd]. simpl.
    destruct (sweep_body_spec (now k) s p0 Hopen)
      as (s1 & Hbody & Hprog1 & Hopen1 & Hother1 & Hdue1 & Hnot1).
    rewrite Hbody. simpl.
    destruct (IH (S k) s1 Hnd Hopen1)
      as (s' & evs & Hrange & Hprog & Hopen' & Hevs & Hother & Hat).
    assert (Hev1 : exists e1, sup_events s1 = sup_events s ++ e1 /\
              (due ttl (now k) (streamsClientLastTime s) (sup_streams s) p0 ->
               e1 = sweep_events p0)).
    { destruct (sup_streams s !! p0) as [st|] eqn:Hst;
        destruct (streamsClientLastTime s !! p0) as [lt|] eqn:Hl;
        try (exists []; rewrite app_nil_r; split;
             [rewrite Hnot1; [done|]; intros (? & ? & ? & _ & ?); congruence
             |intros (? & ? & ? & _ & ?); congruence]).
      destruct (decide (now k - lt >= ttl)) as [Hexp|Hexp].
      - exists (sweep_events p0). split; [|done].
        apply Hdue1. by exists lt, st.
      - exists []. rewrite app_nil_r. split.
        + rewrite Hnot1; [done|]. intros (lt' & ? & ? & ? & _).
          assert (lt' = lt) as -> by congruence. done.
        + intros (lt' & ? & ? & ? & _).
          assert (lt' = lt) as -> by congruence. done. }
    destruct Hev1 as (e1 & Hev1 & He1).
    exists s', (e1 ++ evs). split; [done|]. split.
    { rewrite Hprog, Hprog1. unfold set_streams. simpl. done. }
    split; [done|]. split.
    { by rewrite Hevs, Hev1, app_assoc. }
    split.
    { intros path Hpath. apply not_elem_of_cons in Hpath as [Hne Hpath].
      destruct (Hother path Hpath) as [-> ->]. by apply Hother1. }
    intros j path Hj. destruct j as [|j]; simpl in Hj.
    + injection Hj as ->. rewrite Nat.add_0_r.
      destruct (Hother path Hnotin) as [Hs' Hl']. rewrite Hs', Hl'. split.
      * intros Hdue. destruct (Hdue1 Hdue) as (? & ? & ?).
        split; [done|]. split; [done|].
        exists [], evs. by rewrite (He1 Hdue).
      * intros Hnd'. by rewrite (Hnot1 Hnd').
    + assert (Hne : path <> p0).
      { intros ->. apply Hnotin. by eapply list_elem_of_lookup_2. }
      destruct (Hother1 path Hne) as [Hs1 Hl1].
      destruct (Hat j path Hj) as [Hd Hn].
      replace (k + S j)%nat with (S k + j)%nat by lia.
      split.
      * intros Hdue.
        destruct Hd as (? & ? & pre & post & ->).
        { by apply (due_ext (now (S k + j)%nat) _ _ _ _ path Hl1 Hs1). }
        split; [done|]. split; [done|].
        exists (e1 ++ pre), post. by rewrite <- app_assoc.
      * intros Hnd'. rewrite <- Hs1, <- Hl1. apply Hn.
        intros Hdue. apply Hnd'.
        by apply (due_ext (now (S k + j)%nat) _ _ _ _ path Hl1 Hs1).
Qed.

End supervisor_facts.

(** What a tick does, from a state in which the lock is free and the stop
    channels of the streams in the map are open. *)
Lemma tick_spec (s : supervisor) (order1 : list ptr)
    (order2 : list string) (now : nat -> Z) :
  range_order (program.clients (sup_prog s)) order1 ->
  range_order (stamped s order1 now) order2 ->
  streams_open (sup_streams s) ->
  program.mutex (sup_prog s) = mkRWMutex 0 false ->
  let ttl := StreamTTL (program.conf (sup_prog s)) in
  exists s' evs,
    tick s order1 order2 now = Returned s' /\
    sup_events s' = sup_events s ++ evs /\
    sup_prog s' = set_streams (sup_prog s) (sup_streams s') /\
    (forall cp c, program.clients (sup_prog s) !! cp = Some c ->
       exists i, (i < length order1)%nat /\
                 stamped s order1 now !! serverClient.path c = Some (now i)) /\
    (forall path t, stamped s order1 now !! path = Some t ->
       exists j, order2 !! j = Some path /\
         let read := now (length order1 + j)%nat in
         (read - t >= ttl -> is_Some (sup_streams s !! path) ->
            sup_streams s' !! path = None /\
            streamsClientLastTime s' !! path = None /\
            exists pre post,
              evs = pre ++ [EvLog path; EvStop path; EvDeleteStream path;
                            EvDeleteLastTime path] ++ post) /\
         (~ (read - t >= ttl /\ is_Some (sup_streams s !! path)) ->
            sup_streams s' !! path = sup_streams s !! path /\
            streamsClientLastTime s' !! path = Some t)) /\
    (forall path, stamped s order1 now !! path = None ->
       sup_streams s' !! path = sup_streams s !! path /\
       streamsClientLastTime s' !! path = None) /\
    streams_open (sup_streams s').
Proof.
  intros Hord1 Hord2 Hopen Hmx ttl. unfold tick. rewrite Hmx. simpl.
  set (s1 := mkSupervisor _ (stamped s order1 now) (sup_events s)).
  destruct (sweep_range_spec ttl now order2 (length order1) s1)
    as (s2 & evs & Hrange & Hprog & Hopen2 & Hevs & Hother & Hat);
    [apply Hord2|done|].
  fold ttl. rewrite Hrange. eexists _, evs. split; [done|]. simpl.
  split; [done|]. split.
  { rewrite Hprog. unfold set_streams, set_mutex, Unlock, sup_streams. simpl.
    rewrite Hprog. simpl. destruct (sup_prog s). simpl in *. by subst. }
  assert (Hstr : sup_streams
                   {| sup_prog := set_mutex (sup_prog s2)
                                    (Unlock (program.mutex (sup_prog s2)));
                      streamsClientLastTime := streamsClientLastTime s2;
                      sup_events := sup_events s2 |} = sup_streams s2) by done.
  rewrite Hstr. split.
  { intros cp c Hc.
    destruct (stamp_range_client now (program.clients (sup_prog s)) order1 0
                (streamsClientLastTime s) cp c) as (i & Hi & Hs);
      [by eapply range_order_elem|done|].
    exists i. split; [lia|done]. }
  split.
  { intros path t Ht.
    assert (Hin : path ∈ order2) by (by eapply range_order_elem).
    apply list_elem_of_lookup in Hin as [j Hj]. exists j. split; [done|].
    destruct (Hat j path Hj) as [Hd Hn]. simpl. split.
    - intros Hexp [st Hst]. apply Hd. by exists t, st.
    - intros Hnot. destruct Hn as [Hs Hl].
      + intros (t' & st & Ht' & Hexp & Hst). apply Hnot.
        simpl in Ht'. assert (t' = t) as -> by congruence.
        split; [done|]. by exists st.
      + split; [done|]. by rewrite Hl. }
  split; [|done].
  intros path Hnone. destruct (Hother path) as [Hs Hl].
  { intros Hin. destruct (range_order_lookup _ _ _ Hord2 Hin) as [t Ht]. congruence. }
  split; [done|]. by rewrite Hl.
Qed.



Lemma streams_open_map_Forall streams :
  map_Forall (fun (_ : string) st => stream.stop st = false) streams ->
  streams_open streams.
Proof. intros H path st Hst. exact (map_Forall_lookup_1 _ _ _ _ H Hst). Qed.


(** ** The supervisor among the other tasks *)

(** In every reachable state the lock is free between two steps and the stop
    channels of the streams in the map are open. *)
Lemma sys_step_invariant s s' :
  sys_step s s' ->
  streams_open (sys_streams s) /\
  program.mutex (sup_prog (sys_sup s)) = mkRWMutex 0 false ->
  streams_open (sys_streams s') /\
  program.mutex (sup_prog (sys_sup s')) = mkRWMutex 0 false.
Proof.
  intros Hstep [Hopen Hmx]. destruct Hstep; simpl; try done.
  - split; [|done]. unfold sys_streams. simpl.
    intros q st Hq. apply lookup_insert_Some in Hq as [[_ <-]|[_ Hq]]; [done|].
    by apply (Hopen q).
  - split; [|done]. unfold sys_streams. simpl. by apply streams_open_delete.
  - destruct (tick_spec (sys_sup s) order1 order2 now)
      as (s2 & evs & Hret & _ & Hprog & _ & _ & _ & Hopen2); try done.
    assert (s' = s2) as -> by congruence.
    split; [done|]. rewrite Hprog. done.
Qed.

Lemma reachable_invariant s :
  reachable s ->
  streams_open (sys_streams s) /\
  program.mutex (sup_prog (sys_sup s)) = mkRWMutex 0 false.
Proof.
  intros (s0 & (Hc & Hs & Hl & Hm) & Hrtc).
  revert s Hrtc. apply rtc_ind_r.
  - split; [|done]. rewrite Hs. intros q st Hq. by rewrite lookup_empty in Hq.
  - intros s1 s2 _ Hstep IH. by apply (sys_step_invariant s1 s2).
Qed.

Lemma sys_stale_reachable : reachable sys_stale.
Proof.
  exists sys_start. split; [by repeat split|].
  eapply rtc_l; [apply (step_new_stream sys_start "cam1"); done|].
  eapply rtc_l; [apply (step_client _ 1%nat client_udp)|].
  eapply rtc_l; [apply (step_disconnect _ 1%nat)|].
  eapply rtc_l; [apply (step_time _ (20 * time_Second)); by vm_compute|].
  eapply rtc_l.
  { apply (step_tick _ [] [] at_20s
             (mkSupervisor
                (example_program_with ∅ (<["cam1" := stream.mk false 0]> ∅)) ∅ [])).
    - split; [apply NoDup_nil_2|by vm_compute].
    - split; [apply NoDup_nil_2|by vm_compute].
    - intros i j _. done.
    - by vm_compute.
    - by vm_compute. }
  apply rtc_refl.
Qed.

(** Against C3. The invariant of the spec fails on the code: [sys_stale] is
    reached by creating the stream [cam1] at time 0, connecting and disconnecting a
    client before the first tick, and ticking at 20 s. The stream is in the
    map, its stop channel is open, and it is 20 s old with a TTL of 10 s. *)
Lemma ttl_invariant_counterexample :
  reachable sys_stale /\
  sys_streams sys_stale !! "cam1" = Some (stream.mk false 0) /\
  sys_clock sys_stale - last_active sys_stale "cam1" (stream.mk false 0)
  >= sys_ttl sys_stale /\
  ~ ttl_invariant sys_stale.
Proof.
  split; [apply sys_stale_reachable|]. split; [by vm_compute|].
  split; [by vm_compute|].
  intros H. destruct (H "cam1" (stream.mk false 0)) as [Hlt|Hstop].
  - by vm_compute.
  - by vm_compute in Hlt.
  - done.
Qed.

(** C3, amended: a tick taken from a reachable state returns, and after it
    every stream still in the streams map whose path has an entry in the map
    of last times was less than [StreamTTL] past that entry when the sweep
    read the clock for it; the creation time of a stream is not consulted,
    and a stream whose path has no entry is left in the map; a stream whose
    entry is at least [StreamTTL] old when the sweep reads the clock for it
    is not in the map after the tick. *)
Theorem tick_keeps_seen_streams_fresh (s : sys) (order1 : list ptr)
    (order2 : list string) (now : nat -> Z) :
  reachable s ->
  range_order (sys_clients s) order1 ->
  range_order (stamped (sys_sup s) order1 now) order2 ->
  exists s',
    tick (sys_sup s) order1 order2 now = Returned s' /\
    (forall path st t,
       sup_streams s' !! path = Some st ->
       streamsClientLastTime s' !! path = Some t ->
       exists j, order2 !! j = Some path /\
                 now (length order1 + j)%nat - t < sys_ttl s) /\
    (forall path,
       stamped (sys_sup s) order1 now !! path = None ->
       sup_streams s' !! path = sys_streams s !! path) /\
    (forall path t j,
       stamped (sys_sup s) order1 now !! path = Some t ->
       order2 !! j = Some path ->
       now (length order1 + j)%nat - t >= sys_ttl s ->
       sup_streams s' !! path = None).
Proof.
  intros Hreach Hord1 Hord2.
  destruct (reachable_invariant s Hreach) as [Hopen Hmx].
  destruct (tick_spec (sys_sup s) order1 order2 now Hord1 Hord2 Hopen Hmx)
    as (s' & evs & Hret & _ & _ & _ & Hsweep & Hnone & _).
  exists s'. split; [done|]. split; [|split].
  - intros path st t Hst Ht.
    destruct (stamped (sys_sup s) order1 now !! path) as [t0|] eqn:Ht0.
    2:{ destruct (Hnone path Ht0) as [_ Hl]. congruence. }
    destruct (Hsweep path t0 Ht0) as (j & Hj & Hdue & Hkeep). simpl in *.
    exists j. split; [done|].
    destruct (decide (now (length order1 + j)%nat - t0
                      >= StreamTTL (program.conf (sup_prog (sys_sup s)))))
      as [Hexp|Hexp].
    + destruct (sup_streams (sys_sup s) !! path) as [st0|] eqn:Hst0.
      * destruct Hdue as (Hgone & _); [done|by eexists|]. congruence.
      * destruct Hkeep as [Hs _]; [by intros [_ [? ?]]|]. congruence.
    + destruct Hkeep as [_ Hl]; [by intros [? _]|].
      assert (t = t0) as -> by congruence. unfold sys_ttl. lia.
  - intros path Hp. by destruct (Hnone path Hp).
  - intros path t j Ht Hj Hexp.
    destruct (Hsweep path t Ht) as (j' & Hj' & Hdue & Hkeep). simpl in *.
    assert (j' = j) as ->.
    { destruct Hord2 as [Hnd _]. by eapply NoDup_lookup. }
    destruct (sup_streams (sys_sup s) !! path) as [st0|] eqn:Hst0.
    + by destruct Hdue as (Hgone & _); [done|by eexists|].
    + destruct Hkeep as [Hs _]; [by intros [_ [? ?]]|]. by rewrite Hs.
Qed.

Lemma tick_keeps_seen_streams_fresh_witness :
  reachable sys_stale /\
  exists s',
    tick (sys_sup sys_stale) [] [] at_20s = Returned s' /\
    sup_streams s' !! "cam1" = Some (stream.mk false 0).
Proof.
  split; [apply sys_stale_reachable|].
  destruct (tick_keeps_seen_streams_fresh sys_stale [] [] at_20s)
    as (s' & Hret & _ & Hkept & _).
  - apply sys_stale_reachable.
  - split; [apply NoDup_nil_2|by vm_compute].
  - split; [apply NoDup_nil_2|by vm_compute].
  - exists s'. split; [done|]. rewrite (Hkept "cam1"); by vm_compute.
Defined.

(** ** Bootstrap *)

(** C6 fails on the code: the flag [rtcp-port] names the environment variable
    [RTP_PORT]. With only [RTCP_PORT=9001] set and no flag given, the RTCP
    port of the configuration is the default 8051; with [RTP_PORT=9000] and
    [RTCP_PORT=9001] set, it is 9000, the value of [RTP_PORT], and the
    bootstrap rejects the pair; whatever the environment, [RTCP_PORT] has no
    effect on the text given to the parser of the flag. *)
Theorem rtcp_port_reads_RTP_PORT :
  parse_flags parse_decimal parse_seconds ∅ env_rtcp_only
  = Some (mkConf ["tcp"; "udp"] 8554 8050 8051
            (10 * time_Second) (10 * time_Second)) /\
  parse_flags parse_decimal parse_seconds ∅ env_both_ports
  = Some (mkConf ["tcp"; "udp"] 8554 9000 9000
            (10 * time_Second) (10 * time_Second)) /\
  validate (mkConf ["tcp"; "udp"] 8554 9000 9000
              (10 * time_Second) (10 * time_Second))
  = Err "rtcp port must be rtp port plus 1" /\
  (forall args env v,
     flag_value args (<["RTCP_PORT" := v]> env) flag_rtcp_port
     = flag_value args env flag_rtcp_port) /\
  (forall args env v,
     args !! "rtcp-port" = None -> env !! "RTP_PORT" = Some v -> v <> "" ->
     flag_value args env flag_rtcp_port = v).
Proof.
  split; [by vm_compute|]. split; [by vm_compute|]. split; [by vm_compute|].
  split.
  - intros args env v. unfold flag_value, os_Getenv. simpl.
    by rewrite lookup_insert_ne.
  - intros args env v Ha He Hv. unfold flag_value, os_Getenv. simpl.
    rewrite Ha, He. simpl. by rewrite decide_False.
Qed.

(** The three other variables do override the default of their flag. *)
Lemma envar_overrides_default args env (f : flag) (e v : string) :
  flag_envar f = Some e ->
  args !! flag_name f = None ->
  env !! e = Some v -> v <> "" ->
  flag_value args env f = v.
Proof.
  intros Hf Ha He Hv. unfold flag_value, os_Getenv. rewrite Ha, Hf, He. simpl.
  by rewrite decide_False.
Qed.

Lemma protocols_of_Err tokens acc :
  (exists m, protocols_of tokens acc = Err m) <->
  exists token, token ∈ tokens /\ token <> "udp" /\ token <> "tcp".
Proof.
  revert acc. induction tokens as [|proto rest IH]; intros acc; simpl.
  - split; [by intros [? ?]|]. intros (? & Hin & _). by apply elem_of_nil in Hin.
  - case_decide as Hu; [|case_decide as Ht].
    + rewrite IH. split.
      * intros (token & Hin & H). exists token. split; [by apply list_elem_of_further|done].
      * intros (token & Hin & Hnu & Hnt). apply elem_of_cons in Hin as [->|Hin]; [done|].
        by exists token.
    + rewrite IH. split.
      * intros (token & Hin & H). exists token. split; [by apply list_elem_of_further|done].
      * intros (token & Hin & Hnu & Hnt). apply elem_of_cons in Hin as [->|Hin]; [done|].
        by exists token.
    + split; [|by eexists]. intros _. exists proto.
      split; [apply list_elem_of_here|done].
Qed.

Lemma protocols_of_Ok tokens acc protocols :
  protocols_of tokens acc = Ok protocols ->
  acc ⊆ protocols /\ (tokens <> [] -> protocols <> ∅).
Proof.
  revert acc. induction tokens as [|proto rest IH]; intros acc; simpl.
  - intros [= <-]. done.
  - case_decide as Hu; [|case_decide as Ht]; [| |done].
    + intros H. destruct (IH _ H) as [Hsub _]. clear IH H.
      split; [set_solver|]. intros _. set_solver.
    + intros H. destruct (IH _ H) as [Hsub _]. clear IH H.
      split; [set_solver|]. intros _. set_solver.
Qed.

Lemma wrap_int_succ_even z :
  in_int z -> Z.odd z = false -> wrap_int (z + 1) = z + 1.
Proof.
  unfold in_int, wrap_int. intros Hz Hodd.
  assert (z <> 2 ^ 63 - 1).
  { intros ->. by vm_compute in Hodd. }
  rewrite Z.mod_small; lia.
Qed.

(** The checks of [newProgram] fail exactly on the configurations that
    violate a constraint. *)
Lemma validate_Err_iff (c : conf) :
  in_int (RtpPort c) ->
  (exists m, validate c = Err m) <-> violates c.
Proof.
  intros Hint. unfold validate, violates, go_rem.
  case_decide as H1; [split; [tauto|by eexists]|].
  case_decide as H2; [split; [tauto|by eexists]|].
  case_decide as H3; [split; [tauto|by eexists]|].
  assert (Hodd : Z.rem (RtpPort c) 2 <> 0 <-> Z.odd (RtpPort c) = true).
  { rewrite Zodd_rem. destruct (Z.eqb_spec (Z.rem (RtpPort c) 2) 0); simpl; split;
      try done; intros; congruence. }
  case_decide as H4; [split; [apply Hodd in H4; tauto|by eexists]|].
  assert (Heven : Z.odd (RtpPort c) = false).
  { destruct (Z.odd (RtpPort c)); [|done]. exfalso. by apply (proj2 Hodd). }
  rewrite (wrap_int_succ_even _ Hint Heven).
  case_decide as H5; [split; [tauto|by eexists]|].
  case_decide as H6; [split; [tauto|by eexists]|].
  case_decide as H7; [split; [tauto|by eexists]|].
  destruct (protocols_of (Protocols c) ∅) as [protocols|m] eqn:Hp.
  - destruct (protocols_of_Ok _ _ _ Hp) as [_ Hne].
    assert (Hnotok : ~ exists token, token ∈ Protocols c /\
                       token <> "udp" /\ token <> "tcp").
    { rewrite <- protocols_of_Err. rewrite Hp. by intros [? ?]. }
    case_decide as Hsz.
    + split; [|by eexists]. intros _. do 8 right.
      destruct (Protocols c) as [|t ts]; [done|].
      exfalso. apply Hne; [done|]. by apply size_empty_inv, leibniz_equiv in Hsz.
    + split; [by intros [? ?]|].
      intros [?|[?|[?|[?|[?|[?|[?|[?|Hnil]]]]]]]]; try done; try congruence; try lia.
      rewrite Hnil in Hp. simpl in Hp. injection Hp as <-. by destruct Hsz.
  - split; [|by eexists]. intros _. do 7 right. left.
    apply (protocols_of_Err (Protocols c) ∅). by eexists.
Qed.

(** C8: with every bind succeeding, [newProgram] returns an error exactly
    when the configuration violates a constraint: one of the three ports is
    0, the RTP port is odd, the RTCP port is not the RTP port plus 1, a
    timeout is below one second, a protocol token is neither [udp] nor
    [tcp], or the list of protocols is empty. On such an error nothing was
    bound and no task was started, and [main] exits with status 1. *)
Theorem newProgram_rejects_exactly_violations (c : conf) (depth : nat) :
  in_int (RtpPort c) ->
  ((exists m, (newProgram_conf (fun _ => true) (fun _ => true) depth c).1 = Err m)
   <-> violates c) /\
  (violates c ->
   forall bind_udp bind_tcp,
     (exists m, newProgram_conf bind_udp bind_tcp depth c = (Err m, [])) /\
     forall parseInt parseDuration args env,
       parse_flags parseInt parseDuration args env = Some c ->
       main parseInt parseDuration bind_udp bind_tcp depth args env = Exited 1 []).
Proof.
  intros Hint. pose proof (validate_Err_iff c Hint) as Hv. split.
  - rewrite <- Hv. unfold newProgram_conf, newServerUdpListener, newServerTcpListener.
    destruct (validate c) as [protocols|m]; simpl.
    + split; intros [m Hm]; done.
    + split; intros _; by eexists.
  - intros Hviol bind_udp bind_tcp. apply Hv in Hviol as [m Hm].
    assert (Hnp : newProgram_conf bind_udp bind_tcp depth c = (Err m, [])).
    { unfold newProgram_conf. by rewrite Hm. }
    split; [by exists m|].
    intros parseInt parseDuration args env Hparse. unfold main.
    by rewrite Hparse, Hnp.
Qed.

Lemma newProgram_rejects_exactly_violations_witness :
  in_int (RtpPort (mkConf ["udp"] 8554 8051 8052 time_Second time_Second)) /\
  violates (mkConf ["udp"] 8554 8051 8052 time_Second time_Second) /\
  exists m,
    (newProgram_conf (fun _ => true) (fun _ => true) 64
       (mkConf ["udp"] 8554 8051 8052 time_Second time_Second)).1 = Err m.
Proof.
  assert (Hint : in_int (RtpPort (mkConf ["udp"] 8554 8051 8052
                                    time_Second time_Second)))
    by (by vm_compute).
  assert (Hviol : violates (mkConf ["udp"] 8554 8051 8052 time_Second time_Second))
    by (do 3 right; by left).
  split; [done|]. split; [done|].
  by apply (proj1 (newProgram_rejects_exactly_violations _ 64%nat Hint)).
Defined.

(** ** loadConf *)

(** C9: [loadConf] returns an error exactly when the file cannot be opened
    (the path not being the literal [stdin]) or the decoding of the source
    fails, with that error; whenever the source decodes, [loadConf] returns
    the decoded record as it is, whatever its fields: no check of the
    bootstrap is applied. *)
Theorem loadConf_fails_only_on_open_or_decode {File : Type} (os_Stdin : File)
    (os_Open : string -> result File) (yaml_Decode : File -> result conf)
    (confPath : string) :
  (forall m,
     loadConf File os_Stdin os_Open yaml_Decode confPath = Err m <->
     (confPath <> "stdin" /\ os_Open confPath = Err m) \/
     (exists f, conf_source os_Stdin os_Open confPath f /\ yaml_Decode f = Err m)) /\
  (forall f c,
     conf_source os_Stdin os_Open confPath f ->
     yaml_Decode f = Ok c ->
     loadConf File os_Stdin os_Open yaml_Decode confPath = Ok c).
Proof.
  unfold loadConf, conf_source. split.
  - intros m. case_decide as Hp.
    + destruct (yaml_Decode os_Stdin) as [c|e] eqn:Hd.
      * split; [done|]. intros [[? _]|(f & -> & Hf)]; [done|congruence].
      * split.
        -- intros [= <-]. right. by exists os_Stdin.
        -- intros [[? _]|(f & -> & Hf)]; [done|congruence].
    + destruct (os_Open confPath) as [f|e] eqn:Ho.
      * destruct (yaml_Decode f) as [c|e] eqn:Hd.
        -- split; [done|]. intros [[_ ?]|(f' & [= <-] & Hf)]; [done|congruence].
        -- split.
           ++ intros [= <-]. right. by exists f.
           ++ intros [[_ ?]|(f' & [= <-] & Hf)]; [done|congruence].
      * split.
        -- intros [= <-]. by left.
        -- intros [[_ ?]|(f' & ? & _)]; [congruence|done].
  - intros f c Hsrc Hd. case_decide as Hp.
    + subst f. by rewrite Hd.
    + by rewrite Hsrc, Hd.
Qed.

Lemma loadConf_fails_only_on_open_or_decode_witness :
  exists c,
    model_loadConf parse_seconds (Some doc_invalid) ∅ "stdin" = Ok c /\
    violates c /\
    validate c = Err "rtp port must be even".
Proof.
  exists (mkConf [] 8554 8051 9000 1 1).
  split; [|split; [|by vm_compute]].
  - apply (proj2 (loadConf_fails_only_on_open_or_decode (Some doc_invalid)
                    (model_Open ∅) (model_Decode parse_seconds) "stdin")
             (Some doc_invalid)); by vm_compute.
  - do 3 right. by left.
Defined.

Lemma yaml_get_with_streams k v entries :
  k <> "streams" ->
  yaml_get k (("streams", v) :: filter (fun e => e.1 <> "streams") entries)
  = yaml_get k entries.
Proof.
  intros Hk. simpl. rewrite decide_False by (intros ?; done).
  induction entries as [|[k' v'] rest IH]; [done|].
  rewrite filter_cons. simpl. destruct (decide (k' = "streams")) as [->|Hs].
  - rewrite decide_False by (intros H; by apply H).
    rewrite IH. by rewrite decide_False by (intros ?; done).
  - rewrite decide_True by done. simpl. by rewrite IH.
Qed.

Lemma decode_conf_with_streams parseDuration v doc :
  decode_conf parseDuration (with_streams v doc) = decode_conf parseDuration doc.
Proof.
  destruct doc as [| | | | |entries]; try done.
  unfold with_streams, decode_conf, field_strings, field_int, field_duration.
  by rewrite !yaml_get_with_streams by done.
Qed.

(** Against C7. [conf] has six fields and none for the streams, so
    two documents that map [cam1] to different origins load to the same
    record, and no reading of the record gives back the mapping of each. *)
Lemma loadConf_streams_counterexample :
  doc_streams doc_cam1 = [("cam1", mkStreamConf "rtsp://origin/cam1" false)] /\
  doc_streams doc_cam1_moved = [("cam1", mkStreamConf "rtsp://elsewhere/cam1" true)] /\
  model_loadConf parse_seconds (Some doc_cam1) ∅ "stdin"
  = Ok (mkConf ["udp"; "tcp"] 8554 8050 8051 (10 * time_Second) (10 * time_Second)) /\
  model_loadConf parse_seconds (Some doc_cam1_moved) ∅ "stdin"
  = Ok (mkConf ["udp"; "tcp"] 8554 8050 8051 (10 * time_Second) (10 * time_Second)) /\
  ~ exists streams_of, conf_keeps_streams streams_of.
Proof.
  assert (H1 : model_loadConf parse_seconds (Some doc_cam1) ∅ "stdin"
               = Ok (mkConf ["udp"; "tcp"] 8554 8050 8051
                       (10 * time_Second) (10 * time_Second))) by (by vm_compute).
  assert (H2 : model_loadConf parse_seconds (Some doc_cam1_moved) ∅ "stdin"
               = Ok (mkConf ["udp"; "tcp"] 8554 8050 8051
                       (10 * time_Second) (10 * time_Second))) by (by vm_compute).
  split; [by vm_compute|]. split; [by vm_compute|]. split; [done|]. split; [done|].
  intros [streams_of Hkeep].
  assert (Ha : streams_of (mkConf ["udp"; "tcp"] 8554 8050 8051
                             (10 * time_Second) (10 * time_Second)) "cam1"
               = Some (mkStreamConf "rtsp://origin/cam1" false)).
  { apply (Hkeep doc_cam1 _ H1). apply list_elem_of_here. }
  assert (Hb : streams_of (mkConf ["udp"; "tcp"] 8554 8050 8051
                             (10 * time_Second) (10 * time_Second)) "cam1"
               = Some (mkStreamConf "rtsp://elsewhere/cam1" true)).
  { apply (Hkeep doc_cam1_moved _ H2). apply list_elem_of_here. }
  rewrite Ha in Hb. discriminate Hb.
Qed.

(** C7, amended: loading a configuration document yields a record of the six
    settings (protocols, the three ports, the two timeouts) and nothing
    else: the [streams] section of the document is not decoded, and
    replacing it by anything leaves what [loadConf] returns unchanged, from
    the standard input and from a file. *)
Theorem loadConf_ignores_streams (parseDuration : string -> option Z)
    (stdin : option yaml) (fs : gmap string (option yaml)) (doc v : yaml)
    (confPath : string) :
  model_loadConf parseDuration (Some (with_streams v doc)) fs "stdin"
  = model_loadConf parseDuration (Some doc) fs "stdin" /\
  (confPath <> "stdin" ->
   model_loadConf parseDuration stdin (<[confPath := Some (with_streams v doc)]> fs)
     confPath
   = model_loadConf parseDuration stdin (<[confPath := Some doc]> fs) confPath) /\
  (forall c,
     model_loadConf parseDuration (Some doc) fs "stdin" = Ok c ->
     c = mkConf (Protocols c) (RtspPort c) (RtpPort c) (RtcpPort c)
           (StreamReadyTimeout c) (StreamTTL c)).
Proof.
  unfold model_loadConf, loadConf, model_Open, model_Decode. split; [|split].
  - rewrite decide_True by done. by rewrite decode_conf_with_streams.
  - intros Hp. destruct (decide (confPath = "stdin")) as [?|_]; [done|].
    rewrite !lookup_insert_eq. by rewrite decode_conf_with_streams.
  - intros c _. by destruct c.
Qed.

Lemma loadConf_ignores_streams_witness :
  model_loadConf parse_seconds (Some doc_cam1) ∅ "stdin"
  = model_loadConf parse_seconds (Some doc_settings) ∅ "stdin".
Proof.
  exact (proj1 (loadConf_ignores_streams parse_seconds None ∅ doc_settings
                  (section_cam1 "rtsp://origin/cam1" false) "conf.yml")).
Defined.

(** ** start, run and close *)

Lemma quiet_after_close_forwarded h :
  EvCloseReturned ∉ h -> quiet_after_close (h ++ [EvForwarded]).
Proof.
  intros Hno h1 h2 Heq. exfalso. apply Hno.
  assert (Hin : EvCloseReturned ∈ h ++ [EvForwarded]).
  { rewrite Heq. apply elem_of_app. right. apply list_elem_of_here. }
  apply elem_of_app in Hin as [Hin|Hin]; [done|].
  by apply list_elem_of_singleton in Hin.
Qed.

Lemma quiet_after_close_returned h :
  quiet_after_close h -> quiet_after_close (h ++ [EvCloseReturned]).
Proof.
  intros Hq h1 h2 Heq.
  destruct h2 as [|z h2 _] using rev_ind; [apply not_elem_of_nil|].
  change (h ++ [EvCloseReturned] = h1 ++ (EvCloseReturned :: h2) ++ [z]) in Heq.
  rewrite app_assoc in Heq. apply app_inj_tail in Heq as [Hh <-].
  intros Hin. apply elem_of_app in Hin as [Hin|Hin].
  - by apply (Hq h1 h2).
  - by apply list_elem_of_singleton in Hin.
Qed.

Lemma udpl_step_invariant s s' :
  udpl_step s s' -> udpl_invariant s -> udpl_invariant s'.
Proof.
  intros Hstep (Hst & Hrun & Hcl & Hsc & Hret & Hev & Hq).
  assert (Hfwd : pc_run s = RunForwarding -> EvCloseReturned ∉ history s).
  { intros Hpc Hin. destruct (Hret (Hev Hin)) as [Hno _]. done. }
  assert (Hmem : forall e, EvCloseReturned ∈ history s ++ [e] ->
                   e = EvCloseReturned \/ pc_close s = CloseReturned).
  { intros e Hin. apply elem_of_app in Hin as [Hin|Hin]; [right; by apply Hev|].
    left. by apply list_elem_of_singleton in Hin. }
  destruct Hstep; unfold udpl_invariant; simpl in *; split_and!;
    try (by apply quiet_after_close_returned);
    try (by apply quiet_after_close_forwarded, Hfwd);
    try done;
    try (intros Hin; apply Hmem in Hin; intuition congruence);
    try (clear Hq Hmem Hfwd; intuition congruence).
Qed.

Lemma udpl_init_invariant : udpl_invariant udpl_init.
Proof.
  unfold udpl_invariant, udpl_init. simpl. split_and!; try done.
  - intros Hin. by apply elem_of_nil in Hin.
  - intros h1 h2 Heq. by destruct h1.
Qed.

Lemma udpl_reachable_invariant s :
  rtc udpl_step udpl_init s -> udpl_invariant s.
Proof.
  revert s. apply rtc_ind_r; [apply udpl_init_invariant|].
  intros s1 s2 _ Hstep IH. by apply (udpl_step_invariant s1 s2).
Qed.

Lemma udpl_closed_reachable : rtc udpl_step udpl_init udpl_closed.
Proof.
  eapply rtc_l; [by apply start_set_state|].
  eapply rtc_l; [by apply start_go|].
  eapply rtc_l; [by apply run_read_publisher|].
  eapply rtc_l; [by apply run_forward|].
  eapply rtc_l; [by apply run_stamp|].
  eapply rtc_l; [by apply close_nconn_Close|].
  eapply rtc_l; [by apply close_test_running|].
  eapply rtc_l; [by apply run_read_error|].
  eapply rtc_l; [by apply chanDone_rendezvous|].
  apply rtc_refl.
Qed.

(** A listener fresh from [newStreamUdpListener] is in the starting state:
    closing it returns at once. *)
Lemma close_new_listener listen port l :
  newStreamUdpListener listen port = Some l ->
  close l = Returned (close_nconn l).
Proof.
  unfold newStreamUdpListener. destruct (listen port); [|done].
  by intros [= <-].
Qed.

(** C10: in every state that [start], [run] and [close] reach together, if
    [close] has returned on a listener on which [start] had been called when
    [close] was called, the task of [run] has terminated; whenever [close]
    has returned, [run] holds no datagram to forward and no frame was
    forwarded after the return. On a listener still in the starting state,
    [close] closes the socket and returns without waiting: the test of
    [l.state] leads straight to the return, and on a running listener it
    leads to the receive on [chanDone]. *)
Theorem close_returns_after_run (s : udpl) :
  rtc udpl_step udpl_init s ->
  (pc_close s = CloseReturned -> start_at_close s <> StartNotCalled ->
     pc_run s = RunDone) /\
  (pc_close s = CloseReturned ->
     pc_run s <> RunForwarding /\ pc_run s <> RunStamping) /\
  quiet_after_close (history s) /\
  (pc_close s = CloseTesting -> pc_start s = StartNotCalled ->
     l_closed s = true /\
     forall s', udpl_step s s' -> pc_close s' <> CloseTesting ->
       pc_close s' = CloseReturned) /\
  (forall l : streamUdpListener,
     (streamUdpListener.state l = _UDPL_STATE_STARTING ->
        close l = Returned (close_nconn l) /\
        conn_closed (streamUdpListener.nconn (close_nconn l)) = true) /\
     (streamUdpListener.state l = _UDPL_STATE_RUNNING ->
        close l = Blocked (close_nconn l) WaitChanDone)).
Proof.
  intros Hreach.
  destruct (udpl_reachable_invariant s Hreach)
    as (Hst & Hrun & Hcl & Hsc & Hret & Hev & Hq).
  split_and!.
  - intros Hc Hs. by apply Hret.
  - intros Hc. destruct (Hret Hc) as (? & ? & _). done.
  - done.
  - intros Hc Hs. split; [apply Hcl; congruence|].
    intros s' Hstep Hne.
    assert (Hstarting : l_state s <> _UDPL_STATE_RUNNING) by (intros H; by apply Hst in H).
    destruct Hstep; simpl in *; congruence.
  - intros l. unfold close. simpl. split.
    + intros Hl. rewrite Hl. done.
    + intros Hl. rewrite Hl. done.
Qed.

Lemma close_returns_after_run_witness :
  rtc udpl_step udpl_init udpl_closed /\
  pc_run udpl_closed = RunDone /\
  quiet_after_close (history udpl_closed).
Proof.
  destruct (close_returns_after_run udpl_closed udpl_closed_reachable)
    as (Hdone & _ & Hquiet & _).
  split; [apply udpl_closed_reachable|]. split; [|done].
  by apply Hdone.
Defined.


(** ** Further properties of forwardTrack *)

Lemma extends_refl {A : Type} (carries : A -> Prop) (ch : chan A) :
  extends carries ch ch.
Proof. split; [done|]. exists []. by rewrite app_nil_r. Qed.

Lemma extends_trans {A : Type} (carries : A -> Prop) (ch1 ch2 ch3 : chan A) :
  extends carries ch1 ch2 -> extends carries ch2 ch3 -> extends carries ch1 ch3.
Proof.
  intros [Hc1 (n1 & Hq1 & Hf1)] [Hc2 (n2 & Hq2 & Hf2)]. split; [congruence|].
  exists (n1 ++ n2). split; [by rewrite Hq2, Hq1, app_assoc|].
  by apply Forall_app.
Qed.

Lemma extends_send {A : Type} (carries : A -> Prop) (ch ch' : chan A) (x : A) :
  chan_send ch x = Some ch' -> carries x -> extends carries ch ch'.
Proof.
  unfold chan_send. case_decide; [done|]. intros [= <-] Hx. split; [done|].
  exists [x]. split; [done|]. by apply Forall_singleton.
Qed.

Lemma with_chanWrite_same (c : serverClient) :
  c = with_chanWrite c (serverClient.chanWrite c).
Proof. by destruct c. Qed.

Lemma forwards_only_refl path flow frame p : forwards_only path flow frame p p.
Proof.
  unfold forwards_only. split_and!; try done.
  - apply extends_refl.
  - intros cp c Hc. exists c. split_and!; try done.
    + apply with_chanWrite_same.
    + apply extends_refl.
Qed.

Lemma forwards_only_trans path flow frame p1 p2 p3 :
  forwards_only path flow frame p1 p2 ->
  forwards_only path flow frame p2 p3 ->
  forwards_only path flow frame p1 p3.
Proof.
  intros (A1 & A2 & A3 & A4 & A5 & A6 & A7 & A8 & A9 & A10 & A11)
         (B1 & B2 & B3 & B4 & B5 & B6 & B7 & B8 & B9 & B10 & B11).
  unfold forwards_only. split_and!; try congruence.
  - intros flow' Hne. rewrite B6, A6; done.
  - by eapply extends_trans.
  - intros cp Hc. by apply B10, A10.
  - intros cp c Hc.
    destruct (A11 cp c Hc) as (c2 & Hc2 & Hw2 & He2 & Hn2).
    destruct (B11 cp c2 Hc2) as (c3 & Hc3 & Hw3 & He3 & Hn3).
    exists c3. split_and!; try done.
    + rewrite Hw3, Hw2. done.
    + by eapply extends_trans.
    + intros Hns. rewrite Hn3; [by apply Hn2|].
      rewrite (Hn2 Hns). done.
Qed.

(** One pass of the loop of [forwardTrack] only sends the payload. *)
Lemma forwardTrack_body_forwards_only path id flow frame p cp :
  forwards_only path flow frame p
    (outcome_state (forwardTrack_body path id flow frame p cp)).
Proof.
  unfold forwardTrack_body.
  destruct (program.clients p !! cp) as [c|] eqn:Hc; [|apply forwards_only_refl].
  case_decide as Hs; [|apply forwards_only_refl].
  case_decide as Hu.
  - case_decide as Hf.
    + destruct (index _ id) as [t|]; [|apply forwards_only_refl].
      destruct (chan_send _ _) as [ch|] eqn:Hsend; [|apply forwards_only_refl].
      subst flow. simpl. unfold forwards_only. simpl. split_and!; try done.
      * intros flow' Hne. by destruct flow'.
      * by eapply extends_send.
      * intros k ck Hk. exists ck. split_and!; try done.
        -- apply with_chanWrite_same.
        -- apply extends_refl.
    + assert (flow = _TRACK_FLOW_RTCP) as -> by (by destruct flow).
      destruct (index _ id) as [t|]; [|apply forwards_only_refl].
      destruct (chan_send _ _) as [ch|] eqn:Hsend; [|apply forwards_only_refl].
      simpl. unfold forwards_only. simpl. split_and!; try done.
      * intros flow' Hne. by destruct flow'.
      * by eapply extends_send.
      * intros k ck Hk. exists ck. split_and!; try done.
        -- apply with_chanWrite_same.
        -- apply extends_refl.
  - destruct (chan_send _ _) as [ch|] eqn:Hsend; [|apply forwards_only_refl].
    simpl. unfold forwards_only. simpl. split_and!; try done.
    + apply extends_refl.
    + intros k Hk. rewrite lookup_insert_ne; [done|]. intros ->. congruence.
    + intros k ck Hk. destruct (decide (k = cp)) as [->|Hne].
      * assert (ck = c) as -> by congruence.
        rewrite lookup_insert_eq. eexists. split; [done|]. split_and!.
        -- done.
        -- by eapply extends_send.
        -- intros Hns. by destruct Hns.
      * rewrite lookup_insert_ne by done. exists ck. split_and!; try done.
        -- apply with_chanWrite_same.
        -- apply extends_refl.
Qed.

Lemma forwardTrack_range_forwards_only path id flow frame order :
  forall p,
    forwards_only path flow frame p
      (outcome_state (forwardTrack_range order path id flow frame p)).
Proof.
  induction order as [|cp rest IH]; intros p; [apply forwards_only_refl|].
  simpl.
  pose proof (forwardTrack_body_forwards_only path id flow frame p cp) as Hbody.
  destruct (forwardTrack_body path id flow frame p cp) as [p1|p1 wp|p1]; simpl in *;
    [|done..].
  eapply forwards_only_trans; [exact Hbody|apply IH].
Qed.

(** X1: whatever the order of the range and however the call ends (return,
    park or panic), [forwardTrack] only appends to writer queues, and what it
    appends carries the very slice it was given: the queue of the UDP
    endpoint of the flow and the queues of subscribers of the path grow at
    their tail; the other endpoint, the lock, the streams, the set of
    clients, every field of a client but its queue, and every client that is
    not a subscriber of the path are left as they were. *)
Theorem forwardTrack_only_sends_the_payload (p : program) (order : list ptr)
    (path : string) (id : Z) (flow : trackFlow) (frame : slice) :
  forwards_only path flow frame p
    (outcome_state (forwardTrack p order path id flow frame)).
Proof. apply forwardTrack_range_forwards_only. Qed.

(** The pass for a client panics only on a UDP subscriber without binding,
    and parks only at a send. *)
Lemma forwardTrack_body_cases path id flow frame p cp :
  match forwardTrack_body path id flow frame p cp with
  | Returned _ => True
  | Blocked _ wp => send_point wp
  | Panicked _ =>
    exists c, program.clients p !! cp = Some c /\ subscriber path c /\
              serverClient.streamProtocol c = _STREAM_PROTOCOL_UDP /\
              index (serverClient.streamTracks c) id = None
  end.
Proof.
  unfold forwardTrack_body.
  destruct (program.clients p !! cp) as [c|] eqn:Hc; [|done].
  case_decide as Hs; [|done]. case_decide as Hu.
  - case_decide as Hf.
    + destruct (index _ id) as [t|] eqn:Ht; [|by exists c].
      by destruct (chan_send _ _).
    + destruct (index _ id) as [t|] eqn:Ht; [|by exists c].
      by destruct (chan_send _ _).
  - by destruct (chan_send _ _).
Qed.

Lemma forwardTrack_range_cases path id flow frame order :
  forall p,
    match forwardTrack_range order path id flow frame p with
    | Returned _ => True
    | Blocked _ wp => send_point wp
    | Panicked _ =>
      exists cp c, cp ∈ order /\ program.clients p !! cp = Some c /\
                   subscriber path c /\
                   serverClient.streamProtocol c = _STREAM_PROTOCOL_UDP /\
                   index (serverClient.streamTracks c) id = None
    end.
Proof.
  induction order as [|k rest IH]; intros p; [done|]. simpl.
  pose proof (forwardTrack_body_cases path id flow frame p k) as Hbody.
  pose proof (forwardTrack_body_forwards_only path id flow frame p k) as Hfw.
  destruct (forwardTrack_body path id flow frame p k) as [p1|p1 wp|p1]; simpl in *.
  - pose proof (IH p1) as Hrest.
    destruct (forwardTrack_range rest path id flow frame p1) as [p2|p2 wp|p2];
      [done|done|].
    destruct Hrest as (cp & c1 & Hin & Hc1 & Hs & Hu & Hi).
    destruct Hfw as (_ & _ & _ & _ & _ & _ & _ & _ & _ & Hnone & Hsome).
    destruct (program.clients p !! cp) as [c|] eqn:Hc.
    + destruct (Hsome cp c Hc) as (c' & Hc' & Hw & _).
      assert (c' = c1) as -> by congruence.
      exists cp, c. split; [by apply list_elem_of_further|]. split; [done|].
      rewrite Hw in Hs, Hu, Hi. done.
    + rewrite (Hnone cp Hc) in Hc1. done.
  - done.
  - destruct Hbody as (c & Hc & Hs & Hu & Hi). exists k, c.
    split; [apply list_elem_of_here|done].
Qed.

(** X2: [forwardTrack] panics only because a playing UDP client of the path
    has no binding for the track (the index [c.streamTracks[id]] is out of
    range); when every such client has one, the call returns or parks at a
    send on a writer queue. *)
Theorem forwardTrack_panics_only_unbound (p : program) (order : list ptr)
    (path : string) (id : Z) (flow : trackFlow) (frame : slice) :
  (forall p', forwardTrack p order path id flow frame = Panicked p' ->
     exists cp c, cp ∈ order /\ program.clients p !! cp = Some c /\
                  subscriber path c /\
                  serverClient.streamProtocol c = _STREAM_PROTOCOL_UDP /\
                  index (serverClient.streamTracks c) id = None) /\
  (bound p path id ->
     (exists p', forwardTrack p order path id flow frame = Returned p') \/
     (exists p' wp, forwardTrack p order path id flow frame = Blocked p' wp /\
                    send_point wp)).
Proof.
  pose proof (forwardTrack_range_cases path id flow frame order p) as H.
  unfold forwardTrack. split.
  - intros p' Hp. by rewrite Hp in H.
  - intros Hb.
    destruct (forwardTrack_range order path id flow frame p) as [p1|p1 wp|p1].
    + left. by exists p1.
    + right. by exists p1, wp.
    + destruct H as (cp & c & _ & Hc & Hs & Hu & Hi).
      destruct (Hb cp c Hc Hs Hu) as [t Ht]. congruence.
Qed.

Lemma forwardTrack_panics_only_unbound_witness :
  forwardTrack example_program [1; 2; 3; 4]%nat "cam1" 5 _TRACK_FLOW_RTP
    example_frame = Panicked example_program /\
  exists cp c, cp ∈ [1; 2; 3; 4]%nat /\
               program.clients example_program !! cp = Some c /\
               index (serverClient.streamTracks c) 5 = None.
Proof.
  assert (Hp : forwardTrack example_program [1; 2; 3; 4]%nat "cam1" 5
                 _TRACK_FLOW_RTP example_frame = Panicked example_program)
    by (by vm_compute).
  split; [done|].
  destruct (proj1 (forwardTrack_panics_only_unbound example_program
                     [1; 2; 3; 4]%nat "cam1" 5 _TRACK_FLOW_RTP example_frame)
              _ Hp) as (cp & c & Hin & Hc & _ & _ & Hi).
  by exists cp, c.
Defined.

Lemma forwardTrack_range_no_subscriber path id flow frame order :
  forall p,
    (forall cp c, cp ∈ order -> program.clients p !! cp = Some c ->
       ~ subscriber path c) ->
    forwardTrack_range order path id flow frame p = Returned p.
Proof.
  induction order as [|k rest IH]; intros p Hno; [done|]. simpl.
  assert (Hbody : forwardTrack_body path id flow frame p k = Returned p).
  { unfold forwardTrack_body.
    destruct (program.clients p !! k) as [c|] eqn:Hc; [|done].
    rewrite decide_False; [done|]. apply (Hno k c); [apply list_elem_of_here|done]. }
  rewrite Hbody. simpl. apply IH.
  intros cp c Hin. apply Hno. by apply list_elem_of_further.
Qed.

(** X3: a packet of a path that no client is playing is discarded:
    [forwardTrack] returns at once with the program exactly as it was,
    whatever the state of the queues and of the bindings. *)
Theorem forwardTrack_without_subscriber (p : program) (order : list ptr)
    (path : string) (id : Z) (flow : trackFlow) (frame : slice) :
  (forall cp c, program.clients p !! cp = Some c -> ~ subscriber path c) ->
  forwardTrack p order path id flow frame = Returned p.
Proof.
  intros Hno. apply forwardTrack_range_no_subscriber.
  intros cp c _. apply Hno.
Qed.

Lemma forwardTrack_without_subscriber_witness :
  forwardTrack slow_program [1%nat] "cam7" 0 _TRACK_FLOW_RTCP example_frame
  = Returned slow_program.
Proof.
  apply forwardTrack_without_subscriber.
  assert (H : map_Forall (fun (_ : ptr) c => ~ subscriber "cam7" c)
                (program.clients slow_program)) by compute_done.
  intros cp c Hc. exact (map_Forall_lookup_1 _ _ _ _ H Hc).
Defined.

(** Two orders of one range are permutations of each other. *)
Lemma range_order_Permutation {K : Type} `{Countable K} {V : Type}
    (m : gmap K V) (order1 order2 : list K) :
  range_order m order1 -> range_order m order2 -> order1 ≡ₚ order2.
Proof.
  intros [Hnd1 Hd1] [Hnd2 Hd2]. apply NoDup_Permutation; [done..|].
  intros k. rewrite <- !(elem_of_list_to_set (C := gset K)). by rewrite Hd1, Hd2.
Qed.

Lemma fan_out_lookup p order path id flow frame cp :
  program.clients (fan_out p order path id flow frame) !! cp
  = (fun c => if decide (cp ∈ order) then deliver path id flow frame c else c)
      <$> program.clients p !! cp.
Proof.
  unfold fan_out. simpl. rewrite map_lookup_imap.
  by destruct (program.clients p !! cp).
Qed.

Lemma fan_out_dom p order path id flow frame :
  dom (program.clients (fan_out p order path id flow frame))
  = dom (program.clients p).
Proof.
  apply set_eq. intros cp. rewrite !elem_of_dom, fan_out_lookup.
  by rewrite fmap_is_Some.
Qed.

Lemma datagram_for_deliver path id flow frame path' id' flow' frame' c :
  datagram_for path id flow frame (deliver path' id' flow' frame' c)
  = datagram_for path id flow frame c.
Proof. reflexivity. Qed.

Lemma datagrams_fan_out p order path id flow frame order' frame' :
  datagrams (fan_out p order path id flow frame) order' path id flow frame'
  = datagrams p order' path id flow frame'.
Proof.
  unfold datagrams. apply list_omap_ext. apply Forall2_same_length_lookup_2; [done|].
  intros i k1 k2 Hk1 Hk2. assert (k1 = k2) as -> by congruence.
  rewrite fan_out_lookup. destruct (program.clients p !! k2) as [c|]; [simpl|done].
  case_decide; [apply datagram_for_deliver|done].
Qed.

Lemma bound_fan_out p order path id flow frame :
  bound p path id -> bound (fan_out p order path id flow frame) path id.
Proof.
  intros Hb cp c' Hc'. rewrite fan_out_lookup in Hc'.
  destruct (program.clients p !! cp) as [c|] eqn:Hc; [|done].
  simpl in Hc'. injection Hc' as <-.
  intros Hs Hu. case_decide; by apply (Hb cp c).
Qed.

(** X4: the order in which Go ranges over the map of clients does not change
    who receives a packet: for two orders of the range, [forwardTrack]
    returns with the same clients (hence the same queue for every TCP
    subscriber), and the datagrams added to the writer queue of the UDP
    endpoint are the same up to their order. *)
Theorem forwardTrack_order_independent (p : program) (order1 order2 : list ptr)
    (path : string) (id : Z) (flow : trackFlow) (frame : slice) :
  range_order (program.clients p) order1 ->
  range_order (program.clients p) order2 ->
  bound p path id ->
  room p order1 path id flow frame ->
  exists p1 p2 ds1 ds2,
    forwardTrack p order1 path id flow frame = Returned p1 /\
    forwardTrack p order2 path id flow frame = Returned p2 /\
    program.clients p1 = program.clients p2 /\
    queue (serverUdpListener.chanWrite (endpoint p1 flow))
    = queue (serverUdpListener.chanWrite (endpoint p flow)) ++ ds1 /\
    queue (serverUdpListener.chanWrite (endpoint p2 flow))
    = queue (serverUdpListener.chanWrite (endpoint p flow)) ++ ds2 /\
    ds1 ≡ₚ ds2 /\
    (forall flow', flow' <> flow -> endpoint p1 flow' = endpoint p2 flow').
Proof.
  intros Hord1 Hord2 Hb [Hr1 Hr2].
  pose proof (range_order_Permutation _ _ _ Hord1 Hord2) as Hperm.
  assert (Hds : datagrams p order1 path id flow frame
                ≡ₚ datagrams p order2 path id flow frame).
  { unfold datagrams. by rewrite Hperm. }
  assert (Hroom2 : room p order2 path id flow frame).
  { split.
    - rewrite <- Hds. done.
    - intros cp c Hc Hin. apply (Hr2 cp c Hc). by rewrite Hperm. }
  exists (fan_out p order1 path id flow frame), (fan_out p order2 path id flow frame),
    (datagrams p order1 path id flow frame), (datagrams p order2 path id flow frame).
  unfold forwardTrack.
  rewrite !forwardTrack_range_fan_out; [|apply Hord2|done|done|apply Hord1|done|by split].
  split; [done|]. split; [done|]. split.
  { apply map_eq. intros cp. rewrite !fan_out_lookup.
    destruct (program.clients p !! cp) as [c|] eqn:Hc; [simpl|done].
    rewrite !decide_True; [done|by eapply range_order_elem..]. }
  split; [by unfold fan_out, endpoint; destruct flow|].
  split; [by unfold fan_out, endpoint; destruct flow|].
  split; [done|].
  intros flow' Hne. unfold fan_out, endpoint. by destruct flow, flow'.
Qed.

Lemma forwardTrack_order_independent_witness :
  exists p1 p2,
    forwardTrack example_program [1; 2; 3; 4]%nat "cam1" 0 _TRACK_FLOW_RTP
      example_frame = Returned p1 /\
    forwardTrack example_program [4; 2; 1; 3]%nat "cam1" 0 _TRACK_FLOW_RTP
      example_frame = Returned p2 /\
    program.clients p1 = program.clients p2.
Proof.
  destruct (forwardTrack_order_independent example_program [1; 2; 3; 4]%nat
              [4; 2; 1; 3]%nat "cam1" 0 _TRACK_FLOW_RTP example_frame)
    as (p1 & p2 & _ & _ & H1 & H2 & H3 & _).
  - split; [compute_done|by vm_compute].
  - split; [compute_done|by vm_compute].
  - apply bound_map_Forall. compute_done.
  - apply room_map_Forall; [vm_compute; lia|compute_done].
  - by exists p1, p2.
Defined.

(** X5: two packets of one track forwarded one after the other reach every
    subscriber in that order: after the second call, the writer queue of the
    UDP endpoint holds the datagrams of the first packet before those of the
    second, and the writer queue of each client holds its frame of the first
    packet before its frame of the second. *)
Theorem forwardTrack_twice_keeps_order (p p1 : program) (order1 order2 : list ptr)
    (path : string) (id : Z) (flow : trackFlow) (frame1 frame2 : slice) :
  range_order (program.clients p) order1 ->
  range_order (program.clients p) order2 ->
  bound p path id ->
  room p order1 path id flow frame1 ->
  forwardTrack p order1 path id flow frame1 = Returned p1 ->
  room p1 order2 path id flow frame2 ->
  exists p2,
    forwardTrack p1 order2 path id flow frame2 = Returned p2 /\
    queue (serverUdpListener.chanWrite (endpoint p2 flow))
    = queue (serverUdpListener.chanWrite (endpoint p flow))
      ++ datagrams p order1 path id flow frame1
      ++ datagrams p order2 path id flow frame2 /\
    (forall cp c, program.clients p !! cp = Some c ->
       exists c2,
         program.clients p2 !! cp = Some c2 /\
         queue (serverClient.chanWrite c2)
         = queue (serverClient.chanWrite c)
           ++ frames_for path id flow frame1 c
           ++ frames_for path id flow frame2 c).
Proof.
  intros Hord1 Hord2 Hb Hr1 Hret1 Hr2.
  assert (Hp1 : p1 = fan_out p order1 path id flow frame1).
  { unfold forwardTrack in Hret1.
    rewrite forwardTrack_range_fan_out in Hret1; [|apply Hord1|done|done].
    by injection Hret1 as <-. }
  assert (Hord2' : range_order (program.clients p1) order2).
  { destruct Hord2 as [Hnd Hdom]. split; [done|]. by rewrite Hp1, fan_out_dom. }
  assert (Hb1 : bound p1 path id) by (rewrite Hp1; by apply bound_fan_out).
  exists (fan_out p1 order2 path id flow frame2). unfold forwardTrack.
  rewrite forwardTrack_range_fan_out; [|apply Hord2'|done|done].
  split; [done|]. split.
  - assert (Hd2 : datagrams p1 order2 path id flow frame2
                  = datagrams p order2 path id flow frame2)
      by (rewrite Hp1; apply datagrams_fan_out).
    assert (Hq1 : queue (serverUdpListener.chanWrite (endpoint p1 flow))
                  = queue (serverUdpListener.chanWrite (endpoint p flow))
                    ++ datagrams p order1 path id flow frame1)
      by (rewrite Hp1; unfold fan_out, endpoint; by destruct flow).
    rewrite app_assoc, <- Hq1, <- Hd2.
    unfold fan_out, endpoint. by destruct flow.
  - intros cp c Hc.
    assert (Hin1 : cp ∈ order1) by exact (range_order_elem _ _ _ _ Hord1 Hc).
    assert (Hin2 : cp ∈ order2) by exact (range_order_elem _ _ _ _ Hord2 Hc).
    rewrite fan_out_lookup, Hp1, fan_out_lookup, Hc. simpl.
    rewrite !decide_True by done. eexists. split; [done|]. simpl.
    by rewrite <- app_assoc.
Qed.

Lemma forwardTrack_twice_keeps_order_witness :
  exists p1 p2 c2,
    forwardTrack example_program [1; 2; 3; 4]%nat "cam1" 0 _TRACK_FLOW_RTP
      example_frame = Returned p1 /\
    forwardTrack p1 [3; 4; 1; 2]%nat "cam1" 0 _TRACK_FLOW_RTP example_frame2
    = Returned p2 /\
    program.clients p2 !! 2%nat = Some c2 /\
    queue (serverClient.chanWrite c2)
    = [mkInterleavedFrame 0 example_frame; mkInterleavedFrame 0 example_frame2].
Proof.
  set (p1 := fan_out example_program [1; 2; 3; 4]%nat "cam1" 0 _TRACK_FLOW_RTP
               example_frame).
  assert (H1 : forwardTrack example_program [1; 2; 3; 4]%nat "cam1" 0
                 _TRACK_FLOW_RTP example_frame = Returned p1) by (by vm_compute).
  destruct (forwardTrack_twice_keeps_order example_program p1 [1; 2; 3; 4]%nat
              [3; 4; 1; 2]%nat "cam1" 0 _TRACK_FLOW_RTP example_frame
              example_frame2) as (p2 & H2 & _ & Hq).
  - split; [compute_done|by vm_compute].
  - split; [compute_done|by vm_compute].
  - apply bound_map_Forall. compute_done.
  - apply room_map_Forall; [vm_compute; lia|compute_done].
  - done.
  - apply room_map_Forall; [vm_compute; lia|compute_done].
  - destruct (Hq 2%nat client_tcp) as (c2 & Hc2 & Hq2); [by vm_compute|].
    exists p1, p2, c2. split; [done|]. split; [done|]. split; [done|].
    rewrite Hq2. by vm_compute.
Defined.

(** ** Further properties of the run loop *)

Lemma run_iteration_foreign w payload src order now :
  from_publisher (listener w) src = false ->
  exists st,
    run_iteration w (ReadOk payload src) order now
    = Next (mkWorld (listener w) (prog w) st (forwarded w)) /\
    forall a b, arrays w !! a = Some b -> st !! a = Some b.
Proof.
  intros Hpub. unfold run_iteration. simpl. unfold read_into.
  rewrite from_publisher_filter, Hpub. simpl. eexists. split; [done|].
  intros a b Hab.
  assert (a <> fresh (dom (arrays w))).
  { intros ->. pose proof (fresh_array_not_in (arrays w)) as Hf.
    apply Hf. apply elem_of_dom. by exists b. }
  by rewrite !lookup_insert_ne.
Qed.

(** A pass never writes an array allocated before it, and only adds to the
    history of calls. *)
Lemma run_iteration_store w rd order now :
  buffers_ok w ->
  (forall a b, arrays w !! a = Some b ->
     arrays (result_world (run_iteration w rd order now)) !! a = Some b) /\
  (exists new, forwarded (result_world (run_iteration w rd order now))
               = forwarded w ++ new).
Proof.
  intros Hok. destruct rd as [payload src|].
  - destruct (run_forwards_publisher_datagram_spec w payload src order now Hok)
      as (Hnone & _ & _ & Hkeep & _ & Hother & Hpub).
    split.
    + intros a b Hab. rewrite Hkeep; [done|]. intros ->. congruence.
    + destruct (from_publisher (listener w) src) eqn:Hfp.
      * destruct (writer (program.mutex (prog w))) eqn:Hw.
        -- exists []. rewrite app_nil_r. unfold run_iteration. simpl.
           unfold read_into. rewrite from_publisher_filter, Hfp. simpl.
           unfold RLock. by rewrite Hw.
        -- destruct (Hpub eq_refl eq_refl) as [-> _]. by eexists.
      * destruct (Hother eq_refl) as (_ & _ & -> & _). exists [].
        by rewrite app_nil_r.
  - rewrite run_iteration_ReadErr. simpl. split.
    + intros a b Hab. rewrite lookup_insert_ne; [done|].
      intros <-. pose proof (fresh_array_not_in (arrays w)) as Hf.
      apply Hf. apply elem_of_dom. by exists b.
    + exists []. by rewrite app_nil_r.
Qed.

Lemma run_loop_store inputs :
  forall w,
    buffers_ok w ->
    buffers_ok (result_world (run_loop inputs w)) /\
    (forall a b, arrays w !! a = Some b ->
       arrays (result_world (run_loop inputs w)) !! a = Some b) /\
    (exists new, forwarded (result_world (run_loop inputs w))
                 = forwarded w ++ new).
Proof.
  induction inputs as [|i rest IH]; intros w Hok.
  - simpl. split; [done|]. split; [done|]. exists []. by rewrite app_nil_r.
  - simpl.
    pose proof (run_iteration_buffers_ok w (in_read i) (in_order i) (in_now i) Hok)
      as Hok1.
    destruct (run_iteration_store w (in_read i) (in_order i) (in_now i) Hok)
      as [Hst1 (new1 & Hnew1)].
    destruct (run_iteration w (in_read i) (in_order i) (in_now i)) as [w1|o];
      simpl in *.
    + destruct (IH w1 Hok1) as (Hok2 & Hst2 & new2 & Hnew2).
      split; [done|]. split; [by intros a b Hab; apply Hst2, Hst1|].
      exists (new1 ++ new2). by rewrite Hnew2, Hnew1, app_assoc.
    + split; [done|]. split; [done|]. by exists new1.
Qed.

(** X6: along any run of the read loop, however it ends, the calls of
    [forwardTrack] made so far stay in the history in order, no two of them
    share a backing array, and no array that existed before is written: the
    bytes of every slice already forwarded stay what they were. *)
Theorem run_loop_keeps_forwarded_buffers (inputs : list loop_input) (w : world) :
  buffers_ok w ->
  let w' := result_world (run_loop inputs w) in
  (exists new, forwarded w' = forwarded w ++ new) /\
  NoDup (map (fun call => array (call_frame call)) (forwarded w')) /\
  (forall call, call ∈ forwarded w ->
     is_Some (slice_bytes (arrays w) (call_frame call)) /\
     slice_bytes (arrays w') (call_frame call)
     = slice_bytes (arrays w) (call_frame call)).
Proof.
  intros Hok w'.
  destruct (run_loop_store inputs w Hok) as ([_ Hnd] & Hst & Hnew).
  split; [done|]. split; [done|].
  intros call Hc. destruct Hok as [Hin _].
  apply Hin, elem_of_dom in Hc as [b Hb].
  subst w'. unfold slice_bytes. pose proof (Hst _ _ Hb) as Hb'.
  unfold bytes in *. rewrite Hb', Hb. split; [by eexists|done].
Qed.

Lemma run_loop_keeps_forwarded_buffers_witness :
  exists new,
    forwarded (result_world
                 (run_loop [mkLoopInput (ReadOk [Byte.xaa; Byte.xbb] publisher_addr)
                              [1; 2; 3; 4]%nat 0;
                            mkLoopInput (ReadOk [Byte.xcc] publisher_addr)
                              [1; 2; 3; 4]%nat 1]
                    (example_world example_program)))
    = forwarded (example_world example_program) ++ new.
Proof.
  apply run_loop_keeps_forwarded_buffers.
  split; [intros call Hc; by apply elem_of_nil in Hc|apply NoDup_nil_2].
Defined.

Lemma forwardTrack_mutex p order path id flow frame :
  program.mutex (outcome_state (forwardTrack p order path id flow frame))
  = program.mutex p.
Proof.
  by destruct (forwardTrack_range_forwards_only path id flow frame order p)
    as (_ & _ & ? & _).
Qed.

(** How a pass of the run loop leaves the read lock of the fan-out. *)
Lemma run_iteration_lock_cases (w : world) (rd : readResult) (order : list ptr)
    (now : Z) :
  match run_iteration w rd order now with
  | Next w' => program.mutex (prog w') = program.mutex (prog w)
  | Stop (Panicked w') => program.mutex (prog w') = program.mutex (prog w)
  | Stop (Returned w') => program.mutex (prog w') = program.mutex (prog w)
  | Stop (Blocked w' wp) =>
    (send_point wp ->
       readers (program.mutex (prog w')) = S (readers (program.mutex (prog w))) /\
       writer (program.mutex (prog w')) = false) /\
    (~ send_point wp -> program.mutex (prog w') = program.mutex (prog w))
  end.
Proof.
  destruct rd as [payload src|]; [|rewrite run_iteration_ReadErr; simpl; tauto].
  unfold run_iteration. simpl. unfold read_into.
  destruct (negb _ || _); [done|].
  destruct (RLock (program.mutex (prog w))) as [m|] eqn:Hlock; [|simpl; tauto].
  destruct (RUnlock_RLock _ _ Hlock) as [Hun Hrd].
  set (fr := mkSlice _ _).
  pose proof (forwardTrack_mutex (set_mutex (prog w) m) order
                (streamUdpListener.path (listener w))
                (streamUdpListener.trackId (listener w))
                (streamUdpListener.flow (listener w)) fr) as Hm.
  pose proof (forwardTrack_range_cases (streamUdpListener.path (listener w))
                (streamUdpListener.trackId (listener w))
                (streamUdpListener.flow (listener w)) fr order
                (set_mutex (prog w) m)) as Hcases.
  unfold forwardTrack in *.
  destruct (forwardTrack_range _ _ _ _ _ _) as [p1|p1 wp|p1]; simpl in *.
  - destruct (streamUdpListener.mutex (listener w)); simpl; rewrite Hm, Hun;
      [tauto|done].
  - split; [|tauto]. intros _. rewrite Hm. split; [done|].
    unfold RLock in Hlock. destruct (writer (program.mutex (prog w))); [done|].
    by injection Hlock as <-.
  - by rewrite Hm, Hun.
Qed.

(** X7: the read lock of the fan-out is held by a pass of the run loop only
    while [forwardTrack] is parked at a send: a pass that ends in any other
    way (it goes on to the next read, it parks at the lock, at the mutex of
    the listener or at [chanDone], or [forwardTrack] panicked) leaves the
    lock exactly as it found it, the deferred [RUnlock] having run; a pass
    parked at a send holds one more reader. *)
Theorem run_iteration_read_lock (w : world) (rd : readResult) (order : list ptr)
    (now : Z) :
  match run_iteration w rd order now with
  | Next w' => program.mutex (prog w') = program.mutex (prog w)
  | Stop (Panicked w') => program.mutex (prog w') = program.mutex (prog w)
  | Stop (Returned w') => program.mutex (prog w') = program.mutex (prog w)
  | Stop (Blocked w' wp) =>
    (send_point wp ->
       readers (program.mutex (prog w')) = S (readers (program.mutex (prog w))) /\
       writer (program.mutex (prog w')) = false) /\
    (~ send_point wp -> program.mutex (prog w') = program.mutex (prog w))
  end.
Proof. exact (run_iteration_lock_cases w rd order now). Qed.

(** Datagrams that fail the filter of the loop leave everything but the
    store as it is. *)
Lemma run_loop_foreign (inputs : list loop_input) (w : world) :
  Forall (fun i => exists payload src,
                     in_read i = ReadOk payload src /\
                     from_publisher (listener w) src = false) inputs ->
  exists st,
    run_loop inputs w = Next (mkWorld (listener w) (prog w) st (forwarded w)) /\
    forall a b, arrays w !! a = Some b -> st !! a = Some b.
Proof.
  revert w. induction inputs as [|i rest IH]; intros w Hall.
  - exists (arrays w). split; [by destruct w|done].
  - apply Forall_cons in Hall as [(payload & src & Hrd & Hpub) Hrest]. simpl.
    rewrite Hrd.
    destruct (run_iteration_foreign w payload src (in_order i) (in_now i) Hpub)
      as (st1 & -> & Hst1).
    destruct (IH (mkWorld (listener w) (prog w) st1 (forwarded w)) Hrest)
      as (st & -> & Hst).
    exists st. split; [done|]. intros a b Hab. by apply Hst, Hst1.
Qed.

(** X8: datagrams that do not come from the publisher go no further than
    the read loop, whatever their number and whatever the state of the
    program: the loop goes on without taking the read lock (it does not park
    even while another task holds the write lock), the program, the listener
    and the history of calls are exactly as before, and the arrays that
    existed keep their bytes. *)
Theorem run_loop_drops_foreign_datagrams (inputs : list loop_input) (w : world) :
  Forall (fun i => exists payload src,
                     in_read i = ReadOk payload src /\
                     from_publisher (listener w) src = false) inputs ->
  exists st,
    run_loop inputs w = Next (mkWorld (listener w) (prog w) st (forwarded w)) /\
    forall a b, arrays w !! a = Some b -> st !! a = Some b.
Proof. exact (run_loop_foreign inputs w). Qed.

Lemma run_loop_drops_foreign_datagrams_witness :
  exists st,
    run_loop [mkLoopInput (ReadOk [Byte.xaa] (mkUDPAddr (ip_10_0_0 Byte.x09) 5001))
                [1%nat] 0;
              mkLoopInput (ReadOk [Byte.xbb] (mkUDPAddr (ip_10_0_0 Byte.x08) 5000))
                [1%nat] 1]
      (example_world slow_program)
    = Next (mkWorld example_listener slow_program st []).
Proof.
  destruct (run_loop_drops_foreign_datagrams
              [mkLoopInput (ReadOk [Byte.xaa] (mkUDPAddr (ip_10_0_0 Byte.x09) 5001))
                 [1%nat] 0;
               mkLoopInput (ReadOk [Byte.xbb] (mkUDPAddr (ip_10_0_0 Byte.x08) 5000))
                 [1%nat] 1]
              (example_world slow_program)) as (st & Hst & _).
  - repeat apply Forall_cons_2; [| |apply Forall_nil_2]; eexists _, _; by vm_compute.
  - by exists st.
Defined.

(** X9: one slow client stalls the supervisor: while a pass of the run loop
    is parked in [forwardTrack] on the full writer queue of a subscriber, it
    holds the read lock, so a tick of the supervisor cannot take the write
    lock and parks at [p.mutex.Lock()] without stamping or sweeping
    anything. *)
Theorem parked_forward_stalls_supervisor (w : world) (payload : bytes)
    (src : UDPAddr) (order : list ptr) (now : Z) (cp : ptr) (c : serverClient) :
  from_publisher (listener w) src = true ->
  writer (program.mutex (prog w)) = false ->
  range_order (program.clients (prog w)) order ->
  bound (prog w) (streamUdpListener.path (listener w))
        (streamUdpListener.trackId (listener w)) ->
  program.clients (prog w) !! cp = Some c ->
  subscriber (streamUdpListener.path (listener w)) c ->
  target_full (prog w) (streamUdpListener.flow (listener w)) c ->
  exists w' wp,
    run_iteration w (ReadOk payload src) order now = Stop (Blocked w' wp) /\
    send_point wp /\
    forall (s : supervisor) (order1 : list ptr) (order2 : list string)
           (now' : nat -> Z),
      sup_prog s = prog w' ->
      tick s order1 order2 now' = Blocked s WaitLock.
Proof.
  intros Hpub Hw Hord Hb Hc Hs Hfull.
  assert (Hin : cp ∈ order) by exact (range_order_elem _ _ _ _ Hord Hc).
  pose proof (run_iteration_lock_cases w (ReadOk payload src) order now) as Hlock.
  unfold run_iteration in *. simpl in *. unfold read_into in *.
  rewrite from_publisher_filter, Hpub in *. simpl in *.
  unfold RLock in *. rewrite Hw in *.
  set (fr := mkSlice _ _) in *.
  set (p0 := set_mutex (prog w) _) in *.
  destruct (forwardTrack_range_full
              (streamUdpListener.path (listener w))
              (streamUdpListener.trackId (listener w))
              (streamUdpListener.flow (listener w)) fr order p0 cp c)
    as (p' & wp & Hr & Hwp & Hm); try done.
  unfold forwardTrack in *. rewrite Hr in *. simpl in *.
  eexists _, wp. split; [done|]. split; [done|].
  intros s order1 order2 now' Hprog. unfold tick. rewrite Hprog. simpl.
  destruct Hlock as [Hheld _]. destruct (Hheld Hwp) as [Hrd Hwr].
  unfold Lock. rewrite Hwr. rewrite decide_False; [done|]. rewrite Hrd. lia.
Qed.

Lemma parked_forward_stalls_supervisor_witness :
  exists w' wp,
    run_iteration (example_world slow_program)
      (ReadOk [Byte.xaa; Byte.xbb] publisher_addr) [1%nat] 0
    = Stop (Blocked w' wp) /\
    tick (mkSupervisor (prog w') ∅ []) [1%nat] [] at_20s
    = Blocked (mkSupervisor (prog w') ∅ []) WaitLock.
Proof.
  destruct (parked_forward_stalls_supervisor (example_world slow_program)
              [Byte.xaa; Byte.xbb] publisher_addr [1%nat] 0 1%nat client_slow)
    as (w' & wp & Hr & _ & Htick).
  - by vm_compute.
  - done.
  - split; [compute_done|by vm_compute].
  - apply bound_map_Forall. compute_done.
  - done.
  - done.
  - unfold target_full. simpl. unfold chan_full. simpl. lia.
  - exists w', wp. split; [done|]. by apply Htick.
Defined.

(** ** Further properties of the supervisor *)

(** X10: a stream with a connected client survives the tick: when a client
    is connected on a path and the tick lasts less than [StreamTTL] (every
    reading of the clock by the sweep is less than the TTL after every
    reading by the stamping loop), the stream of that path, if any, is in
    the map after the tick as it was before, and the last time of the path
    is a time read during the tick. *)
Theorem tick_keeps_stream_with_client (s : supervisor) (order1 : list ptr)
    (order2 : list string) (now : nat -> Z) (cp : ptr) (c : serverClient) :
  range_order (program.clients (sup_prog s)) order1 ->
  range_order (stamped s order1 now) order2 ->
  streams_open (sup_streams s) ->
  program.mutex (sup_prog s) = mkRWMutex 0 false ->
  program.clients (sup_prog s) !! cp = Some c ->
  (forall i j, (i < length order1)%nat -> (j < length order2)%nat ->
     now (length order1 + j)%nat - now i
     < StreamTTL (program.conf (sup_prog s))) ->
  exists s' i,
    tick s order1 order2 now = Returned s' /\
    (i < length order1)%nat /\
    streamsClientLastTime s' !! serverClient.path c = Some (now i) /\
    sup_streams s' !! serverClient.path c = sup_streams s !! serverClient.path c.
Proof.
  intros Hord1 Hord2 Hopen Hmx Hc Hshort.
  destruct (tick_spec s order1 order2 now Hord1 Hord2 Hopen Hmx)
    as (s' & evs & Hret & _ & _ & Hstamp & Hsweep & _).
  destruct (Hstamp cp c Hc) as (i & Hi & Hst).
  destruct (Hsweep _ _ Hst) as (j & Hj & _ & Hkeep). simpl in Hkeep.
  exists s', i. split; [done|]. split; [done|].
  destruct Hkeep as [Hs Hl].
  - intros [Hexp _]. apply lookup_lt_Some in Hj.
    pose proof (Hshort i j Hi Hj). lia.
  - done.
Qed.

Lemma tick_keeps_stream_with_client_witness :
  exists s',
    tick example_supervisor [1%nat] ["cam1"; "cam2"] at_20s = Returned s' /\
    sup_streams s' !! "cam1" = Some (stream.mk false 0).
Proof.
  destruct (tick_keeps_stream_with_client example_supervisor [1%nat]
              ["cam1"; "cam2"] at_20s 1%nat client_udp)
    as (s' & i & Hret & _ & _ & Hs).
  - split; [compute_done|by vm_compute].
  - split; [compute_done|by vm_compute].
  - apply streams_open_map_Forall. compute_done.
  - done.
  - done.
  - intros i j _ _. by vm_compute.
  - exists s'. split; [done|]. etrans; [exact Hs|by vm_compute].
Defined.

Lemma due_or_not ttl t0 (last : gmap string Z) (streams : gmap string stream) path :
  due ttl t0 last streams path \/ ~ due ttl t0 last streams path.
Proof.
  destruct (last !! path) as [lt|] eqn:Hl;
    [|right; intros (? & ? & ? & _); congruence].
  destruct (streams !! path) as [st|] eqn:Hst;
    [|right; intros (? & ? & _ & _ & ?); congruence].
  destruct (decide (t0 - lt >= ttl)) as [Hexp|Hexp].
  - left. by exists lt, st.
  - right. intros (lt' & ? & ? & ? & _). assert (lt' = lt) as -> by congruence. done.
Qed.

(** The sweep stops what it deletes: its events are the four events of each
    removed path, one path after the other, and the removed paths are those
    whose stream left the map. *)
Lemma sweep_range_removed ttl now order :
  forall k s,
    NoDup order ->
    streams_open (sup_streams s) ->
    exists s' removed,
      sweep_range ttl order now k s = Returned s' /\
      sup_events s' = sup_events s ++ flat_map sweep_events removed /\
      sublist removed order /\
      (forall path, path ∈ removed ->
         is_Some (sup_streams s !! path) /\ sup_streams s' !! path = None) /\
      (forall path, path ∉ removed ->
         sup_streams s' !! path = sup_streams s !! path).
Proof.
  induction order as [|p0 rest IH]; intros k s Hnd Hopen.
  - exists s, []. simpl. split; [done|]. split; [by rewrite app_nil_r|].
    split; [done|]. split; [|done]. intros path Hin. by apply elem_of_nil in Hin.
  - apply NoDup_cons in Hnd as [Hnotin Hnd]. simpl.
    destruct (sweep_body_spec ttl (now k) s p0 Hopen)
      as (s1 & Hbody & _ & Hopen1 & Hother1 & Hdue1 & Hnot1).
    rewrite Hbody. simpl.
    destruct (IH (S k) s1 Hnd Hopen1) as (s' & removed & Hrange & Hev & Hsub & Hin & Hout).
    assert (Hp0 : p0 ∉ removed).
    { intros Hp. apply Hnotin. by eapply elem_of_sublist. }
    destruct (due_or_not ttl (now k) (streamsClientLastTime s) (sup_streams s) p0)
      as [Hdue|Hdue].
    + destruct (Hdue1 Hdue) as (Hs1 & _ & Hev1).
      exists s', (p0 :: removed). split; [done|]. split.
      { rewrite Hev, Hev1. simpl. by rewrite <- app_assoc. }
      split; [by apply sublist_skip|]. split.
      * intros path Hpath. apply elem_of_cons in Hpath as [->|Hpath].
        -- destruct Hdue as (? & st & _ & _ & Hst). split; [by eexists|].
           rewrite (Hout p0 Hp0). done.
        -- destruct (Hin path Hpath) as [Hsome Hnone]. split; [|done].
           assert (path <> p0) by (intros ->; done).
           destruct (Hother1 path) as [<- _]; done.
      * intros path Hpath. apply not_elem_of_cons in Hpath as [Hne Hpath].
        rewrite (Hout path Hpath). by destruct (Hother1 path Hne).
    + rewrite (Hnot1 Hdue) in *.
      exists s', removed. split; [done|]. split; [done|].
      split; [by apply sublist_cons|]. done.
Qed.

(** X11: a tick stops exactly the streams it removes, each once and before
    the removal: what the tick does is, for one path after the other of a
    list without repetition, the log line, the close of the stop channel,
    the deletion of the stream and the deletion of the last time; the paths
    of that list are exactly those whose stream was in the map before the
    tick and is not after it; every other stream is in the map as before,
    no stream is added, and the clients are not touched. *)
Theorem tick_stops_what_it_deletes (s : supervisor) (order1 : list ptr)
    (order2 : list string) (now : nat -> Z) :
  range_order (program.clients (sup_prog s)) order1 ->
  range_order (stamped s order1 now) order2 ->
  streams_open (sup_streams s) ->
  program.mutex (sup_prog s) = mkRWMutex 0 false ->
  exists s' removed,
    tick s order1 order2 now = Returned s' /\
    sup_events s'
    = sup_events s
      ++ flat_map (fun path => [EvLog path; EvStop path; EvDeleteStream path;
                                EvDeleteLastTime path]) removed /\
    NoDup removed /\
    (forall path, path ∈ removed <->
       is_Some (sup_streams s !! path) /\ sup_streams s' !! path = None) /\
    (forall path, path ∉ removed ->
       sup_streams s' !! path = sup_streams s !! path) /\
    program.clients (sup_prog s') = program.clients (sup_prog s).
Proof.
  intros Hord1 Hord2 Hopen Hmx. unfold tick. rewrite Hmx. simpl.
  set (s1 := mkSupervisor _ (stamped s order1 now) (sup_events s)).
  destruct (sweep_range_removed (StreamTTL (program.conf (sup_prog s))) now order2
              (length order1) s1)
    as (s2 & removed & Hrange & Hev & Hsub & Hin & Hout); [apply Hord2|done|].
  destruct (sweep_range_spec (StreamTTL (program.conf (sup_prog s))) now order2
              (length order1) s1)
    as (s2' & evs & Hrange' & Hprog & _); [apply Hord2|done|].
  assert (s2' = s2) as -> by congruence.
  rewrite Hrange. exists
    (mkSupervisor (set_mutex (sup_prog s2) (Unlock (program.mutex (sup_prog s2))))
       (streamsClientLastTime s2) (sup_events s2)), removed.
  split; [done|]. simpl. split; [done|].
  split; [eapply sublist_NoDup; [apply Hord2|exact Hsub]|].
  split; [|split].
  - intros path. split; [by apply Hin|].
    intros [[st Hst] Hnone]. destruct (decide (path ∈ removed)) as [|Hno]; [done|].
    pose proof (Hout path Hno) as Heq.
    unfold sup_streams in *. simpl in *. congruence.
  - done.
  - rewrite Hprog. done.
Qed.

Lemma tick_stops_what_it_deletes_witness :
  exists s',
    tick example_supervisor [1%nat] ["cam1"; "cam2"] at_20s = Returned s' /\
    sup_events s' = [EvLog "cam2"; EvStop "cam2"; EvDeleteStream "cam2";
                     EvDeleteLastTime "cam2"].
Proof.
  destruct (tick_stops_what_it_deletes example_supervisor [1%nat]
              ["cam1"; "cam2"] at_20s) as (s' & removed & Hret & Hev & _).
  - split; [compute_done|by vm_compute].
  - split; [compute_done|by vm_compute].
  - apply streams_open_map_Forall. compute_done.
  - done.
  - exists s'. split; [done|].
    assert (Hs : tick example_supervisor [1%nat] ["cam1"; "cam2"] at_20s
                 = Returned
                     (mkSupervisor
                        (example_program_with (<[1%nat := client_udp]> ∅)
                           (<["cam1" := stream.mk false 0]> ∅))
                        (<["cam1" := 20 * time_Second]> ∅)
                        [EvLog "cam2"; EvStop "cam2"; EvDeleteStream "cam2";
                         EvDeleteLastTime "cam2"])) by (by vm_compute).
    rewrite Hs in Hret. by injection Hret as <-.
Defined.

(** ** Further properties of start, run and close *)








(** ** Further properties of the bootstrap *)

Lemma protocols_of_String ps :
  forall acc,
    protocols_of (map streamProtocol_String ps) acc = Ok (list_to_set ps ∪ acc).
Proof.
  induction ps as [|s ps IH]; intros acc; simpl.
  - by rewrite (left_id_L ∅ (∪)).
  - destruct s; simpl; rewrite IH; f_equal;
      by rewrite (assoc_L (∪)), (comm_L (∪) (list_to_set ps)).
Qed.

(** X14: the names printed by [streamProtocol.String] are the tokens the
    bootstrap accepts, and reading them back gives the protocols printed:
    the loop of [newProgram] over the printed names of any list of protocols
    ends without error in the set of those protocols; two protocols with
    the same name are equal. *)
Theorem streamProtocol_String_round_trip (ps : list streamProtocol) :
  protocols_of (map streamProtocol_String ps) ∅ = Ok (list_to_set ps) /\
  (forall s1 s2, streamProtocol_String s1 = streamProtocol_String s2 -> s1 = s2).
Proof.
  split.
  - rewrite protocols_of_String. by rewrite (right_id_L ∅ (∪)).
  - intros [] []; simpl; done.
Qed.

Lemma protocols_of_elem tokens :
  forall acc protocols,
    protocols_of tokens acc = Ok protocols ->
    forall s, s ∈ protocols <-> streamProtocol_String s ∈ tokens \/ s ∈ acc.
Proof.
  induction tokens as [|proto rest IH]; intros acc protocols; simpl.
  - intros [= <-] s. split; [by right|]. intros [Hin|?]; [|done].
    by apply elem_of_nil in Hin.
  - case_decide as Hu; [|case_decide as Ht]; [| |done].
    + intros Hrec s. rewrite (IH _ _ Hrec s). subst proto. clear IH Hrec.
      rewrite elem_of_cons, elem_of_union, elem_of_singleton.
      destruct s; simpl; (split; [intros [?|[?|?]]|intros [[?|?]|?]]);
        try discriminate; eauto.
    + intros Hrec s. rewrite (IH _ _ Hrec s). subst proto. clear IH Hrec Hu.
      rewrite elem_of_cons, elem_of_union, elem_of_singleton.
      destruct s; simpl; (split; [intros [?|[?|?]]|intros [[?|?]|?]]);
        try discriminate; eauto.
Qed.

(** X15: the protocols of an accepted configuration are exactly those named
    in its list: when the checks of [newProgram] pass, a protocol is in the
    set they yield if and only if its name is in [Protocols], whatever the
    order and the repetitions of the names; every name of the list is [udp]
    or [tcp], and the set is not empty. *)
Theorem validate_protocols_exact (c : conf) (protocols : gset streamProtocol) :
  validate c = Ok protocols ->
  (forall s, s ∈ protocols <-> streamProtocol_String s ∈ Protocols c) /\
  (forall token, token ∈ Protocols c -> token = "udp" \/ token = "tcp") /\
  protocols <> ∅.
Proof.
  unfold validate. repeat (case_decide; [done|]).
  destruct (protocols_of (Protocols c) ∅) as [ps|m] eqn:Hp; [|done].
  case_decide as Hsz; [done|]. intros [= <-]. split; [|split].
  - intros s. rewrite (protocols_of_elem _ _ _ Hp s).
    split; [intros [?|Hin]; [done|by apply not_elem_of_empty in Hin]|by left].
  - intros token Hin.
    destruct (decide (token = "udp")) as [|Hu]; [by left|].
    destruct (decide (token = "tcp")) as [|Ht]; [by right|].
    exfalso. destruct (proj2 (protocols_of_Err (Protocols c) ∅)) as [m Hm].
    + by exists token.
    + congruence.
  - intros ->. apply Hsz. apply size_empty.
Qed.

Lemma validate_protocols_exact_witness :
  exists protocols,
    validate (mkConf ["tcp"; "udp"; "tcp"] 8554 8050 8051 time_Second time_Second)
    = Ok protocols /\
    (forall s, s ∈ protocols) .
Proof.
  exists {[_STREAM_PROTOCOL_UDP; _STREAM_PROTOCOL_TCP]}.
  assert (Hv : validate (mkConf ["tcp"; "udp"; "tcp"] 8554 8050 8051
                           time_Second time_Second)
               = Ok {[_STREAM_PROTOCOL_UDP; _STREAM_PROTOCOL_TCP]})
    by (by vm_compute).
  split; [done|]. intros s.
  apply (proj1 (validate_protocols_exact _ _ Hv)).
  destruct s; simpl; [apply list_elem_of_further, list_elem_of_here|apply list_elem_of_here].
Defined.

Lemma protocols_of_Err_message tokens :
  forall acc m,
    protocols_of tokens acc = Err m ->
    exists proto, m = "unsupported protocol: " +:+ proto.
Proof.
  induction tokens as [|proto rest IH]; intros acc m; simpl; [done|].
  case_decide; [apply IH|]. case_decide; [apply IH|].
  intros [= <-]. by exists proto.
Qed.

Lemma strings_Split_nonempty s : strings_Split s <> [].
Proof.
  destruct s as [|ch rest]; simpl; [done|].
  destruct (Ascii.eqb ch ","%char); [done|].
  by destruct (strings_Split rest).
Qed.

(** X16: a configuration built from the flags never has an empty list of
    protocols, because [strings.Split] yields at least one token; so the
    check [len(protocols) == 0] of [newProgram] never fires: its error [no
    protocols provided] is never the outcome of the checks, and an empty
    [--protocols] gives the list of one empty token, which the checks
    refuse with another error. *)
Theorem no_protocols_error_unreachable (parseInt parseDuration : string -> option Z)
    (args env : gmap string string) (c : conf) :
  parse_flags parseInt parseDuration args env = Some c ->
  Protocols c <> [] /\
  validate c <> Err "no protocols provided" /\
  (flag_value args env flag_protocols = "" ->
     Protocols c = [""] /\ exists m, validate c = Err m).
Proof.
  intros Hparse.
  assert (Hps : Protocols c = strings_Split (flag_value args env flag_protocols)).
  { unfold parse_flags in Hparse.
    repeat (match type of Hparse with
            | context [parseInt ?x] => destruct (parseInt x); simpl in Hparse; [|done]
            | context [parseDuration ?x] =>
                destruct (parseDuration x); simpl in Hparse; [|done]
            end).
    by injection Hparse as <-. }
  assert (Hne : Protocols c <> []) by (rewrite Hps; apply strings_Split_nonempty).
  split; [done|]. split.
  - unfold validate. repeat (case_decide; [done|]).
    destruct (protocols_of (Protocols c) ∅) as [ps|m] eqn:Hp.
    + case_decide as Hsz; [|done].
      destruct (protocols_of_Ok _ _ _ Hp) as [_ Hnonempty].
      exfalso. apply (Hnonempty Hne). by apply size_empty_inv, leibniz_equiv in Hsz.
    + destruct (protocols_of_Err_message _ _ _ Hp) as [proto ->]. done.
  - intros Hempty. rewrite Hps, Hempty in *. split; [done|].
    unfold validate. repeat (case_decide; [by eexists|]).
    rewrite Hps. by eexists.
Qed.

Lemma no_protocols_error_unreachable_witness :
  Protocols (mkConf ["tcp"; "udp"] 8554 8050 8051
               (10 * time_Second) (10 * time_Second)) <> [] /\
  validate (mkConf ["tcp"; "udp"] 8554 8050 8051
              (10 * time_Second) (10 * time_Second))
  <> Err "no protocols provided".
Proof.
  destruct (no_protocols_error_unreachable parse_decimal parse_seconds ∅ ∅
              (mkConf ["tcp"; "udp"] 8554 8050 8051
                 (10 * time_Second) (10 * time_Second)))
    as (H1 & H2 & _); [by vm_compute|].
  by split.
Defined.

Lemma wrap_int_succ_ne (n : Z) : wrap_int (n + 1) <> n.
Proof.
  unfold wrap_int. intros H.
  assert (Hm : (n + 1 + 2 ^ 63) mod 2 ^ 64 = n + 2 ^ 63) by lia.
  pose proof (Z.mod_pos_bound (n + 1 + 2 ^ 63) (2 ^ 64) ltac:(lia)) as Hb.
  destruct (decide (n + 1 + 2 ^ 63 < 2 ^ 64)) as [Hlt|Hge].
  - rewrite Z.mod_small in Hm by lia. lia.
  - assert (n + 1 + 2 ^ 63 = 2 ^ 64) as Heq by lia.
    rewrite Heq, Z.mod_same in Hm by lia. lia.
Qed.

(** X17: setting the environment variable [RTP_PORT] alone keeps the proxy
    from starting. When neither [--rtp-port] nor [--rtcp-port] is on the
    command line and [RTP_PORT] is set to a non-empty value, both flags read
    that value, so the two ports are equal (or kingpin rejects the text) and
    [main] exits with status 1 before it logs or binds anything, whatever
    the value and whatever the other flags and variables. *)
Theorem RTP_PORT_alone_blocks_startup (parseInt parseDuration : string -> option Z)
    (bind_udp bind_tcp : Z -> bool) (depth : nat)
    (args env : gmap string string) (v : string) :
  args !! "rtp-port" = None ->
  args !! "rtcp-port" = None ->
  env !! "RTP_PORT" = Some v ->
  v <> "" ->
  main parseInt parseDuration bind_udp bind_tcp depth args env = Exited 1 [].
Proof.
  intros Hrtp Hrtcp Henv Hv. unfold main.
  destruct (parse_flags parseInt parseDuration args env) as [c|] eqn:Hparse; [|done].
  assert (Hports : RtcpPort c = RtpPort c).
  { unfold parse_flags in Hparse.
    assert (Hsame : flag_value args env flag_rtcp_port
                    = flag_value args env flag_rtp_port).
    { unfold flag_value, os_Getenv. simpl. rewrite Hrtp, Hrtcp, Henv. simpl.
      by destruct (decide (v = "")). }
    rewrite Hsame in Hparse.
    destruct (parseInt (flag_value args env flag_rtsp_port)); simpl in Hparse; [|done].
    destruct (parseInt (flag_value args env flag_rtp_port)); simpl in Hparse; [|done].
    destruct (parseDuration (flag_value args env flag_stream_ready_timeout));
      simpl in Hparse; [|done].
    destruct (parseDuration (flag_value args env flag_stream_ttl));
      simpl in Hparse; [|done].
    by injection Hparse as <-. }
  assert (Hval : exists m, validate c = Err m).
  { unfold validate. repeat (case_decide; [by eexists|]).
    exfalso. apply (wrap_int_succ_ne (RtpPort c)). congruence. }
  destruct Hval as [m Hval]. unfold newProgram_conf. by rewrite Hval.
Qed.

Lemma RTP_PORT_alone_blocks_startup_witness :
  main parse_decimal parse_seconds (fun _ => true) (fun _ => true) 8 ∅ env_rtp_only
  = Exited 1 [].
Proof.
  apply (RTP_PORT_alone_blocks_startup parse_decimal parse_seconds
           (fun _ => true) (fun _ => true) 8 ∅ env_rtp_only "9000");
    by vm_compute.
Defined.

Lemma validate_Ok_inv (c : conf) (protocols : gset streamProtocol) :
  validate c = Ok protocols ->
  RtspPort c <> 0 /\ RtpPort c <> 0 /\ RtcpPort c <> 0 /\
  go_rem (RtpPort c) 2 = 0 /\
  RtcpPort c = wrap_int (RtpPort c + 1) /\
  time_Second <= StreamReadyTimeout c /\
  time_Second <= StreamTTL c.
Proof.
  unfold validate. repeat (case_decide; [done|]). intros _.
  split_and!; try done; lia.
Qed.

(** X18: what [newProgram] gives for a configuration. It returns a program
    exactly when the checks pass and the RTP, RTCP and RTSP sockets bind;
    the supervisor task is started exactly then; when a check fails nothing
    has been logged or bound. The program returned carries the
    configuration, the protocols of the checks, an RTP listener on the even
    port [RtpPort] and an RTCP listener on the next port, and the supervisor
    starts with no client, no stream, no last time and the lock free. *)
Theorem newProgram_conf_outcome (bind_udp bind_tcp : Z -> bool) (depth : nat)
    (c : conf) :
  let r := newProgram_conf bind_udp bind_tcp depth c in
  ((exists p, r.1 = Ok p) <->
   (exists protocols, validate c = Ok protocols) /\
   bind_udp (RtpPort c) = true /\ bind_udp (RtcpPort c) = true /\
   bind_tcp (RtspPort c) = true) /\
  (EffGoSupervisor ∈ r.2 <-> exists p, r.1 = Ok p) /\
  ((exists m, validate c = Err m) -> r.2 = []) /\
  (forall p, r.1 = Ok p ->
     program.conf p = c /\
     validate c = Ok (program.protocols p) /\
     serverUdpListener.port (program.rtpl p) = RtpPort c /\
     serverUdpListener.flow (program.rtpl p) = _TRACK_FLOW_RTP /\
     serverUdpListener.port (program.rtcpl p) = wrap_int (RtpPort c + 1) /\
     serverUdpListener.flow (program.rtcpl p) = _TRACK_FLOW_RTCP /\
     go_rem (RtpPort c) 2 = 0 /\
     forall clock, sys_initial (mkSys (supervisor_start p) clock)).
Proof.
  unfold newProgram_conf, newServerUdpListener, newServerTcpListener.
  destruct (validate c) as [protocols|m] eqn:Hv; simpl.
  2:{ split_and!.
      - split; [by intros [? ?]|by intros [[? ?] _]].
      - split; [by intros ?%elem_of_nil|by intros [? ?]].
      - done.
      - done. }
  destruct (validate_Ok_inv c protocols Hv) as (_ & _ & _ & Heven & Hrtcp & _).
  destruct (bind_udp (RtpPort c)) eqn:Hb1; simpl.
  2:{ split_and!.
      - split; [by intros [? ?]|by intros (_ & ? & _)].
      - split; [|by intros [? ?]]. rewrite list_elem_of_singleton. done.
      - by intros [? ?].
      - done. }
  destruct (bind_udp (RtcpPort c)) eqn:Hb2; simpl.
  2:{ split_and!.
      - split; [by intros [? ?]|by intros (_ & _ & ? & _)].
      - split; [|by intros [? ?]]. rewrite !elem_of_cons, elem_of_nil.
        by intros [|[|]].
      - by intros [? ?].
      - done. }
  destruct (bind_tcp (RtspPort c)) eqn:Hb3; simpl.
  2:{ split_and!.
      - split; [by intros [? ?]|by intros (_ & _ & _ & ?)].
      - split; [|by intros [? ?]]. rewrite !elem_of_cons, elem_of_nil.
        by intros [|[|[|]]].
      - by intros [? ?].
      - done. }
  split_and!.
  - split; [intros _; split_and!; [by eexists|done..]|by eexists].
  - split; [by eexists|]. intros _. rewrite !elem_of_cons. tauto.
  - by intros [? ?].
  - intros p [= <-]. simpl. split_and!; try done.
Qed.

(** ** A listener whose publisher has not been set *)

Lemma IP_Equal_nil (x : IP) : x <> [] -> IP_Equal [] x = false.
Proof.
  intros Hx. unfold IP_Equal.
  rewrite decide_False by (by destruct x).
  rewrite decide_False by (by intros [? _]).
  rewrite decide_False by (by intros [? _]).
  done.
Qed.

(** X19: a listener as [newStreamUdpListener] builds it forwards nothing.
    The constructor leaves [publisherIp] nil and [publisherPort] zero, and a
    nil address equals no address that [ReadFromUDP] reports; so once
    started, the loop drops every datagram it reads, from any source and on
    any port, without touching the program or taking its lock. *)
Theorem fresh_listener_drops_everything (listen : Z -> bool) (port : Z)
    (l : streamUdpListener) (inputs : list loop_input) (w : world) :
  newStreamUdpListener listen port = Some l ->
  listener w = start l ->
  Forall (fun i => exists payload src,
                     in_read i = ReadOk payload src /\ addr_IP src <> []) inputs ->
  exists st,
    run_loop inputs w = Next (mkWorld (start l) (prog w) st (forwarded w)).
Proof.
  intros Hnew Hl Hall. unfold newStreamUdpListener in Hnew.
  destruct (listen port); [|done]. injection Hnew as <-.
  destruct (run_loop_foreign inputs w) as (st & Hst & _).
  - eapply Forall_impl; [exact Hall|]. intros i (payload & src & Hrd & Hip).
    exists payload, src. split; [done|]. rewrite Hl.
    unfold from_publisher, start. simpl. by rewrite (IP_Equal_nil _ Hip).
  - exists st. by rewrite Hst, Hl.
Qed.

Lemma fresh_listener_drops_everything_witness :
  exists l st,
    newStreamUdpListener (fun _ => true) 5000 = Some l /\
    run_loop [mkLoopInput (ReadOk [Byte.xaa] publisher_addr) [1%nat] 0;
              mkLoopInput (ReadOk [Byte.xbb] (mkUDPAddr (ip_10_0_0 Byte.x08) 0))
                [1%nat] 1]
      (mkWorld (start l) example_program ∅ [])
    = Next (mkWorld (start l) example_program st []).
Proof.
  eexists. 
  destruct (fresh_listener_drops_everything (fun _ => true) 5000 _
              [mkLoopInput (ReadOk [Byte.xaa] publisher_addr) [1%nat] 0;
               mkLoopInput (ReadOk [Byte.xbb] (mkUDPAddr (ip_10_0_0 Byte.x08) 0))
                 [1%nat] 1]
              (mkWorld (start _) example_program ∅ []) eq_refl eq_refl)
    as [st Hst].
  - repeat apply Forall_cons_2; [| |apply Forall_nil_2]; eexists _, _; by vm_compute.
  - exists st. split; [reflexivity|exact Hst].
Defined.

(** ** The supervisor and a stop channel closed elsewhere *)

Lemma sweep_range_panics ttl now order :
  forall k s j path lt st,
    NoDup order ->
    order !! j = Some path ->
    streamsClientLastTime s !! path = Some lt ->
    now (k + j)%nat - lt >= ttl ->
    sup_streams s !! path = Some st ->
    stream.stop st = true ->
    exists s',
      sweep_range ttl order now k s = Panicked s' /\
      program.mutex (sup_prog s') = program.mutex (sup_prog s).
Proof.
  induction order as [|p0 rest IH]; intros k s j path lt st Hnd Hj Hl Hexp Hst Hstop;
    [done|].
  apply NoDup_cons in Hnd as [Hnotin Hnd]. simpl. destruct j as [|j].
  - injection Hj as ->. rewrite Nat.add_0_r in Hexp. unfold sweep_body.
    unfold sup_streams in Hst. rewrite Hl, decide_True, Hst, Hstop by done.
    by exists s.
  - simpl in Hj.
    assert (Hne : p0 <> path).
    { intros ->. apply Hnotin. by eapply list_elem_of_lookup_2. }
    replace (k + S j)%nat with (S k + j)%nat in Hexp by lia.
    unfold sweep_body.
    destruct (streamsClientLastTime s !! p0) as [lt0|] eqn:Hl0; simpl;
      [|by eapply IH].
    case_decide; simpl; [|by eapply IH].
    destruct (program.streams (sup_prog s) !! p0) as [st0|] eqn:Hst0; simpl;
      [|by eapply IH].
    destruct (stream.stop st0); simpl; [by exists s|].
    edestruct (IH (S k)) as (s' & Hs' & Hmx); [exact Hnd|exact Hj| | | | |].
    5:{ exists s'. split; [exact Hs'|]. rewrite Hmx. done. }
    + simpl. rewrite lookup_delete_ne by done. exact Hl.
    + exact Hexp.
    + unfold sup_streams. simpl. rewrite lookup_delete_ne by done. exact Hst.
    + exact Hstop.
Qed.

(** X20: the supervisor does not survive a stop channel that is closed
    already. If, when its turn comes in the sweep, an entry of
    [streamsClientLastTime] is at least the TTL old and its stream is in the
    map with [stop] closed, then [close(s.stop)] panics: the tick ends in a
    panic, with the write lock still held, since [Unlock] is not deferred. *)
Theorem tick_panics_on_closed_stop (s : supervisor) (order1 : list ptr)
    (order2 : list string) (now : nat -> Z) (j : nat) (path : string)
    (t : Z) (st : stream) :
  program.mutex (sup_prog s) = mkRWMutex 0 false ->
  NoDup order2 ->
  order2 !! j = Some path ->
  stamped s order1 now !! path = Some t ->
  now (length order1 + j)%nat - t >= StreamTTL (program.conf (sup_prog s)) ->
  sup_streams s !! path = Some st ->
  stream.stop st = true ->
  exists s',
    tick s order1 order2 now = Panicked s' /\
    program.mutex (sup_prog s') = mkRWMutex 0 true.
Proof.
  intros Hmx Hnd Hj Ht Hexp Hst Hstop. unfold tick. rewrite Hmx. simpl.
  edestruct (sweep_range_panics (StreamTTL (program.conf (sup_prog s))) now order2
               (length order1)
               (mkSupervisor (set_mutex (sup_prog s) (mkRWMutex 0 true))
                  (stamped s order1 now) (sup_events s)) j path t st)
    as (s' & Hs' & Hm); try done.
  rewrite Hs'. by exists s'.
Qed.

Lemma tick_panics_on_closed_stop_witness :
  exists s',
    tick supervisor_closed_stop [] ["cam2"] at_20s = Panicked s' /\
    program.mutex (sup_prog s') = mkRWMutex 0 true.
Proof.
  apply (tick_panics_on_closed_stop supervisor_closed_stop [] ["cam2"] at_20s
           0 "cam2" 0 (stream.mk true 0)).
  - reflexivity.
  - compute_done.
  - reflexivity.
  - by vm_compute.
  - by vm_compute.
  - by vm_compute.
  - reflexivity.
Defined.
